(** * ollama-mcp-bridge: the MCP client transport and the bridge loop

    A shallow embedding of [src/mcp-client.ts] (class [MCPClient]) and of
    [src/bridge.ts] (class [MCPLLMBridge]).

    - [Transport]   : [MCPClient.handleResponse], the inbound buffer.
    - [Client]      : the pending-request queue, [sendMessage], its timer,
                      [processMessage], [initialize], [connect], [close].
    - [Bridge]      : [MCPLLMBridge.processMessage] and [handleToolCalls].

    Logging calls are left out, except where evaluating a log argument can
    throw (it is evaluated before the logger is entered). *)

From Stdlib Require Import ZArith NArith List String Ascii Bool Lia.
From Stdlib Require Import Strings.Byte.
From Equations Require Import Equations.
From stdpp Require Import base gmap sets list strings pretty.

Set Default Proof Using "Type".
Set Warnings "-register-all".

(** A value with the proof that it is the value of the expression: a loop
    defined by well-founded recursion reads its condition through it. *)
Definition inspect {A : Type} (a : A) : {b : A | a = b} := exist _ a eq_refl.

(* ===================================================================== *)
(** * Transport: bytes in, lines out                                     *)
(* ===================================================================== *)

Module Transport.

(** A JavaScript string is a sequence of UTF-16 code units. *)
Definition code_unit := N.
Definition jsstring := list code_unit.

Definition NL : code_unit := 10%N.
Definition REPLACEMENT : N := 65533%N. (* U+FFFD *)

(** ** [Buffer.prototype.toString()]: UTF-8 decoding with replacement.

    The platform decoder, written as the state machine of the Encoding
    standard: an ill-formed or truncated sequence becomes U+FFFD, and the
    byte that broke a sequence is looked at again as a first byte. *)

Record utf8_state := mkUtf8 {
  code_point   : N;
  bytes_seen   : nat;
  bytes_needed : nat;
  lower        : N;
  upper        : N
}.

Definition utf8_init : utf8_state := mkUtf8 0 0 0 128 191.

Definition in_range (lo hi b : N) : bool := ((lo <=? b) && (b <=? hi))%N.

(** A code point as UTF-16 code units (a surrogate pair above U+FFFF). *)
Definition utf16 (cp : N) : jsstring :=
  if (cp <? 65536)%N then [cp]
  else let c := (cp - 65536)%N in
       [(55296 + N.shiftr c 10)%N; (56320 + N.land c 1023)%N].

(** A byte met while no sequence is open. *)
Definition utf8_first (b : N) : jsstring * utf8_state :=
  if in_range 0 127 b then (utf16 b, utf8_init)
  else if in_range 194 223 b then
    ([], mkUtf8 (N.land b 31) 0 1 128 191)
  else if in_range 224 239 b then
    ([], mkUtf8 (N.land b 15) 0 2
                (if (b =? 224)%N then 160 else 128)%N
                (if (b =? 237)%N then 159 else 191)%N)
  else if in_range 240 244 b then
    ([], mkUtf8 (N.land b 7) 0 3
                (if (b =? 240)%N then 144 else 128)%N
                (if (b =? 244)%N then 143 else 191)%N)
  else ([REPLACEMENT], utf8_init).

Definition utf8_step (s : utf8_state) (b : N) : jsstring * utf8_state :=
  match bytes_needed s with
  | O => utf8_first b
  | S _ =>
      if in_range (lower s) (upper s) b then
        let cp := N.lor (N.shiftl (code_point s) 6) (N.land b 63) in
        let seen := S (bytes_seen s) in
        if Nat.eqb seen (bytes_needed s) then (utf16 cp, utf8_init)
        else ([], mkUtf8 cp seen (bytes_needed s) 128 191)
      else
        let '(out, s') := utf8_first b in (REPLACEMENT :: out, s')
  end.

Fixpoint utf8_run (s : utf8_state) (bs : list byte) : jsstring :=
  match bs with
  | [] => match bytes_needed s with O => [] | S _ => [REPLACEMENT] end
  | b :: bs' =>
      let '(out, s') := utf8_step s (Byte.to_N b) in
      out ++ utf8_run s' bs'
  end.

(** [data.toString()] for a [Buffer] [data]. *)
Definition toString (data : list byte) : jsstring := utf8_run utf8_init data.

(** ** String primitives used by [handleResponse] *)

(** [s.indexOf(c)], [None] standing for -1. *)
Fixpoint indexOf (c : code_unit) (s : jsstring) : option nat :=
  match s with
  | [] => None
  | x :: s' => if (x =? c)%N then Some O
               else match indexOf c s' with
                    | Some i => Some (S i)
                    | None => None
                    end
  end.

(** [s.slice(a, b)] and [s.slice(a)] for in-range, non-negative bounds. *)
Definition slice (s : jsstring) (a b : nat) : jsstring := take (b - a) (drop a s).
Definition slice_from (s : jsstring) (a : nat) : jsstring := drop a s.

(** White space and line terminators, as [String.prototype.trim] strips. *)
Definition is_space (c : code_unit) : bool :=
  (in_range 9 13 c || (c =? 32) || (c =? 160) || (c =? 5760)
   || in_range 8192 8202 c || (c =? 8232) || (c =? 8233) || (c =? 8239)
   || (c =? 8287) || (c =? 12288) || (c =? 65279))%N.

Fixpoint trimStart (s : jsstring) : jsstring :=
  match s with
  | c :: s' => if is_space c then trimStart s' else s
  | [] => []
  end.

Definition trimEnd (s : jsstring) : jsstring := rev (trimStart (rev s)).
Definition trim (s : jsstring) : jsstring := trimEnd (trimStart s).

(** Truthiness of a string: non-empty. *)
Definition truthy (s : jsstring) : bool :=
  match s with [] => false | _ => true end.

Lemma indexOf_lt c s i : indexOf c s = Some i -> i < length s.
Proof.
  revert i; induction s as [|x s IH]; intros i; simpl; [discriminate|].
  destruct (x =? c)%N.
  - intros [= <-]. lia.
  - destruct (indexOf c s) as [j|]; [|discriminate].
    intros [= <-]. specialize (IH j eq_refl). lia.
Qed.

(** ** The drain loop of [handleResponse]

    [while ((newlineIndex = buf.indexOf('\n')) !== -1) { ... }]: the lines
    handed to [processMessage], in order, and the buffer that is left. *)
Equations? drain (buf : jsstring) : list jsstring * jsstring
  by wf (length buf) lt :=
  drain buf with inspect (indexOf NL buf) := {
    | exist _ None _ => ([], buf)
    | exist _ (Some newlineIndex) Hidx =>
        let messageLine := trim (slice buf 0 newlineIndex) in
        let '(lines, rest) := drain (slice_from buf (newlineIndex + 1)) in
        ((if truthy messageLine then [messageLine] else []) ++ lines, rest)
  }.
Proof.
  apply indexOf_lt in Hidx. unfold slice_from.
  rewrite length_drop. lia.
Qed.

(** [handleResponse(data)]: the new [responseBuffer] and the calls made to
    [processMessage]. *)
Definition handleResponse (responseBuffer : jsstring) (data : list byte)
  : list jsstring * jsstring :=
  drain (responseBuffer ++ toString data).

(** The same handler, entered with text that is already decoded. *)
Definition handleText (responseBuffer : jsstring) (text : jsstring)
  : list jsstring * jsstring :=
  drain (responseBuffer ++ text).

(** Chunks delivered one ['data'] event after another. *)
Fixpoint feed (responseBuffer : jsstring) (chunks : list (list byte))
  : list jsstring * jsstring :=
  match chunks with
  | [] => ([], responseBuffer)
  | data :: more =>
      let '(lines, buf) := handleResponse responseBuffer data in
      let '(lines', buf') := feed buf more in
      (lines ++ lines', buf')
  end.

Fixpoint feedText (responseBuffer : jsstring) (chunks : list jsstring)
  : list jsstring * jsstring :=
  match chunks with
  | [] => ([], responseBuffer)
  | text :: more =>
      let '(lines, buf) := handleText responseBuffer text in
      let '(lines', buf') := feedText buf more in
      (lines ++ lines', buf')
  end.

(** The loop, one iteration unfolded. *)
Lemma drain_step buf :
  drain buf =
  match indexOf NL buf with
  | None => ([], buf)
  | Some newlineIndex =>
      let messageLine := trim (slice buf 0 newlineIndex) in
      let '(lines, rest) := drain (slice_from buf (newlineIndex + 1)) in
      ((if truthy messageLine then [messageLine] else []) ++ lines, rest)
  end.
Proof.
  rewrite drain_equation_1. unfold inspect.
  enough (H : forall o (e : indexOf NL buf = o),
             drain_unfold_clause_1 buf (exist _ o e) =
             match o with
             | None => ([], buf)
             | Some newlineIndex =>
                 let messageLine := trim (slice buf 0 newlineIndex) in
                 let '(lines, rest) := drain (slice_from buf (newlineIndex + 1)) in
                 ((if truthy messageLine then [messageLine] else []) ++ lines, rest)
             end) by apply H.
  intros [i|] e; reflexivity.
Qed.

Lemma indexOf_app_Some c (a b : jsstring) i :
  indexOf c a = Some i -> indexOf c (a ++ b) = Some i.
Proof.
  revert i; induction a as [|x a IH]; intros i; simpl; [discriminate|].
  destruct (x =? c)%N; [done|].
  destruct (indexOf c a) as [j|]; [|discriminate].
  intros [= <-]. by rewrite (IH j eq_refl).
Qed.

Lemma drain_no_newline buf : indexOf NL buf = None -> drain buf = ([], buf).
Proof. intros H. rewrite drain_step. by rewrite H. Qed.

(** What the loop leaves behind holds no newline: it is a partial line. *)
Lemma drain_rest_partial buf lines rest :
  drain buf = (lines, rest) -> indexOf NL rest = None.
Proof.
  remember (length buf) as n eqn:Hn.
  revert buf Hn lines rest.
  induction n as [n IH] using lt_wf_ind; intros buf -> lines rest.
  rewrite drain_step.
  destruct (indexOf NL buf) as [i|] eqn:Hi.
  - cbv zeta.
    destruct (drain (slice_from buf (i + 1))) as [ls r] eqn:Hd.
    intros [= _ <-].
    eapply (IH (length (slice_from buf (i + 1)))); [|reflexivity|exact Hd].
    apply indexOf_lt in Hi. unfold slice_from. rewrite length_drop. lia.
  - intros [= _ <-]. exact Hi.
Qed.

(** The partial line is a suffix of the buffer, kept as it was. *)
Lemma drain_rest_suffix buf lines rest :
  drain buf = (lines, rest) -> exists consumed, buf = consumed ++ rest.
Proof.
  remember (length buf) as n eqn:Hn.
  revert buf Hn lines rest.
  induction n as [n IH] using lt_wf_ind; intros buf -> lines rest.
  rewrite drain_step.
  destruct (indexOf NL buf) as [i|] eqn:Hi.
  - cbv zeta.
    destruct (drain (slice_from buf (i + 1))) as [ls r] eqn:Hd.
    intros [= _ <-].
    assert (Hlt : length (slice_from buf (i + 1)) < length buf).
    { apply indexOf_lt in Hi. unfold slice_from. rewrite length_drop. lia. }
    destruct (IH _ Hlt (slice_from buf (i + 1)) eq_refl ls r Hd) as [c Hc].
    exists (take (i + 1) buf ++ c).
    rewrite <- app_assoc, <- Hc. unfold slice_from.
    by rewrite take_drop.
  - intros [= _ <-]. by exists [].
Qed.

(** Draining a buffer that grows at its end: what was drained before the
    growth stays, and the partial line is continued. *)
Lemma drain_app (a b : jsstring) :
  drain (a ++ b) =
  let '(la, ra) := drain a in
  let '(lb, rb) := drain (ra ++ b) in
  (la ++ lb, rb).
Proof.
  remember (length a) as n eqn:Hn.
  revert a Hn.
  induction n as [n IH] using lt_wf_ind; intros a ->.
  rewrite (drain_step a).
  destruct (indexOf NL a) as [i|] eqn:Hi.
  - rewrite (drain_step (a ++ b)), (indexOf_app_Some _ _ b _ Hi).
    pose proof (indexOf_lt _ _ _ Hi) as Hlt.
    cbv zeta. unfold slice, slice_from.
    rewrite !drop_0, take_app_le by lia.
    rewrite drop_app_le by lia.
    rewrite (IH (length (drop (i + 1) a))) by (rewrite ?length_drop; lia || reflexivity).
    destruct (drain (drop (i + 1) a)) as [la ra].
    destruct (drain (ra ++ b)) as [lb rb].
    by rewrite app_assoc.
  - destruct (drain (a ++ b)) as [lb rb]. reflexivity.
Qed.

(** *** Chunks of decoded text *)

(** Text chunks appended one by one give the lines, and leave the partial
    line, that the whole text appended at once gives. *)
Theorem feedText_reassembles (chunks : list jsstring) (responseBuffer : jsstring) :
  indexOf NL responseBuffer = None ->
  feedText responseBuffer chunks = handleText responseBuffer (concat chunks).
Proof.
  revert responseBuffer.
  induction chunks as [|text more IH]; intros buf Hbuf; simpl.
  - unfold handleText. rewrite app_nil_r. symmetry. by apply drain_no_newline.
  - unfold handleText in *.
    rewrite app_assoc, (drain_app (buf ++ text) (concat more)).
    destruct (drain (buf ++ text)) as [lines b1] eqn:Hd.
    rewrite (IH b1 (drain_rest_partial _ _ _ Hd)).
    reflexivity.
Qed.

(** *** Chunks of bytes *)

Definition is_ascii (b : byte) : bool := (Byte.to_N b <? 128)%N.

Lemma utf8_run_ascii (bs : list byte) :
  forallb is_ascii bs = true -> utf8_run utf8_init bs = map Byte.to_N bs.
Proof.
  induction bs as [|b bs IH]; simpl; [done|].
  intros [Hb Hbs]%andb_prop. unfold is_ascii in Hb.
  apply N.ltb_lt in Hb.
  unfold utf8_step, utf8_first. simpl.
  assert (Hr : in_range 0 127 (Byte.to_N b) = true).
  { unfold in_range. apply andb_true_intro; split.
    - apply N.leb_le. lia.
    - apply N.leb_le. lia. }
  rewrite Hr. unfold utf16.
  assert (Hlt : (Byte.to_N b <? 65536)%N = true) by (apply N.ltb_lt; lia).
  rewrite Hlt. simpl. by rewrite IH.
Qed.

Lemma toString_ascii_concat (chunks : list (list byte)) :
  forallb (forallb is_ascii) chunks = true ->
  toString (concat chunks) = concat (map toString chunks).
Proof.
  intros H. unfold toString.
  rewrite utf8_run_ascii.
  - induction chunks as [|c cs IH]; simpl; [done|].
    apply andb_prop in H as [Hc Hcs].
    rewrite map_app, (utf8_run_ascii c Hc), IH; done.
  - induction chunks as [|c cs IH]; simpl; [done|].
    apply andb_prop in H as [Hc Hcs].
    rewrite forallb_app, Hc. simpl. by apply IH.
Qed.

Lemma feed_as_text (chunks : list (list byte)) (responseBuffer : jsstring) :
  feed responseBuffer chunks = feedText responseBuffer (map toString chunks).
Proof.
  revert responseBuffer; induction chunks as [|c cs IH]; intros buf; simpl; [done|].
  unfold handleResponse, handleText.
  destruct (drain (buf ++ toString c)) as [lines b1].
  by rewrite IH.
Qed.

(** Byte chunks that hold 7-bit characters only are put together again. *)
Theorem feed_reassembles_ascii (chunks : list (list byte)) :
  forallb (forallb is_ascii) chunks = true ->
  feed [] chunks = handleResponse [] (concat chunks).
Proof.
  intros H. rewrite feed_as_text, feedText_reassembles by reflexivity.
  unfold handleText, handleResponse. by rewrite toString_ascii_concat.
Qed.

(** A response whose result holds [e] with an acute accent (bytes C3 A9),
    cut between the two bytes of that character. *)
Definition DQ : byte := x22.
Definition bytes_of (s : string) : list byte :=
  map byte_of_ascii (list_ascii_of_string s).
Definition quoted (bs : list byte) : list byte := DQ :: bs ++ [DQ].

Definition chunk1 : list byte :=
  bytes_of "{" ++ quoted (bytes_of "id") ++ bytes_of ":1," ++
  quoted (bytes_of "result") ++ bytes_of ":" ++ [DQ; xc3].
Definition chunk2 : list byte := [xa9; DQ] ++ bytes_of "}" ++ [x0a].

Definition units_of (s : string) : jsstring := map Byte.to_N (bytes_of s).
Definition line_head : jsstring :=
  units_of "{" ++ [34%N] ++ units_of "id" ++ [34%N] ++ units_of ":1," ++
  [34%N] ++ units_of "result" ++ [34%N] ++ units_of ":" ++ [34%N].
Definition line_tail : jsstring := [34%N] ++ units_of "}".

(** C3: the two-byte character cut by the chunk boundary is decoded as two
    U+FFFD, one per chunk, where the uncut bytes decode to U+00E9: the line
    handed to [processMessage] is another one. *)
Theorem handleResponse_split_character :
  handleResponse [] (chunk1 ++ chunk2) = ([line_head ++ [233%N] ++ line_tail], []) /\
  feed [] [chunk1; chunk2] = ([line_head ++ [65533%N; 65533%N] ++ line_tail], []) /\
  fst (feed [] [chunk1; chunk2]) <> fst (handleResponse [] (chunk1 ++ chunk2)).
Proof.
  assert (H1 : handleResponse [] (chunk1 ++ chunk2)
               = ([line_head ++ [233%N] ++ line_tail], [])).
  { unfold handleResponse. rewrite drain_step. vm_compute. reflexivity. }
  assert (H2 : feed [] [chunk1; chunk2]
               = ([line_head ++ [65533%N; 65533%N] ++ line_tail], [])).
  { vm_compute. reflexivity. }
  split; [exact H1|]. split; [exact H2|].
  rewrite H1, H2. vm_compute. discriminate.
Qed.

(** ** What [handleResponse] hands on, and what it keeps *)

Lemma indexOf_None_app c (a b : jsstring) :
  indexOf c (a ++ b) = None <-> indexOf c a = None /\ indexOf c b = None.
Proof.
  induction a as [|x a IH]; simpl.
  - split; [by intros H|by intros [_ H]].
  - destruct (x =? c)%N; [split; [done|by intros [? _]]|].
    destruct (indexOf c (a ++ b)) as [i|], (indexOf c a) as [j|];
      split; intros H; try discriminate;
      try (destruct H; discriminate);
      try discriminate (proj2 IH H);
      try discriminate (proj1 (proj1 IH eq_refl)); try done.
    split; [done|]. apply (proj1 IH eq_refl).
Qed.

Lemma indexOf_take c (s : jsstring) i :
  indexOf c s = Some i -> indexOf c (take i s) = None.
Proof.
  revert i; induction s as [|x s IH]; intros i; simpl; [done|].
  destruct (x =? c)%N eqn:Hx; [by intros [= <-]|].
  destruct (indexOf c s) as [j|]; [|done].
  intros [= <-]. simpl. by rewrite Hx, (IH j eq_refl).
Qed.

Lemma indexOf_at c (s : jsstring) i :
  indexOf c s = Some i -> s !! i = Some c.
Proof.
  revert i; induction s as [|x s IH]; intros i; simpl; [done|].
  destruct (N.eqb_spec x c) as [->|Hx]; [by intros [= <-]|].
  destruct (indexOf c s) as [j|]; [|done].
  intros [= <-]. by apply IH.
Qed.

Lemma trimStart_split s :
  exists spaces, s = spaces ++ trimStart s /\
    forallb is_space spaces = true /\
    forall c, head (trimStart s) = Some c -> is_space c = false.
Proof.
  induction s as [|c s (spaces & Hs & Hsp & Hhead)]; simpl.
  - by exists [].
  - destruct (is_space c) eqn:Hc.
    + exists (c :: spaces). simpl. rewrite Hc, Hsp. split; [by f_equal|done].
    + exists []. split; [done|]. split; [done|]. simpl. by intros ? [= <-].
Qed.

Lemma last_rev (l : jsstring) : last (rev l) = head l.
Proof. destruct l as [|c l]; simpl; [done|]. apply last_snoc. Qed.

Lemma trimEnd_split s :
  exists spaces, s = trimEnd s ++ spaces /\
    forallb is_space spaces = true /\
    forall c, last (trimEnd s) = Some c -> is_space c = false.
Proof.
  unfold trimEnd.
  destruct (trimStart_split (rev s)) as (spaces & Hs & Hsp & Hhead).
  exists (rev spaces). split; [|split].
  - rewrite <- rev_app_distr, <- Hs. by rewrite rev_involutive.
  - rewrite forallb_forall in *. intros c Hc%in_rev. by apply Hsp.
  - intros c. rewrite last_rev. apply Hhead.
Qed.

(** A line as [processMessage] gets it: it is not empty, it holds no
    newline, and it neither starts nor ends with white space. *)
Definition delivered (line : jsstring) : Prop :=
  line <> [] /\
  indexOf NL line = None /\
  (forall c, head line = Some c -> is_space c = false) /\
  (forall c, last line = Some c -> is_space c = false).

Lemma trim_delivered (s : jsstring) :
  indexOf NL s = None -> truthy (trim s) = true -> delivered (trim s).
Proof.
  intros Hnl Htruthy. unfold trim in *.
  destruct (trimStart_split s) as (sp1 & Hs & _ & Hhead).
  destruct (trimEnd_split (trimStart s)) as (sp2 & Ht & _ & Hlast).
  split; [|split; [|split]].
  - by destruct (trimEnd (trimStart s)).
  - rewrite Hs, Ht in Hnl.
    apply indexOf_None_app in Hnl as [_ Hnl].
    by apply indexOf_None_app in Hnl as [Hnl _].
  - intros c Hc. apply Hhead. rewrite Ht.
    destruct (trimEnd (trimStart s)); [done|]. exact Hc.
  - exact Hlast.
Qed.

Lemma drain_delivered buf :
  Forall delivered (drain buf).1.
Proof.
  remember (length buf) as n eqn:Hn. revert buf Hn.
  induction n as [n IH] using lt_wf_ind; intros buf ->.
  rewrite drain_step.
  destruct (indexOf NL buf) as [i|] eqn:Hi; [|by constructor].
  cbv zeta.
  assert (Hlt : length (slice_from buf (i + 1)) < length buf).
  { apply indexOf_lt in Hi. unfold slice_from. rewrite length_drop. lia. }
  pose proof (IH _ Hlt (slice_from buf (i + 1)) eq_refl) as Hrest.
  destruct (drain (slice_from buf (i + 1))) as [lines rest]. simpl in *.
  destruct (truthy (trim (slice buf 0 i))) eqn:Hline; simpl; [|done].
  constructor; [|done].
  apply trim_delivered; [|done].
  unfold slice. rewrite drop_0, Nat.sub_0_r. by apply indexOf_take.
Qed.

(** X1: every line that [handleResponse] hands to [processMessage] is not
    empty, holds no newline, and has no white space at either end, whatever
    the buffer held and whatever bytes came. *)
Theorem handleResponse_lines_trimmed (responseBuffer : jsstring) (data : list byte) :
  Forall delivered (handleResponse responseBuffer data).1.
Proof. unfold handleResponse. apply drain_delivered. Qed.

Lemma drain_consumed buf :
  indexOf NL (drain buf).2 = None /\
  exists consumed,
    buf = consumed ++ (drain buf).2 /\
    (consumed = [] \/ last consumed = Some NL).
Proof.
  remember (length buf) as n eqn:Hn. revert buf Hn.
  induction n as [n IH] using lt_wf_ind; intros buf ->.
  rewrite drain_step.
  destruct (indexOf NL buf) as [i|] eqn:Hi.
  - cbv zeta.
    assert (Hlt : length (slice_from buf (i + 1)) < length buf).
    { apply indexOf_lt in Hi. unfold slice_from. rewrite length_drop. lia. }
    destruct (IH _ Hlt (slice_from buf (i + 1)) eq_refl)
      as (Hnl & consumed & Hc & Hlast).
    destruct (drain (slice_from buf (i + 1))) as [lines rest]. simpl in *.
    split; [done|].
    exists (take (i + 1) buf ++ consumed). split.
    + rewrite <- app_assoc, <- Hc. unfold slice_from. by rewrite take_drop.
    + right. destruct Hlast as [->|Hlast].
      * rewrite app_nil_r.
        replace (i + 1) with (S i) by lia.
        rewrite (take_S_r buf i NL) by (by apply indexOf_at).
        apply last_snoc.
      * rewrite last_app, Hlast. done.
  - simpl. split; [done|]. exists []. auto.
Qed.

(** X2: what [handleResponse] leaves in [responseBuffer] is the text that
    came after the last newline: it holds no newline, and what was taken off
    before it is nothing or ends with a newline. *)
Theorem handleResponse_keeps_partial_line
  (responseBuffer : jsstring) (data : list byte) :
  let rest := (handleResponse responseBuffer data).2 in
  indexOf NL rest = None /\
  exists consumed,
    responseBuffer ++ toString data = consumed ++ rest /\
    (consumed = [] \/ last consumed = Some NL).
Proof. unfold handleResponse. apply drain_consumed. Qed.

(** ** Chunks that end between characters *)

(** The state of the decoder after [bs], and what it has put out by then. *)
Fixpoint utf8_after (s : utf8_state) (bs : list byte) : utf8_state :=
  match bs with
  | [] => s
  | b :: bs' => utf8_after (utf8_step s (Byte.to_N b)).2 bs'
  end.

(** No multi-byte sequence is open at the end of [bs]. *)
Definition ends_between_characters (bs : list byte) : bool :=
  Nat.eqb (bytes_needed (utf8_after utf8_init bs)) 0.

Lemma utf8_run_closed s (bs : list byte) :
  bytes_needed s = 0 -> utf8_run s bs = utf8_run utf8_init bs.
Proof.
  intros Hs. destruct bs as [|b bs]; simpl; [by rewrite Hs|].
  unfold utf8_step. by rewrite Hs.
Qed.

Lemma utf8_run_app s (a b : list byte) :
  bytes_needed (utf8_after s a) = 0 ->
  utf8_run s (a ++ b) = utf8_run s a ++ utf8_run utf8_init b.
Proof.
  revert s. induction a as [|x a IH]; intros s; simpl.
  - intros Hs. rewrite Hs. simpl. by apply utf8_run_closed.
  - destruct (utf8_step s (Byte.to_N x)) as [out s'] eqn:Hstep. simpl.
    intros Hs. by rewrite IH, app_assoc.
Qed.

Lemma toString_concat_boundaries (chunks : list (list byte)) :
  forallb ends_between_characters chunks = true ->
  toString (concat chunks) = concat (map toString chunks).
Proof.
  unfold toString.
  induction chunks as [|c cs IH]; simpl; [done|].
  intros [Hc Hcs]%andb_prop.
  apply Nat.eqb_eq in Hc. by rewrite utf8_run_app, IH.
Qed.

(** X3: when no chunk ends inside a multi-byte sequence, the chunks fed to
    [handleResponse] one by one give the lines, and leave the partial line,
    that their bytes give in one chunk. *)
Theorem feed_reassembles_characters (chunks : list (list byte)) :
  forallb ends_between_characters chunks = true ->
  feed [] chunks = handleResponse [] (concat chunks).
Proof.
  intros H. rewrite feed_as_text, feedText_reassembles by reflexivity.
  unfold handleText, handleResponse. by rewrite toString_concat_boundaries.
Qed.

(** The response of the cut character, cut after it instead, and the
    newline in a chunk of its own. *)
Lemma feed_reassembles_characters_witness :
  feed [] [chunk1 ++ [xa9]; [DQ] ++ bytes_of "}"; [x0a]]
  = handleResponse [] (concat [chunk1 ++ [xa9]; [DQ] ++ bytes_of "}"; [x0a]]).
Proof.
  apply (feed_reassembles_characters
           [chunk1 ++ [xa9]; [DQ] ++ bytes_of "}"; [x0a]]).
  vm_compute. reflexivity.
Defined.

End Transport.

(* ===================================================================== *)
(** * JavaScript values the two classes exchange                         *)
(* ===================================================================== *)

Module JS.

(** What [JSON.parse] returns. Numbers are the integers, which is what
    message ids are. An object is the list of its properties. *)
Inductive json :=
| JNull
| JBool (b : bool)
| JNum (n : Z)
| JStr (s : string)
| JArr (items : list json)
| JObj (props : list (string * json)).

(** A value that may be [undefined]. *)
Definition value := option json.
Definition undefined : value := None.

(** [if (v)], [!v], [v || w]. *)
Definition truthy (v : value) : bool :=
  match v with
  | None | Some JNull => false
  | Some (JBool b) => b
  | Some (JNum n) => negb (n =? 0)%Z
  | Some (JStr s) => negb (String.eqb s "")
  | Some (JArr _) | Some (JObj _) => true
  end.

(** [v.k] for a [v] that is neither [null] nor [undefined], [k] one of the
    names the code reads ([id], [error], [result], [message], [tools], ...):
    only an object has such a property. *)
Fixpoint assoc (k : string) (props : list (string * json)) : value :=
  match props with
  | [] => None
  | (k', v) :: rest => if String.eqb k k' then Some v else assoc k rest
  end.

Definition prop (k : string) (v : json) : value :=
  match v with
  | JObj props => assoc k props
  | _ => None
  end.

(** Does the conversion of [v] to a string return? An object with a
    property [toString] of its own has no callable [toString], and its
    [valueOf] gives no primitive: the conversion throws a [TypeError]. An
    array is joined from the conversions of its elements, [null] giving the
    empty string. *)
Fixpoint convertible (v : json) : bool :=
  match v with
  | JObj props => negb (existsb (fun field => String.eqb field.1 "toString") props)
  | JArr items => forallb convertible items
  | _ => true
  end.

(** Does [`${v}`] return, for a [v] that may be [undefined]? *)
Definition speakable (v : value) : bool :=
  match v with
  | Some x => convertible x
  | None => true
  end.

(** [String(v)] for a [v] whose conversion returns, integers printed by
    their digits. *)
Fixpoint ToString (v : json) : string :=
  match v with
  | JNull => "null"
  | JBool true => "true"
  | JBool false => "false"
  | JNum n => pretty n
  | JStr s => s
  | JArr items =>
      (fix join (l : list json) : string :=
         match l with
         | [] => ""
         | x :: l' =>
             (match x with JNull => "" | _ => ToString x end)
             +:+ (match l' with [] => "" | _ => "," +:+ join l' end)
         end) items
  | JObj _ => "[object Object]"
  end.

(** An [Error] object, as the engine, Node and this code make them, by the
    two things a [catch] of this code asks of it: [error?.message], which is
    a string, and [String(error)], which is the name of the error followed by
    that message. *)
Record thrown := mkThrown {
  message   : option string;
  rendering : string
}.

(** [new Error(m)] and the built-in [TypeError]. *)
Definition Error (m : string) : thrown :=
  mkThrown (Some m) (if String.eqb m "" then "Error" else "Error: " +:+ m).
Definition TypeError (m : string) : thrown :=
  mkThrown (Some m) (if String.eqb m "" then "TypeError" else "TypeError: " +:+ m).

(** [new Error(v)] for a speakable [v] that may be [undefined]. *)
Definition ErrorOf (v : value) : thrown :=
  match v with
  | None => Error ""
  | Some x => Error (ToString x)
  end.

(** [error?.message || String(error)] for an [Error] object. *)
Definition errorText (e : thrown) : string :=
  match message e with
  | Some m => if String.eqb m "" then rendering e else m
  | None => rendering e
  end.

(** What the conversion of a value without a string conversion throws. *)
Definition cannot_convert : thrown :=
  TypeError "Cannot convert object to primitive value".

(** Any value that code outside this repository's [src/] may throw at this
    code: an [Error] object, or a plain value ([throw "text"], [throw null],
    [throw { code: 7 }], a rejection with no reason). *)
Inductive raised :=
| ErrorObject (e : thrown)
| Plain (v : value).

(** [`${error?.message || String(error)}`], as every [catch] of [bridge.ts]
    has it: the text, or the [TypeError] of the conversion. A plain value has
    a [message] only when it is an object with that property; a truthy
    [message] is converted by the template, anything else by [String]. *)
Definition textOf (error : raised) : thrown + string :=
  match error with
  | ErrorObject e => inr (errorText e)
  | Plain None => inr "undefined"
  | Plain (Some v) =>
      match prop "message" v with
      | Some m =>
          if truthy (Some m)
          then (if convertible m then inr (ToString m) else inl cannot_convert)
          else (if convertible v then inr (ToString v) else inl cannot_convert)
      | None => if convertible v then inr (ToString v) else inl cannot_convert
      end
  end.

End JS.

(* ===================================================================== *)
(** * MCPClient: requests, their timers, and the session                 *)
(* ===================================================================== *)

Module Client.
Import JS.

(** A message given to [sendMessage]; a notification has no [id]. *)
Record message := mkMessage {
  msg_method : string;
  msg_params : value;
  msg_id     : option Z
}.

(** The promise [sendMessage] returns. *)
Inductive promise :=
| Pending
| Fulfilled (v : value)
| Rejected (e : thrown).

(** One invocation of [sendMessage]: what its closures hold. *)
Record call := mkCall {
  call_message : message;
  call_promise : promise;
  call_timer   : option N;   (* when [timeout] is due, while it is set *)
  call_writing : bool        (* [stdin.write] has not called back yet *)
}.

(** An entry [{ resolve, reject, message }] of [messageQueue]; the two
    closures are those of the invocation [pending_call]. *)
Record pending := mkPending {
  pending_call    : nat;
  pending_message : message
}.

(** The child process, by the streams it came with. *)
Record child := mkChild {
  child_stdin  : bool;
  child_stdout : bool
}.

Record client := mkClient {
  process            : option child;
  stdin              : bool;          (* [this.stdin] is not [null] *)
  stdout             : bool;
  initialized        : bool;
  messageQueue       : list pending;
  nextMessageId      : Z;
  serverCapabilities : value;
  serverVersion      : value;
  availableTools     : list value;     (* what was put in the [Set] *)
  responseBuffer     : Transport.jsstring;
  (* the run time around the object *)
  calls              : list call;     (* invocations of [sendMessage], oldest first *)
  now                : N;             (* the clock, in ms *)
  invoked            : list (nat * promise)
    (* every call made to a [resolve] or [reject] of a promise, oldest first *)
}.

(** [new MCPClient(serverParams)]. *)
Definition fresh : client :=
  mkClient None false false false [] 1 None None [] [] [] 0 [].

Definition with_queue (q : list pending) (st : client) : client :=
  mkClient (process st) (stdin st) (stdout st) (initialized st) q
           (nextMessageId st) (serverCapabilities st) (serverVersion st)
           (availableTools st) (responseBuffer st) (calls st) (now st) (invoked st).

Definition with_calls (cs : list call) (st : client) : client :=
  mkClient (process st) (stdin st) (stdout st) (initialized st) (messageQueue st)
           (nextMessageId st) (serverCapabilities st) (serverVersion st)
           (availableTools st) (responseBuffer st) cs (now st) (invoked st).

Definition with_now (t : N) (st : client) : client :=
  mkClient (process st) (stdin st) (stdout st) (initialized st) (messageQueue st)
           (nextMessageId st) (serverCapabilities st) (serverVersion st)
           (availableTools st) (responseBuffer st) (calls st) t (invoked st).

Definition with_invoked (l : list (nat * promise)) (st : client) : client :=
  mkClient (process st) (stdin st) (stdout st) (initialized st) (messageQueue st)
           (nextMessageId st) (serverCapabilities st) (serverVersion st)
           (availableTools st) (responseBuffer st) (calls st) (now st) l.

(** ** Promises and timers *)

Definition set_promise (p : promise) (c : call) : call :=
  mkCall (call_message c)
         (match call_promise c with Pending => p | settled => settled end)
         (call_timer c) (call_writing c).

Definition set_timer (t : option N) (c : call) : call :=
  mkCall (call_message c) (call_promise c) t (call_writing c).

Definition set_writing (w : bool) (c : call) : call :=
  mkCall (call_message c) (call_promise c) (call_timer c) w.

(** [resolve(v)] / [reject(e)] of the promise of invocation [h]: it settles
    the promise if it is still pending, and does nothing otherwise. *)
Definition settle (h : nat) (p : promise) (st : client) : client :=
  with_invoked (invoked st ++ [(h, p)])
               (with_calls (alter (set_promise p) h (calls st)) st).

(** [clearTimeout(timeout)] in invocation [h]. *)
Definition clearTimeout (h : nat) (st : client) : client :=
  with_calls (alter (set_timer None) h (calls st)) st.

(** The closures put in the queue:
    [(result) => { clearTimeout(timeout); resolve(result); }] and
    [(error) => { clearTimeout(timeout); reject(error); }]. *)
Definition pending_resolve (pm : pending) (v : value) (st : client) : client :=
  settle (pending_call pm) (Fulfilled v) (clearTimeout (pending_call pm) st).

Definition pending_reject (pm : pending) (e : thrown) (st : client) : client :=
  settle (pending_call pm) (Rejected e) (clearTimeout (pending_call pm) st).

(** ** [sendMessage] *)

Definition TIMEOUT : N := 30000.

Definition not_established : thrown :=
  Error "[MCP Client] Connection not established".

(** [`${message.id}`]. *)
Definition show_id (id : option Z) : string :=
  match id with Some n => pretty n | None => "undefined" end.

Definition timeout_error (id : option Z) : thrown :=
  Error ("[MCP Client] Message timeout after 30 seconds for message id: "
         +:+ show_id id).

(** The executor of the promise, up to the call of [stdin.write]; the
    invocation is number [length (calls st)]. *)
Definition sendMessage (m : message) (st : client) : client :=
  let h := length (calls st) in
  if negb (stdin st) || negb (stdout st) then
    with_invoked (invoked st ++ [(h, Rejected not_established)])
      (with_calls (calls st ++ [mkCall m (Rejected not_established) None false]) st)
  else
    let st1 :=
      with_calls (calls st ++ [mkCall m Pending (Some (now st + TIMEOUT)%N) true]) st in
    match msg_id m with
    | Some _ => with_queue (messageQueue st1 ++ [mkPending h m]) st1
    | None => st1
    end.

(** The callback given to [stdin.write], for invocation [h]. *)
Definition written (h : nat) (error : option thrown) (st : client) : client :=
  match calls st !! h with
  | Some c =>
      if call_writing c then
        let st1 := with_calls (alter (set_writing false) h (calls st)) st in
        match error with
        | Some e => settle h (Rejected e) (clearTimeout h st1)
        | None =>
            match msg_id (call_message c) with
            | None => settle h (Fulfilled undefined) (clearTimeout h st1)
            | Some _ => st1
            end
        end
      else st
  | None => st
  end.

(** [m.message.id === id] between ids of sent messages. *)
Definition same_id (a b : option Z) : bool := bool_decide (a = b).

(** [messageQueue.findIndex(m => m.message.id === id)]. *)
Fixpoint findIndex (id : option Z) (q : list pending) : option nat :=
  match q with
  | [] => None
  | m :: q' =>
      if same_id (msg_id (pending_message m)) id then Some O
      else match findIndex id q' with
           | Some i => Some (S i)
           | None => None
           end
  end.

(** The callback of [setTimeout] in invocation [h], run when it is due; the
    timer is spent by then, which [clearTimeout] stands for here. *)
Definition timer_fires (h : nat) (st : client) : client :=
  match calls st !! h with
  | Some c =>
      let st1 := clearTimeout h st in
      match findIndex (msg_id (call_message c)) (messageQueue st1) with
      | Some index =>
          settle h (Rejected (timeout_error (msg_id (call_message c))))
                 (with_queue (delete index (messageQueue st1)) st1)
      | None => st1
      end
  | None => st
  end.

(** Is the timer of invocation [h] set and due at time [t]? *)
Definition due (t : N) (st : client) (h : nat) : bool :=
  match calls st !! h with
  | Some c => match call_timer c with
              | Some d => (d <=? t)%N
              | None => false
              end
  | None => false
  end.

(** [dt] ms pass: the timers that come due fire, oldest first (they all
    wait the same 30 000 ms, so the oldest is due first). *)
Definition elapse (dt : N) (st : client) : client :=
  let t := (now st + dt)%N in
  with_now t
    (fold_left (fun s h => if due t s h then timer_fires h s else s)
               (seq 0 (length (calls st))) st).

(** ** [processMessage] *)

(** [m.message.id === response.id]. *)
Definition id_matches (rid : value) (m : pending) : bool :=
  match msg_id (pending_message m), rid with
  | Some n, Some (JNum k) => (n =? k)%Z
  | None, None => true
  | _, _ => false
  end.

(** The [try] block of [processMessage] from [messageQueue.find] on, for a
    [response] whose [id] could be read. *)
Definition deliver (response : json) (st : client) : client :=
  let rid := prop "id" response in
  match List.find (id_matches rid) (messageQueue st) with
  | Some pendingMessage =>
      let remaining :=
        List.filter (fun m => negb (id_matches rid m)) (messageQueue st) in
      if truthy (prop "error" response) then
        let error := match prop "error" response with
                     | Some e => prop "message" e
                     | None => None
                     end in
        if speakable error then
          with_queue remaining
            (pending_reject pendingMessage (ErrorOf error) st)
        else st   (* [`${response.error.message}`] throws *)
      else
        match prop "result" response with
        | None => st   (* [JSON.stringify(undefined).length] throws *)
        | Some result =>
            with_queue remaining
              (pending_resolve pendingMessage (Some result) st)
        end
  | None => st
  end.

(** [processMessage(messageLine)], entered with what [JSON.parse(messageLine)]
    does: it throws, or it returns a value. Whatever throws inside the [try]
    is caught and logged. *)
Definition processMessage (parsed : thrown + json) (st : client) : client :=
  match parsed with
  | inl _ => st
  | inr JNull => st                       (* [response.id] throws *)
  | inr response => deliver response st
  end.

(** ** [close] *)

Definition close (st : client) : client :=
  mkClient None false false false (messageQueue st) (nextMessageId st)
           (serverCapabilities st) (serverVersion st) [] []
           (calls st) (now st) (invoked st).

(** ** What happens to a client *)

Inductive event :=
| Written (h : nat) (error : option thrown)  (* [stdin.write] calls back *)
| Line (parsed : thrown + json)              (* a line reaches [processMessage] *)
| Elapse (dt : N).

Definition react (e : event) (st : client) : client :=
  match e with
  | Written h error => written h error st
  | Line parsed => processMessage parsed st
  | Elapse dt => elapse dt st
  end.

Inductive action :=
| Env (e : event)
| SendMessage (m : message)
| Close.

Definition step (a : action) (st : client) : client :=
  match a with
  | Env e => react e st
  | SendMessage m => sendMessage m st
  | Close => close st
  end.

Definition run (acts : list action) (st : client) : client :=
  fold_left (fun s a => step a s) acts st.

(** What happens in one turn of the event loop, one event after the other:
    the lines of the chunks that [handleResponse] is given, the callbacks
    that are run. The continuation of an [await] runs between two tasks,
    never inside one. *)
Definition task : Type := list event.

Definition perform (t : task) (st : client) : client :=
  fold_left (fun s e => react e s) t st.

(** Events that come each in a task of its own. *)
Definition alone (events : list event) : list task :=
  map (fun e => [e]) events.

(** ** [await], [initialize], [getAvailableTools], [connect] *)

(** The promise of invocation [h]. *)
Definition promise_of (h : nat) (st : client) : option promise :=
  call_promise <$> calls st !! h.


(** How far an [async] function got. *)
Inductive completion (A : Type) :=
| Returned (a : A)
| Threw (e : thrown)
| Awaiting.                     (* suspended at an [await], nothing more to come *)
Arguments Returned {A} a.
Arguments Threw {A} e.
Arguments Awaiting {A}.

(** [await] on the promise of invocation [h]: the client reacts to what
    happens, task after task, until a task leaves the promise settled; the
    tasks that have not run by then are handed back. *)
Fixpoint await (h : nat) (tasks : list task) (st : client)
  : client * list task * option (thrown + value) :=
  match promise_of h st with
  | Some (Fulfilled v) => (st, tasks, Some (inr v))
  | Some (Rejected e) => (st, tasks, Some (inl e))
  | _ =>
      match tasks with
      | [] => (st, [], None)
      | task :: rest => await h rest (perform task st)
      end
  end.

(** [await this.sendMessage(m)]. *)
Definition awaitSend (m : message) (tasks : list task) (st : client)
  : client * list task * option (thrown + value) :=
  await (length (calls st)) tasks (sendMessage m st).

Definition with_nextMessageId (id : Z) (st : client) : client :=
  mkClient (process st) (stdin st) (stdout st) (initialized st) (messageQueue st)
           id (serverCapabilities st) (serverVersion st)
           (availableTools st) (responseBuffer st) (calls st) (now st) (invoked st).

Definition with_child (c : child) (st : client) : client :=
  mkClient (Some c) (child_stdin c) (child_stdout c) (initialized st)
           (messageQueue st) (nextMessageId st) (serverCapabilities st)
           (serverVersion st) (availableTools st) (responseBuffer st)
           (calls st) (now st) (invoked st).

Definition with_server (capabilities version : value) (st : client) : client :=
  mkClient (process st) (stdin st) (stdout st) true (messageQueue st)
           (nextMessageId st) capabilities version
           (availableTools st) (responseBuffer st) (calls st) (now st) (invoked st).

Definition with_availableTools (names : list value) (st : client) : client :=
  mkClient (process st) (stdin st) (stdout st) (initialized st) (messageQueue st)
           (nextMessageId st) (serverCapabilities st) (serverVersion st)
           names (responseBuffer st) (calls st) (now st) (invoked st).

(** The messages of the handshake ([jsonrpc: 2.0] is left out of all). *)
Definition initMessage (id : Z) : message :=
  mkMessage "initialize"
    (Some (JObj [("protocolVersion", JStr "0.1.0");
                 ("capabilities",
                  JObj [("tools", JObj [("call", JBool true); ("list", JBool true)])]);
                 ("clientInfo",
                  JObj [("name", JStr "MCPLLMBridge"); ("version", JStr "1.0.0")])]))
    (Some id).

Definition initializedNotification : message :=
  mkMessage "notifications/initialized" None None.

Definition invalid_response : thrown :=
  Error "[MCP Client] Invalid initialization response from server".

Definition not_initialized : thrown :=
  Error "[MCP Client] Client not initialized".

(** [!response || typeof response.protocolVersion !== 'string'], negated. *)
Definition valid_handshake (response : value) : bool :=
  match response with
  | Some r =>
      truthy response &&
      match prop "protocolVersion" r with
      | Some (JStr _) => true
      | _ => false
      end
  | None => false
  end.

Definition initialize (tasks : list task) (st : client)
  : client * list task * completion unit :=
  if negb (stdin st) || negb (stdout st) then (st, tasks, Threw not_established)
  else
    let id := nextMessageId st in
    let st1 := with_nextMessageId (id + 1) st in
    match awaitSend (initMessage id) tasks st1 with
    | (st2, tasks2, None) => (st2, tasks2, Awaiting)
    | (st2, tasks2, Some (inl error)) => (st2, tasks2, Threw error)
    | (st2, tasks2, Some (inr response)) =>
        if negb (valid_handshake response) then (st2, tasks2, Threw invalid_response)
        else
          let of_response k := match response with
                               | Some r => prop k r
                               | None => None
                               end in
          let st3 := with_server (of_response "capabilities")
                                 (of_response "serverInfo") st2 in
          match awaitSend initializedNotification tasks2 st3 with
          | (st4, tasks4, None) => (st4, tasks4, Awaiting)
          | (st4, tasks4, Some (inl error)) => (st4, tasks4, Threw error)
          | (st4, tasks4, Some (inr _)) => (st4, tasks4, Returned tt)
          end
    end.

Definition toolsListMessage (id : Z) : message :=
  mkMessage "tools/list" (Some (JObj [])) (Some id).

(** [getAvailableTools()]; it returns [response.tools || []]. *)
Definition getAvailableTools (tasks : list task) (st : client)
  : client * list task * completion json :=
  if negb (initialized st) then (st, tasks, Threw not_initialized)
  else
    let id := nextMessageId st in
    let st1 := with_nextMessageId (id + 1) st in
    match awaitSend (toolsListMessage id) tasks st1 with
    | (st2, tasks2, None) => (st2, tasks2, Awaiting)
    | (st2, tasks2, Some (inl error)) => (st2, tasks2, Threw error)
    | (st2, tasks2, Some (inr response)) =>
        match response with
        | None =>
            (st2, tasks2,
             Threw (TypeError "Cannot read properties of undefined (reading 'tools')"))
        | Some JNull =>
            (st2, tasks2,
             Threw (TypeError "Cannot read properties of null (reading 'tools')"))
        | Some r =>
            (st2, tasks2,
             Returned (if truthy (prop "tools" r)
                       then match prop "tools" r with Some t => t | None => JArr [] end
                       else JArr []))
        end
    end.

(** [tools.map(tool => tool.name)], which throws on a [tools] that is no
    array and on a [null] in it. *)
Fixpoint tool_names (items : list json) : option (list value) :=
  match items with
  | [] => Some []
  | JNull :: _ => None
  | tool :: rest =>
      match tool_names rest with
      | Some names => Some (prop "name" tool :: names)
      | None => None
      end
  end.

(** [updateAvailableTools()]: whatever is thrown is logged. *)
Definition updateAvailableTools (tasks : list task) (st : client)
  : client * list task * completion unit :=
  match getAvailableTools tasks st with
  | (st1, tasks1, Awaiting) => (st1, tasks1, Awaiting)
  | (st1, tasks1, Threw _) => (st1, tasks1, Returned tt)
  | (st1, tasks1, Returned (JArr items)) =>
      match tool_names items with
      | Some names => (with_availableTools names st1, tasks1, Returned tt)
      | None => (st1, tasks1, Returned tt)
      end
  | (st1, tasks1, Returned _) => (st1, tasks1, Returned tt)
  end.

(** What [spawn(command, args, options)] does. *)
Inductive spawn_result :=
| SpawnThrows (e : thrown)
| Spawned (c : child).

(** [connect()]: the [catch] logs and throws the error again. *)
Definition connect (sp : spawn_result) (tasks : list task) (st : client)
  : client * list task * completion unit :=
  match sp with
  | SpawnThrows e => (st, tasks, Threw e)
  | Spawned c =>
      match initialize tasks (with_child c st) with
      | (st1, tasks1, Returned _) => updateAvailableTools tasks1 st1
      | failed_or_waiting => failed_or_waiting
      end
  end.

(** The fields that make the session of a client. *)
Definition session (st : client)
  : option child * bool * bool * bool * Z * value * value * list value :=
  (process st, stdin st, stdout st, initialized st, nextMessageId st,
   serverCapabilities st, serverVersion st, availableTools st).

(** ** One request among the others

    The request of invocation [h], sent with id [n]. *)

(** The queue entries that carry id [n]. *)
Definition has_id (n : Z) (m : pending) : bool :=
  same_id (msg_id (pending_message m)) (Some n).

(** Invocation [h] sent id [n], no other invocation did, and a queue entry
    with the closures of [h] carries that id. *)
Definition background (h : nat) (n : Z) (st : client) : Prop :=
  (exists c, calls st !! h = Some c /\ msg_id (call_message c) = Some n) /\
  (forall h' c', calls st !! h' = Some c' ->
                 msg_id (call_message c') = Some n -> h' = h) /\
  (forall pm, In pm (messageQueue st) -> pending_call pm = h ->
              msg_id (pending_message pm) = Some n).

(** Where the request stands: its promise, its timer, its queue entries. *)
Definition status (h : nat) (n : Z) (st : client)
  : option (promise * option N) * list pending :=
  ((fun c => (call_promise c, call_timer c)) <$> calls st !! h,
   List.filter (has_id n) (messageQueue st)).

(** Pending, timer set for [d], one entry in the queue. *)
Definition awaiting (h : nat) (n : Z) (d : N) (st : client) : Prop :=
  exists e, status h n st = (Some (Pending, Some d), [e]).

(** Rejected by its timer, timer gone, no entry in the queue. *)
Definition timed_out (h : nat) (n : Z) (st : client) : Prop :=
  status h n st = (Some (Rejected (timeout_error (Some n)), None), []).

(** An action that is no response to id [n], no failed write of invocation
    [h], and no second request with id [n]. *)
Definition quiet (h : nat) (n : Z) (a : action) : bool :=
  match a with
  | Env (Written h' (Some _)) => negb (h' =? h)
  | Env (Written _ None) => true
  | Env (Line (inr response)) =>
      match prop "id" response with
      | Some (JNum k) => negb (k =? n)%Z
      | _ => true
      end
  | Env (Line (inl _)) => true
  | Env (Elapse _) => true
  | SendMessage m => negb (same_id (msg_id m) (Some n))
  | Close => true
  end.

(** Id [n] was never sent by [st], and the queue of [st] refers to
    invocations that took place. *)
Definition unused (n : Z) (st : client) : Prop :=
  (forall c, In c (calls st) -> msg_id (call_message c) <> Some n) /\
  (forall pm, In pm (messageQueue st) ->
              msg_id (pending_message pm) <> Some n /\
              pending_call pm < length (calls st)).

(** A client whose child process has been spawned with both streams. *)
Definition spawned : client :=
  mkClient (Some (mkChild true true)) true true false [] 1 None None [] [] [] 0 [].

(** ** Responses and the queue *)

Lemma find_none_filter {A} (f : A -> bool) (q : list A) :
  List.find f (List.filter (fun m => negb (f m)) q) = None.
Proof.
  induction q as [|x q IH]; simpl; [done|].
  destruct (f x) eqn:Hx; simpl; [done|]. by rewrite Hx.
Qed.

Lemma find_the_one {A} (f : A -> bool) (q : list A) (x : A) :
  In x q -> f x = true ->
  (forall y, In y q -> f y = true -> y = x) ->
  List.find f q = Some x.
Proof.
  induction q as [|y q IH]; simpl; [done|].
  intros Hin Hx Huniq.
  destruct (f y) eqn:Hy.
  - f_equal. apply Huniq; auto.
  - destruct Hin as [->|Hin]; [congruence|].
    apply IH; auto.
Qed.

Lemma processMessage_no_entry parsed st :
  (forall response, parsed = inr response ->
     List.find (id_matches (prop "id" response)) (messageQueue st) = None) ->
  processMessage parsed st = st.
Proof.
  intros H. destruct parsed as [e|response]; [done|].
  specialize (H response eq_refl).
  destruct response; unfold processMessage, deliver; try done; by rewrite H.
Qed.

(** [response.error.message], for a response with these properties. *)
Definition error_message (props : list (string * json)) : value :=
  match assoc "error" props with
  | Some e => prop "message" e
  | None => None
  end.

(** X19: what the first response to a request with a live, unique id does.
    When it carries a truthy [error] whose [message] can be put in a string,
    or no truthy [error] and a [result], one continuation of that request is
    called, once, with an [Error] of that message or with the result, and the
    entry leaves the queue; a second response with that id then changes
    nothing. When the [message] of its [error] has no conversion to a string,
    the conversion throws inside the [try], the [catch] logs it, and the
    client is left as it was: no continuation is called and the entry stays
    in the queue. *)
Theorem processMessage_first_response st pm n props :
  In pm (messageQueue st) ->
  msg_id (pending_message pm) = Some n ->
  (forall pm', In pm' (messageQueue st) ->
               msg_id (pending_message pm') = Some n -> pm' = pm) ->
  assoc "id" props = Some (JNum n) ->
  let st' := processMessage (inr (JObj props)) st in
  let outcome :=
    if truthy (assoc "error" props)
    then Rejected (ErrorOf (error_message props))
    else Fulfilled (assoc "result" props) in
  (truthy (assoc "error" props) = true /\ speakable (error_message props) = true \/
   truthy (assoc "error" props) = false /\ is_Some (assoc "result" props) ->
   invoked st' = invoked st ++ [(pending_call pm, outcome)] /\
   messageQueue st' =
     List.filter (fun m => negb (id_matches (Some (JNum n)) m)) (messageQueue st) /\
   ~ In pm (messageQueue st') /\
   (forall props', assoc "id" props' = Some (JNum n) ->
      processMessage (inr (JObj props')) st' = st')) /\
  (truthy (assoc "error" props) = true ->
   speakable (error_message props) = false ->
   st' = st).
Proof.
  intros Hin Hid Huniq Hrid st' outcome.
  assert (Hmatch : forall m, id_matches (Some (JNum n)) m = true
                             <-> msg_id (pending_message m) = Some n).
  { intros m. unfold id_matches. destruct (msg_id (pending_message m)) as [k|].
    - rewrite Z.eqb_eq. split; congruence.
    - split; discriminate. }
  assert (Hfind : List.find (id_matches (Some (JNum n))) (messageQueue st) = Some pm).
  { apply find_the_one; auto.
    - by apply Hmatch.
    - intros y Hy Hm. apply Huniq; auto. by apply Hmatch. }
  split.
  - intros Hpayload.
    assert (Hst' : invoked st' = invoked st ++ [(pending_call pm, outcome)] /\
                   messageQueue st' =
                     List.filter (fun m => negb (id_matches (Some (JNum n)) m))
                                 (messageQueue st)).
    { subst st' outcome. unfold processMessage, deliver. simpl prop.
      rewrite Hrid, Hfind. fold (error_message props).
      destruct Hpayload as [[Herr Hsp]|[Herr [r Hr]]]; rewrite Herr.
      - rewrite Hsp. split; reflexivity.
      - rewrite Hr. split; reflexivity. }
    destruct Hst' as [Hinv Hq].
    split; [exact Hinv|]. split; [exact Hq|]. split.
    + rewrite Hq. intros [_ Hf]%filter_In.
      apply (proj2 (Hmatch pm)) in Hid. by rewrite Hid in Hf.
    + intros props' Hid'. apply processMessage_no_entry.
      intros response [= <-]. simpl. rewrite Hid', Hq.
      apply find_none_filter.
  - intros Herr Hsp. subst st'. unfold processMessage, deliver. simpl prop.
    rewrite Hrid, Hfind, Herr. fold (error_message props). by rewrite Hsp.
Qed.

(** A response whose id is that of no queue entry is dropped. *)
Theorem processMessage_unmatched_discarded st response :
  (forall m, In m (messageQueue st) -> id_matches (prop "id" response) m = false) ->
  processMessage (inr response) st = st.
Proof.
  intros H. apply processMessage_no_entry. intros r [= <-].
  induction (messageQueue st) as [|m q IH]; simpl; [done|].
  rewrite (H m) by (by left). apply IH. intros m' Hm'. apply H. by right.
Qed.

(** C4, at the response [{jsonrpc: 2.0, id: 1}] to the pending request 1: it
    has no [error] and no [result]; the size of the result is computed for the
    log before [resolve] is reached, that throws, and the [catch] ends the
    call: no continuation is called and the entry stays in the queue. With
    [result: null] in the response the request is resolved and dequeued. *)
Theorem processMessage_without_result :
  let request := mkMessage "tools/list" (Some (JObj [])) (Some 1%Z) in
  let st := sendMessage request spawned in
  let bare := JObj [("jsonrpc", JStr "2.0"); ("id", JNum 1)] in
  let full := JObj [("jsonrpc", JStr "2.0"); ("id", JNum 1); ("result", JNull)] in
  messageQueue st = [mkPending 0 request] /\
  processMessage (inr bare) st = st /\
  invoked (processMessage (inr bare) st) = [] /\
  messageQueue (processMessage (inr full) st) = [] /\
  invoked (processMessage (inr full) st) = [(0, Fulfilled (Some JNull))].
Proof. repeat split. Qed.

(** ** Steps that leave a request alone *)

(** A step from [st] to [st'] that keeps the standing of request [h]. *)
Definition frame (h : nat) (n : Z) (st st' : client) : Prop :=
  background h n st ->
  background h n st' /\ status h n st' = status h n st.

Lemma frame_refl h n st : frame h n st st.
Proof. by intros ?. Qed.

Lemma frame_trans h n st1 st2 st3 :
  frame h n st1 st2 -> frame h n st2 st3 -> frame h n st1 st3.
Proof.
  intros H12 H23 B1. destruct (H12 B1) as [B2 S2].
  destruct (H23 B2) as [B3 S3]. split; [done|]. by rewrite S3.
Qed.

(** Fields other than [calls] and [messageQueue] play no part. *)
Lemma frame_same h n st st' :
  calls st' = calls st -> messageQueue st' = messageQueue st -> frame h n st st'.
Proof.
  intros Hc Hq B. unfold background, status in *. rewrite Hc, Hq. done.
Qed.

(** A call record is rewritten: that of another invocation, or that of [h]
    with its promise and timer kept. *)
Lemma frame_alter h n f i st st' :
  calls st' = alter f i (calls st) ->
  messageQueue st' = messageQueue st ->
  (forall c, call_message (f c) = call_message c) ->
  (i = h -> forall c, call_promise (f c) = call_promise c /\
                      call_timer (f c) = call_timer c) ->
  frame h n st st'.
Proof.
  intros Hc Hq Hmsg Hh (B1 & B2 & B3).
  assert (Hlook : forall j c', calls st' !! j = Some c' ->
            exists c0, calls st !! j = Some c0 /\
                       call_message c' = call_message c0).
  { intros j c'. rewrite Hc, list_lookup_alter.
    case_decide as Hij.
    - subst j. destruct (calls st !! i) as [c0|]; simpl; [|done].
      intros [= <-]. eauto.
    - eauto. }
  split; [split; [|split]|].
  - destruct B1 as (c & Hl & Hid).
    rewrite Hc, list_lookup_alter. case_decide as Hij.
    + subst i. rewrite Hl. simpl. eexists; split; [done|]. by rewrite Hmsg.
    + eauto.
  - intros h' c' Hl Hid. destruct (Hlook _ _ Hl) as (c0 & Hl0 & Hm).
    apply (B2 h' c0 Hl0). by rewrite <- Hm.
  - rewrite Hq. exact B3.
  - unfold status. rewrite Hq. f_equal.
    rewrite Hc, list_lookup_alter. case_decide as Hij; [|done].
    subst i. destruct (calls st !! h) as [c0|]; simpl; [|done].
    destruct (Hh eq_refl c0) as [-> ->]. done.
Qed.

(** Entries leave the queue, none of them with id [n]. *)
Lemma frame_dequeue h n st st' :
  calls st' = calls st ->
  (forall pm, In pm (messageQueue st') -> In pm (messageQueue st)) ->
  List.filter (has_id n) (messageQueue st') = List.filter (has_id n) (messageQueue st) ->
  frame h n st st'.
Proof.
  intros Hc Hsub Hf (B1 & B2 & B3). unfold background, status.
  rewrite Hc, Hf. repeat split; auto.
Qed.

Lemma frame_settle h n i p st : i <> h -> frame h n st (settle i p st).
Proof.
  intros Hi. eapply (frame_alter h n (set_promise p) i); try done.
Qed.

Lemma frame_clearTimeout h n i st : i <> h -> frame h n st (clearTimeout i st).
Proof.
  intros Hi. eapply (frame_alter h n (set_timer None) i); try done.
Qed.

Lemma has_id_true n m : has_id n m = true <-> msg_id (pending_message m) = Some n.
Proof. unfold has_id, same_id. by rewrite bool_decide_eq_true. Qed.

Lemma has_id_matches n m : id_matches (Some (JNum n)) m = has_id n m.
Proof.
  unfold id_matches, has_id, same_id.
  destruct (msg_id (pending_message m)) as [k|].
  - destruct (Z.eqb_spec k n) as [->|Hne].
    + by rewrite bool_decide_eq_true_2.
    + rewrite bool_decide_eq_false_2; [done|congruence].
  - by rewrite bool_decide_eq_false_2.
Qed.

Lemma findIndex_Some id q i :
  findIndex id q = Some i ->
  exists e, q !! i = Some e /\ same_id (msg_id (pending_message e)) id = true.
Proof.
  revert i; induction q as [|m q IH]; intros i; simpl; [done|].
  destruct (same_id (msg_id (pending_message m)) id) eqn:Hm.
  - intros [= <-]. eauto.
  - destruct (findIndex id q) as [j|]; [|done].
    intros [= <-]. destruct (IH j eq_refl) as (e & ? & ?). eauto.
Qed.

Lemma findIndex_delete n q i :
  findIndex (Some n) q = Some i ->
  List.filter (has_id n) (delete i q) = tail (List.filter (has_id n) q).
Proof.
  revert i; induction q as [|m q IH]; intros i; simpl; [done|].
  fold (has_id n m). destruct (has_id n m) eqn:Hm.
  - intros [= <-]. done.
  - destruct (findIndex (Some n) q) as [j|]; [|done].
    intros [= <-]. simpl. rewrite Hm. by apply IH.
Qed.

Lemma findIndex_None n q :
  List.filter (has_id n) q = [] -> findIndex (Some n) q = None.
Proof.
  induction q as [|m q IH]; simpl; [done|].
  fold (has_id n m). destruct (has_id n m); [done|].
  intros H. by rewrite IH.
Qed.

Lemma findIndex_found n q e es :
  List.filter (has_id n) q = e :: es -> is_Some (findIndex (Some n) q).
Proof.
  induction q as [|m q IH]; simpl; [done|].
  fold (has_id n m). destruct (has_id n m); [by eexists|].
  intros H. destruct (IH H) as [j ->]. by eexists.
Qed.

Lemma filter_delete_other {A} (g : A -> bool) (q : list A) i e :
  q !! i = Some e -> g e = false ->
  List.filter g (delete i q) = List.filter g q.
Proof.
  revert i; induction q as [|m q IH]; intros [|i]; simpl; try done.
  - intros [= ->] ->. done.
  - intros Hl He. destruct (g m); [f_equal|]; by apply (IH i).
Qed.

Lemma In_delete {A} (q : list A) i x : In x (delete i q) -> In x q.
Proof.
  revert i; induction q as [|m q IH]; intros [|i]; simpl; auto.
  intros [->|H]; eauto.
Qed.

Lemma background_lt h n st : background h n st -> h < length (calls st).
Proof. intros ((c & Hl & _) & _). by apply lookup_lt_Some in Hl. Qed.

Lemma sendMessage_frame h n m st :
  same_id (msg_id m) (Some n) = false -> frame h n st (sendMessage m st).
Proof.
  intros Hm B. pose proof (background_lt _ _ _ B) as Hlt.
  destruct B as (B1 & B2 & B3).
  apply bool_decide_eq_false in Hm.
  assert (Hcalls : forall p t w st',
            calls st' = calls st ++ [mkCall m p t w] ->
            (messageQueue st' = messageQueue st \/
             messageQueue st' = messageQueue st ++ [mkPending (length (calls st)) m]) ->
            background h n st' /\ status h n st' = status h n st).
  { intros p t w st' Hc Hq. unfold background, status.
    rewrite Hc. rewrite (lookup_app_l (calls st)) by done.
    split; [split; [done|split]|].
    - intros h' c' [[? Hl]|[-> <-]]%lookup_snoc_Some; [eauto|].
      simpl. congruence.
    - intros pm Hin Hpc. destruct Hq as [Hq|Hq]; rewrite Hq in Hin; [eauto|].
      apply in_app_or in Hin as [Hin|[<-|[]]]; [eauto|]. simpl in Hpc. lia.
    - f_equal. destruct Hq as [Hq|Hq]; rewrite Hq; [done|].
      rewrite List.filter_app. simpl.
      replace (has_id n (mkPending (length (calls st)) m)) with false.
      + by rewrite app_nil_r.
      + symmetry. unfold has_id, same_id. simpl. by apply bool_decide_eq_false. }
  unfold sendMessage.
  destruct (negb (stdin st) || negb (stdout st)).
  - eapply Hcalls; [done|by left].
  - destruct (msg_id m); eapply Hcalls; simpl; auto.
Qed.

Lemma written_frame h n h' error st :
  (is_Some error -> h' <> h) -> frame h n st (written h' error st).
Proof.
  intros Hq B. unfold written.
  destruct (calls st !! h') as [c|] eqn:Hl; [|by apply frame_refl].
  destruct (call_writing c); [|by apply frame_refl].
  set (st1 := with_calls (alter (set_writing false) h' (calls st)) st).
  assert (F1 : frame h n st st1).
  { eapply (frame_alter h n (set_writing false) h'); done. }
  destruct error as [e|].
  - assert (h' <> h) by (apply Hq; by eexists).
    revert B. eapply frame_trans; [exact F1|].
    eapply frame_trans; [by apply frame_clearTimeout|by apply frame_settle].
  - destruct (msg_id (call_message c)) as [k|] eqn:Hid; [by apply F1|].
    assert (h' <> h).
    { intros ->. destruct B as ((c0 & Hl0 & Hid0) & _). congruence. }
    revert B. eapply frame_trans; [exact F1|].
    eapply frame_trans; [by apply frame_clearTimeout|by apply frame_settle].
Qed.

Lemma close_frame h n st : frame h n st (close st).
Proof. by apply frame_same. Qed.

Lemma filter_filter_keep {A} (f g : A -> bool) (q : list A) :
  (forall m, f m = true -> g m = true) ->
  List.filter f (List.filter g q) = List.filter f q.
Proof.
  intros H. induction q as [|m q IH]; simpl; [done|].
  destruct (g m) eqn:Hg; simpl.
  - by rewrite IH.
  - destruct (f m) eqn:Hf; [|done]. apply H in Hf. congruence.
Qed.

Lemma deliver_frame h n response st :
  prop "id" response <> Some (JNum n) -> frame h n st (deliver response st).
Proof.
  intros Hrid B. unfold deliver.
  destruct (List.find _ (messageQueue st)) as [pm|] eqn:Hfind;
    [|by apply frame_refl].
  apply find_some in Hfind as [Hin Hpm].
  assert (Hkeep : forall m, has_id n m = true ->
                            negb (id_matches (prop "id" response) m) = true).
  { intros m Hm. apply has_id_true in Hm. unfold id_matches. rewrite Hm.
    destruct (prop "id" response) as [[]|]; try done.
    apply negb_true_iff, Z.eqb_neq. congruence. }
  assert (Hcall : pending_call pm <> h).
  { intros Hc. destruct B as (_ & _ & B3).
    pose proof (B3 pm Hin Hc) as Hid. apply has_id_true, Hkeep in Hid.
    by rewrite Hpm in Hid. }
  assert (Hdone : forall st1, frame h n st st1 ->
            frame h n st (with_queue
              (List.filter (fun m => negb (id_matches (prop "id" response) m))
                           (messageQueue st)) st1)).
  { intros st1 F1 B0. destruct (F1 B0) as [B1 S1]. unfold background, status in *.
    simpl. destruct B1 as (B11 & B12 & B13).
    destruct B0 as (_ & _ & B03).
    split; [repeat split; try done|].
    - intros pm' [Hin' _]%filter_In. by apply B03.
    - rewrite filter_filter_keep by done.
      injection S1 as S1 _. by rewrite S1. }
  destruct (truthy (prop "error" response)).
  - destruct (speakable _); [|by apply frame_refl].
    revert B. apply Hdone. unfold pending_reject.
    eapply frame_trans; [by apply frame_clearTimeout|by apply frame_settle].
  - destruct (prop "result" response); [|by apply frame_refl].
    revert B. apply Hdone. unfold pending_resolve.
    eapply frame_trans; [by apply frame_clearTimeout|by apply frame_settle].
Qed.

Lemma processMessage_frame h n parsed st :
  quiet h n (Env (Line parsed)) = true -> frame h n st (processMessage parsed st).
Proof.
  intros Hq. destruct parsed as [e|response]; [by apply frame_refl|].
  assert (Hrid : prop "id" response <> Some (JNum n)).
  { simpl in Hq. intros E. rewrite E in Hq.
    apply negb_true_iff, Z.eqb_neq in Hq. done. }
  destruct response; try (by apply frame_refl); by apply deliver_frame.
Qed.

Lemma timer_fires_frame h n h' st :
  h' <> h -> frame h n st (timer_fires h' st).
Proof.
  intros Hne B. unfold timer_fires.
  destruct (calls st !! h') as [c|] eqn:Hl; [|by apply frame_refl].
  assert (F1 : frame h n st (clearTimeout h' st)) by (by apply frame_clearTimeout).
  destruct (findIndex _ _) as [index|] eqn:Hfi; [|by apply F1].
  revert B. eapply frame_trans; [exact F1|].
  eapply frame_trans; [|by apply frame_settle].
  apply findIndex_Some in Hfi as (e & He & Hid). simpl in He.
  intros B. apply frame_dequeue; try done.
  - simpl. intros pm. apply In_delete.
  - simpl. eapply filter_delete_other; [exact He|].
    apply not_true_is_false. intros Hn%has_id_true.
    apply bool_decide_eq_true in Hid.
    destruct B as (_ & B2 & _).
    apply Hne. apply (B2 h' (set_timer None c)).
    + simpl. rewrite list_lookup_alter_eq, Hl. done.
    + simpl. congruence.
Qed.

(** ** The timer of the request itself *)

Lemma status_promise h n st p t q :
  status h n st = (Some (p, t), q) ->
  exists c, calls st !! h = Some c /\ call_promise c = p /\ call_timer c = t /\
            List.filter (has_id n) (messageQueue st) = q.
Proof.
  unfold status. intros [= Hc Hq].
  destruct (calls st !! h) as [c|]; simpl in Hc; [|done].
  injection Hc as <- <-. eauto.
Qed.

Lemma timer_fires_own h n d st :
  background h n st -> awaiting h n d st ->
  background h n (timer_fires h st) /\ timed_out h n (timer_fires h st).
Proof.
  intros (B1 & B2 & B3) [e He].
  apply status_promise in He as (c & Hl & Hp & Ht & Hf).
  destruct B1 as (c0 & Hl0 & Hid). rewrite Hl in Hl0. injection Hl0 as <-.
  unfold timer_fires. rewrite Hl, Hid. simpl messageQueue.
  destruct (findIndex_found n (messageQueue st) e [] Hf) as [index Hfi].
  rewrite Hfi.
  set (st' := settle h _ _).
  assert (Hc' : calls st' !! h =
                Some (set_promise (Rejected (timeout_error (Some n)))
                                  (set_timer None c))).
  { subst st'. simpl. by rewrite !list_lookup_alter_eq, Hl. }
  assert (Hq' : messageQueue st' = delete index (messageQueue st)) by done.
  split.
  - split; [|split].
    + eexists; split; [exact Hc'|done].
    + intros h' c'. subst st'. simpl.
      rewrite !list_lookup_alter. case_decide as E; [done|]. apply B2.
    + rewrite Hq'. intros pm ?%In_delete. by apply B3.
  - unfold timed_out, status. rewrite Hc', Hq'. simpl. rewrite Hp.
    by rewrite (findIndex_delete _ _ _ Hfi), Hf.
Qed.

Lemma due_status h n t st :
  due t st h = match (status h n st).1 with
               | Some (_, Some d) => (d <=? t)%N
               | _ => false
               end.
Proof.
  unfold due, status. simpl. destruct (calls st !! h) as [c|]; simpl; [|done].
  by destruct (call_timer c).
Qed.

(** The loop of [elapse] over the invocations [hs]. *)
Definition fire_due (t : N) (hs : list nat) (st : client) : client :=
  fold_left (fun s h => if due t s h then timer_fires h s else s) hs st.

Lemma fire_due_quiet h n t hs st :
  background h n st -> due t st h = false ->
  background h n (fire_due t hs st) /\
  status h n (fire_due t hs st) = status h n st.
Proof.
  revert st. induction hs as [|h' hs IH]; intros st B Hdue; simpl; [done|].
  assert (F : frame h n st (if due t st h' then timer_fires h' st else st)).
  { destruct (decide (h' = h)) as [->|Hne].
    - rewrite Hdue. apply frame_refl.
    - destruct (due t st h'); [by apply timer_fires_frame|apply frame_refl]. }
  destruct (F B) as [B1 S1].
  destruct (IH _ B1) as [B2 S2].
  - by rewrite (due_status h n), S1, <- (due_status h n).
  - split; [done|]. by rewrite <- S1.
Qed.

Lemma fire_due_fires h n d t hs st :
  In h hs -> background h n st -> awaiting h n d st -> (d <= t)%N ->
  background h n (fire_due t hs st) /\ timed_out h n (fire_due t hs st).
Proof.
  revert st. induction hs as [|h' hs IH]; intros st Hin B Haw Hd; simpl; [done|].
  destruct (decide (h' = h)) as [->|Hne].
  - assert (Hdue : due t st h = true).
    { rewrite (due_status h n). destruct Haw as [e ->]. simpl.
      by apply N.leb_le. }
    rewrite Hdue.
    destruct (timer_fires_own h n d st B Haw) as [B1 T1].
    destruct (fire_due_quiet h n t hs _ B1) as [B2 S2].
    + rewrite (due_status h n), T1. done.
    + split; [done|]. unfold timed_out. by rewrite S2.
  - destruct Hin as [?|Hin]; [done|].
    assert (F : frame h n st (if due t st h' then timer_fires h' st else st)).
    { destruct (due t st h'); [by apply timer_fires_frame|apply frame_refl]. }
    destruct (F B) as [B1 S1].
    apply IH; try done.
    destruct Haw as [e He]. exists e. by rewrite S1.
Qed.

Lemma elapse_fire_due dt st :
  elapse dt st =
  with_now (now st + dt) (fire_due (now st + dt) (seq 0 (length (calls st))) st).
Proof. reflexivity. Qed.

Lemma now_fire_due t hs st : now (fire_due t hs st) = now st.
Proof.
  revert st; induction hs as [|h hs IH]; intros st; simpl; [done|].
  fold (fire_due t hs (if due t st h then timer_fires h st else st)).
  rewrite IH. destruct (due t st h); [|done].
  unfold timer_fires. destruct (calls st !! h); [|done].
  by destruct (findIndex _ _).
Qed.

(** ** A request from [sendMessage] to its timer *)

(** The request of invocation [h] with id [n] and deadline [d]: pending and
    queued before [d], rejected by its timer from [d] on. *)
Definition standing (h : nat) (n : Z) (d : N) (st : client) : Prop :=
  background h n st /\
  if (now st <? d)%N then awaiting h n d st else timed_out h n st.

Lemma frame_standing h n d st st' :
  frame h n st st' -> now st' = now st -> standing h n d st -> standing h n d st'.
Proof.
  intros F Hnow [B S]. destruct (F B) as [B' S'].
  split; [done|]. rewrite Hnow. unfold awaiting, timed_out in *.
  by rewrite S'.
Qed.

Lemma elapse_standing h n d dt st :
  standing h n d st -> standing h n d (elapse dt st).
Proof.
  intros [B S]. rewrite elapse_fire_due.
  set (t := (now st + dt)%N).
  pose proof (background_lt _ _ _ B) as Hlt.
  assert (Hin : In h (seq 0 (length (calls st)))) by (apply in_seq; lia).
  assert (G : forall s, background h n s /\
                 (if (t <? d)%N then awaiting h n d s else timed_out h n s) ->
                 standing h n d (with_now t s)).
  { intros s [Bs Ss]. split; [by apply (frame_same h n s)|]. simpl.
    unfold awaiting, timed_out in *.
    destruct (frame_same h n s (with_now t s) eq_refl eq_refl Bs) as [_ ->].
    done. }
  apply G.
  destruct (N.ltb_spec (now st) d) as [Hnd|Hnd].
  - destruct (N.ltb_spec t d) as [Htd|Htd].
    + destruct (fire_due_quiet h n t (seq 0 (length (calls st))) st B) as [B' S'].
      * rewrite (due_status h n). destruct S as [e ->]. simpl.
        apply N.leb_gt. done.
      * split; [done|]. destruct S as [e He]. exists e. by rewrite S'.
    + by apply (fire_due_fires h n d).
  - assert (Htd : (d <= t)%N) by (subst t; lia).
    destruct (N.ltb_spec t d) as [?|_]; [lia|].
    destruct (fire_due_quiet h n t (seq 0 (length (calls st))) st B) as [B' S'].
    + rewrite (due_status h n), S. done.
    + split; [done|]. unfold timed_out. by rewrite S'.
Qed.

Lemma now_processMessage parsed st : now (processMessage parsed st) = now st.
Proof.
  assert (H : forall response, now (deliver response st) = now st).
  { intros response. unfold deliver.
    destruct (List.find _ _); [|done].
    destruct (truthy _); [by destruct (speakable _)|].
    by destruct (prop "result" response). }
  destruct parsed as [e|response]; [done|].
  destruct response; try done; apply H.
Qed.

Lemma step_standing h n d a st :
  quiet h n a = true -> standing h n d st -> standing h n d (step a st).
Proof.
  intros Hq. destruct a as [[h' error|parsed|dt]|m|]; simpl step.
  - apply frame_standing; [|unfold written].
    + apply written_frame. intros [e ->]. simpl in Hq.
      apply negb_true_iff, Nat.eqb_neq in Hq. done.
    + destruct (calls st !! h') as [c|]; [|done].
      destruct (call_writing c); [|done].
      destruct error; [done|]. by destruct (msg_id (call_message c)).
  - apply frame_standing; [by apply processMessage_frame|].
    apply now_processMessage.
  - apply elapse_standing.
  - apply frame_standing.
    + apply sendMessage_frame. simpl in Hq. by apply negb_true_iff.
    + unfold sendMessage. destruct (negb (stdin st) || negb (stdout st)); [done|].
      by destruct (msg_id m).
  - apply frame_standing; [apply close_frame|done].
Qed.

Lemma run_standing h n d acts st :
  forallb (quiet h n) acts = true ->
  standing h n d st -> standing h n d (run acts st).
Proof.
  revert st. induction acts as [|a acts IH]; intros st Hq Hs; simpl; [done|].
  apply andb_prop in Hq as [Ha Hacts].
  apply IH; [done|]. by apply step_standing.
Qed.

Lemma sendMessage_standing n m st :
  stdin st = true -> stdout st = true -> msg_id m = Some n -> unused n st ->
  standing (length (calls st)) n (now st + TIMEOUT) (sendMessage m st).
Proof.
  intros Hin Hout Hid [Hcalls Hqueue].
  unfold sendMessage. rewrite Hin, Hout, Hid. simpl.
  assert (Hf : List.filter (has_id n) (messageQueue st) = []).
  { induction (messageQueue st) as [|pm q IH]; simpl; [done|].
    destruct (has_id n pm) eqn:E.
    - apply has_id_true in E. destruct (Hqueue pm) as [? _]; [by left|done].
    - apply IH. intros pm' ?. apply Hqueue. by right. }
  split.
  - split; [|split]; simpl.
    + eexists. split; [apply list_lookup_middle; done|done].
    + intros h' c' [[? Hl]|[-> <-]]%lookup_snoc_Some; [|done].
      intros E. exfalso. eapply Hcalls; [|exact E].
      apply list_elem_of_In, list_elem_of_lookup. eauto.
    + intros pm [Hpm|[<-|[]]]%in_app_or Hc; [|done].
      destruct (Hqueue pm Hpm) as [_ ?]. lia.
  - simpl.
    replace (now st <? now st + TIMEOUT)%N with true
      by (symmetry; apply N.ltb_lt; unfold TIMEOUT; lia).
    unfold awaiting. exists (mkPending (length (calls st)) m). unfold status. simpl.
    rewrite list_lookup_middle by done. simpl. f_equal.
    rewrite List.filter_app, Hf. simpl.
    replace (has_id n (mkPending (length (calls st)) m)) with true; [done|].
    symmetry. by apply has_id_true.
Qed.

Lemma standing_before h n d st :
  standing h n d st -> (now st < d)%N ->
  promise_of h st = Some Pending /\
  exists pm, In pm (messageQueue st) /\ msg_id (pending_message pm) = Some n.
Proof.
  intros [_ S] Hlt. apply N.ltb_lt in Hlt. rewrite Hlt in S.
  destruct S as [e He]. apply status_promise in He as (c & Hl & Hp & _ & Hf).
  split; [unfold promise_of; by rewrite Hl, <- Hp|].
  exists e. rewrite <- has_id_true.
  apply (filter_In (has_id n) e (messageQueue st)). rewrite Hf. by left.
Qed.

Lemma standing_after h n d st :
  standing h n d st -> (d <= now st)%N ->
  promise_of h st = Some (Rejected (timeout_error (Some n))) /\
  (forall pm, In pm (messageQueue st) -> msg_id (pending_message pm) <> Some n) /\
  (forall response, prop "id" response = Some (JNum n) ->
     processMessage (inr response) st = st).
Proof.
  intros [_ S] Hle. apply N.ltb_ge in Hle. rewrite Hle in S.
  apply status_promise in S as (c & Hl & Hp & _ & Hf).
  assert (Hnone : forall pm, In pm (messageQueue st) -> has_id n pm = false).
  { intros pm Hin. apply not_true_is_false. intros E.
    assert (Hin' : In pm (List.filter (has_id n) (messageQueue st)))
      by (by apply filter_In).
    by rewrite Hf in Hin'. }
  split; [unfold promise_of; by rewrite Hl, <- Hp|]. split.
  - intros pm Hin E%has_id_true. by rewrite Hnone in E.
  - intros response Hid. apply processMessage_unmatched_discarded.
    intros m Hin. rewrite Hid, has_id_matches. by apply Hnone.
Qed.

(** A [tools/list] request with id 1. *)
Definition tools_list : message := mkMessage "tools/list" (Some (JObj [])) (Some 1%Z).

(** The write of a request fails: the callback of [stdin.write] clears the
    timer and rejects with the write error. *)
Definition broken_pipe : thrown := Error "write EPIPE".

(** C5, as stated, at the request 1 whose write fails and to which no
    response comes: after 30 000 ms its promise is rejected with the write
    error, not with the timeout error, and its entry is in the queue. *)
Lemma failed_write_is_no_timeout :
  let st := run [Env (Written 0 (Some broken_pipe)); Env (Elapse 30000)]
                (sendMessage tools_list spawned) in
  now st = 30000%N /\
  promise_of 0 st = Some (Rejected broken_pipe) /\
  promise_of 0 st <> Some (Rejected (timeout_error (Some 1%Z))) /\
  messageQueue st = [mkPending 0 tools_list].
Proof. vm_compute. repeat split; discriminate. Qed.

(** C5, amended: a request sent with an id [n] that no other request uses,
    whose write does not fail and to which no response with id [n] comes,
    stays pending and queued for 30 000 ms, whatever else happens to the
    client; once 30 000 ms have passed its entry is out of the queue and its
    promise is rejected with the timeout error, and a response with id [n]
    that comes after that leaves the client as it is. *)
Theorem request_times_out st m n acts :
  stdin st = true -> stdout st = true ->
  msg_id m = Some n -> unused n st ->
  forallb (quiet (length (calls st)) n) acts = true ->
  let h := length (calls st) in
  let deadline := (now st + TIMEOUT)%N in
  let st' := run acts (sendMessage m st) in
  ((now st' < deadline)%N ->
     promise_of h st' = Some Pending /\
     exists pm, In pm (messageQueue st') /\ msg_id (pending_message pm) = Some n) /\
  ((deadline <= now st')%N ->
     promise_of h st' = Some (Rejected (timeout_error (Some n))) /\
     (forall pm, In pm (messageQueue st') ->
                 msg_id (pending_message pm) <> Some n) /\
     (forall response, prop "id" response = Some (JNum n) ->
        processMessage (inr response) st' = st')).
Proof.
  intros Hin Hout Hid Hfresh Hquiet h deadline st'.
  assert (S : standing h n deadline st').
  { apply run_standing; [done|]. by apply sendMessage_standing. }
  split; intros Hnow.
  - by apply (standing_before h n deadline).
  - by apply (standing_after h n deadline).
Qed.

(** The write succeeds; 29 999 ms pass, the child is heard from on another
    matter, and one more ms passes. *)
Lemma request_times_out_witness :
  let acts := [Env (Written 0 None); Env (Elapse 29999);
               Env (Line (inr (JObj [("id", JNum 7); ("result", JNull)])));
               Env (Elapse 1)] in
  promise_of 0 (run acts (sendMessage tools_list spawned))
  = Some (Rejected (timeout_error (Some 1%Z))).
Proof.
  intros acts.
  refine (proj1 (proj2 (request_times_out spawned tools_list 1%Z acts
                          eq_refl eq_refl eq_refl _ eq_refl) _)).
  - split; intros ? [].
  - vm_compute. discriminate.
Defined.

(** C9, as stated, at the request 1 pending when [close()] is called, with
    its response still to come from the child's output: the listener that
    [connect] put on the stream is not taken off by [close], the line reaches
    [processMessage], and the request is resolved with the result at time 0,
    by no timer and with no timeout error. Likewise when its write is still
    under way and fails after [close()]: it is rejected with the write
    error. *)
Lemma response_after_close :
  let late := JObj [("jsonrpc", JStr "2.0"); ("id", JNum 1); ("result", JObj [])] in
  let st := run [Env (Written 0 None); Close; Env (Line (inr late))]
                (sendMessage tools_list spawned) in
  let st' := run [Close; Env (Written 0 (Some broken_pipe))]
                 (sendMessage tools_list spawned) in
  (now st = 0%N /\
   promise_of 0 st = Some (Fulfilled (Some (JObj []))) /\
   invoked st = [(0, Fulfilled (Some (JObj [])))] /\
   messageQueue st = []) /\
  (now st' = 0%N /\
   promise_of 0 st' = Some (Rejected broken_pipe) /\
   invoked st' = [(0, Rejected broken_pipe)]).
Proof. vm_compute. repeat split. Qed.

(** C9, amended: [close()] called while a request is pending leaves the
    queue, the promises with their timers, and the record of continuations
    called as they are: the request is still pending and queued after it.
    From there on, as long as no response with its id comes and its write
    does not fail, it stays pending until its own timer is due, 30 000 ms
    after it was sent, and is then rejected with the timeout error. *)
Theorem close_leaves_requests_pending st m n acts1 acts2 :
  stdin st = true -> stdout st = true ->
  msg_id m = Some n -> unused n st ->
  forallb (quiet (length (calls st)) n) acts1 = true ->
  forallb (quiet (length (calls st)) n) acts2 = true ->
  let h := length (calls st) in
  let deadline := (now st + TIMEOUT)%N in
  let st1 := run acts1 (sendMessage m st) in
  let st2 := close st1 in
  let st3 := run acts2 st2 in
  (now st1 < deadline)%N ->
  (messageQueue st2 = messageQueue st1 /\ calls st2 = calls st1 /\
   invoked st2 = invoked st1) /\
  (promise_of h st2 = Some Pending /\
   exists pm, In pm (messageQueue st2) /\ msg_id (pending_message pm) = Some n) /\
  ((now st3 < deadline)%N -> promise_of h st3 = Some Pending) /\
  ((deadline <= now st3)%N ->
     promise_of h st3 = Some (Rejected (timeout_error (Some n)))).
Proof.
  intros Hin Hout Hid Hfresh Hq1 Hq2 h deadline st1 st2 st3 Hnow.
  assert (S1 : standing h n deadline st1).
  { apply run_standing; [done|]. by apply sendMessage_standing. }
  assert (S2 : standing h n deadline st2).
  { apply (step_standing h n deadline Close); done. }
  assert (S3 : standing h n deadline st3) by (by apply run_standing).
  split; [done|]. split; [by apply (standing_before h n deadline)|].
  split; intros Hnow3.
  - by apply (standing_before h n deadline).
  - by apply (standing_after h n deadline).
Qed.

Lemma close_leaves_requests_pending_witness :
  let before := [Env (Written 0 None); Env (Elapse 5000)] in
  let after := [Env (Elapse 24999); SendMessage (mkMessage "tools/list" None (Some 2%Z));
                Env (Elapse 1)] in
  promise_of 0 (close (run before (sendMessage tools_list spawned))) = Some Pending /\
  promise_of 0 (run after (close (run before (sendMessage tools_list spawned))))
  = Some (Rejected (timeout_error (Some 1%Z))).
Proof.
  intros before after.
  assert (U : unused 1 spawned) by (split; intros ? []).
  pose proof (close_leaves_requests_pending spawned tools_list 1%Z before after
                eq_refl eq_refl eq_refl U eq_refl eq_refl) as H.
  cbv zeta in H.
  destruct H as (_ & [Hp _] & _ & Ht); [vm_compute; reflexivity|].
  split; [exact Hp|]. apply Ht. vm_compute. discriminate.
Defined.

(** ** The session through a handshake *)

Lemma session_sendMessage m st : session (sendMessage m st) = session st.
Proof.
  unfold sendMessage. destruct (negb (stdin st) || negb (stdout st)); [done|].
  by destruct (msg_id m).
Qed.

Lemma session_written h error st : session (written h error st) = session st.
Proof.
  unfold written. destruct (calls st !! h) as [c|]; [|done].
  destruct (call_writing c); [|done].
  destruct error; [done|]. by destruct (msg_id (call_message c)).
Qed.

Lemma session_processMessage parsed st :
  session (processMessage parsed st) = session st.
Proof.
  assert (H : forall response, session (deliver response st) = session st).
  { intros response. unfold deliver.
    destruct (List.find _ _); [|done].
    destruct (truthy _); [by destruct (speakable _)|].
    by destruct (prop "result" response). }
  destruct parsed as [e|response]; [done|].
  destruct response; try done; apply H.
Qed.

Lemma session_timer_fires h st : session (timer_fires h st) = session st.
Proof.
  unfold timer_fires. destruct (calls st !! h); [|done].
  by destruct (findIndex _ _).
Qed.

Lemma session_elapse dt st : session (elapse dt st) = session st.
Proof.
  rewrite elapse_fire_due.
  transitivity (session (fire_due (now st + dt) (seq 0 (length (calls st))) st));
    [done|].
  generalize (seq 0 (length (calls st))) as hs.
  generalize (now st + dt)%N as t.
  intros t hs. revert st. induction hs as [|h hs IH]; intros st; simpl; [done|].
  fold (fire_due t hs (if due t st h then timer_fires h st else st)).
  rewrite IH. destruct (due t st h); [apply session_timer_fires|done].
Qed.

Lemma session_react e st : session (react e st) = session st.
Proof.
  destruct e; simpl;
    auto using session_written, session_processMessage, session_elapse.
Qed.

Lemma session_perform t st : session (perform t st) = session st.
Proof.
  unfold perform. revert st. induction t as [|e t IH]; intros st; simpl; [done|].
  by rewrite IH, session_react.
Qed.

Lemma session_await h tasks st st' tasks' settled :
  await h tasks st = (st', tasks', settled) -> session st' = session st.
Proof.
  revert st. induction tasks as [|t tasks IH]; intros st; simpl.
  - destruct (promise_of h st) as [[]|]; by intros [= <- _ _].
  - destruct (promise_of h st) as [[]|]; try (by intros [= <- _ _]);
      intros H%IH; by rewrite H, session_perform.
Qed.

Lemma session_awaitSend m tasks st st' tasks' settled :
  awaitSend m tasks st = (st', tasks', settled) -> session st' = session st.
Proof.
  unfold awaitSend. intros H%session_await. by rewrite H, session_sendMessage.
Qed.

Lemma session_fields st st' :
  session st' = session st ->
  process st' = process st /\ stdin st' = stdin st /\ stdout st' = stdout st /\
  initialized st' = initialized st /\ nextMessageId st' = nextMessageId st /\
  serverCapabilities st' = serverCapabilities st /\
  serverVersion st' = serverVersion st /\ availableTools st' = availableTools st.
Proof. unfold session. intros [= -> -> -> -> -> -> -> ->]. done. Qed.

Lemma updateAvailableTools_returns tasks st st' tasks' e :
  updateAvailableTools tasks st <> (st', tasks', Threw e).
Proof.
  unfold updateAvailableTools.
  destruct (getAvailableTools tasks st) as [[st1 tasks1] [tools| |]];
    try done.
  destruct tools; try done. by destruct (tool_names items).
Qed.

(** The handshake of a fresh client whose child answers the [initialize]
    request 1 with the result [{}]. *)
Definition empty_handshake : list task :=
  alone
    [Written 0 None;
     Line (inr (JObj [("jsonrpc", JStr "2.0"); ("id", JNum 1); ("result", JObj [])]))].

(** The handshake of a fresh client whose child answers the [initialize]
    request 1 as it should, after which the write of the acknowledgement
    fails. *)
Definition unacknowledged_handshake : list task :=
  alone
    [Written 0 None;
     Line (inr (JObj [("jsonrpc", JStr "2.0"); ("id", JNum 1);
                      ("result", JObj [("protocolVersion", JStr "0.1.0");
                                       ("capabilities", JObj [])])]));
     Written 1 (Some broken_pipe)].

(** C8, as stated, at these two handshakes. At the first, [connect] throws
    before [initialized] is set, and the client keeps the child process,
    both its streams and the message id it used: its session is not the one
    it had before. At the second, the step that fails is the
    acknowledgement: [connect] throws the write error, and the client is left
    initialized, with the capabilities of the server. *)
Lemma connect_failure_keeps_child :
  (let '(st', _, outcome) :=
     connect (Spawned (mkChild true true)) empty_handshake fresh in
   outcome = Threw invalid_response /\
   initialized st' = false /\
   process st' = Some (mkChild true true) /\
   stdin st' = true /\ stdout st' = true /\
   nextMessageId st' = 2%Z /\
   session st' <> session fresh) /\
  (let '(st', _, outcome) :=
     connect (Spawned (mkChild true true)) unacknowledged_handshake fresh in
   outcome = Threw broken_pipe /\
   initialized st' = true /\
   serverCapabilities st' = Some (JObj []) /\
   process st' = Some (mkChild true true) /\
   session st' <> session fresh).
Proof. vm_compute. repeat split; discriminate. Qed.

(** C8, amended. A step of [connect] that fails makes [connect] throw the
    error of that step: what [spawn] threw, the missing stream, what the
    [initialize] request was rejected with, the invalid-response error for
    a result without a string [protocolVersion], what the acknowledgement
    was rejected with. Up to the handshake request the [initialized] flag,
    [serverCapabilities], [serverVersion] and [availableTools] are left as
    they were; a failing acknowledgement, which is sent after the flag is
    set, leaves the client initialized with what the server answered. A
    child that was spawned is kept with its streams in every case. *)
Theorem connect_failure c tasks st :
  let n := nextMessageId st in
  let st1 := with_nextMessageId (n + 1) (with_child c st) in
  (forall e, connect (SpawnThrows e) tasks st = (st, tasks, Threw e)) /\
  (child_stdin c = false \/ child_stdout c = false ->
   connect (Spawned c) tasks st = (with_child c st, tasks, Threw not_established)) /\
  (child_stdin c = true -> child_stdout c = true ->
   forall st2 tasks2 settled,
     awaitSend (initMessage n) tasks st1 = (st2, tasks2, Some settled) ->
     session st2 = session st1 /\
     match settled with
     | inl e => connect (Spawned c) tasks st = (st2, tasks2, Threw e)
     | inr response =>
         (valid_handshake response = false ->
          connect (Spawned c) tasks st = (st2, tasks2, Threw invalid_response)) /\
         (valid_handshake response = true ->
          forall st4 tasks4 e,
            awaitSend initializedNotification tasks2
              (with_server (response ≫= prop "capabilities")
                           (response ≫= prop "serverInfo") st2)
              = (st4, tasks4, Some (inl e)) ->
            connect (Spawned c) tasks st = (st4, tasks4, Threw e) /\
            session st4 =
              session (with_server (response ≫= prop "capabilities")
                                   (response ≫= prop "serverInfo") st1))
     end) /\
  (forall st' tasks' e,
     connect (Spawned c) tasks st = (st', tasks', Threw e) ->
     process st' = Some c /\ stdin st' = child_stdin c /\
     stdout st' = child_stdout c).
Proof.
  intros n st1. split; [done|]. split; [|split].
  - intros Hmissing. unfold connect, initialize. simpl stdin. simpl stdout.
    by destruct Hmissing as [-> | ->]; [|destruct (child_stdin c)].
  - intros Hin Hout st2 tasks2 settled Ha.
    pose proof (session_awaitSend _ _ _ _ _ _ Ha) as Hs2.
    split; [done|].
    assert (Hinit : initialize tasks (with_child c st) =
              match settled with
              | inl e => (st2, tasks2, Threw e)
              | inr response =>
                  if negb (valid_handshake response)
                  then (st2, tasks2, Threw invalid_response)
                  else
                    match awaitSend initializedNotification tasks2
                            (with_server (response ≫= prop "capabilities")
                                         (response ≫= prop "serverInfo") st2) with
                    | (st4, tasks4, None) => (st4, tasks4, Awaiting)
                    | (st4, tasks4, Some (inl error)) => (st4, tasks4, Threw error)
                    | (st4, tasks4, Some (inr _)) => (st4, tasks4, Returned tt)
                    end
              end).
    { unfold initialize. simpl stdin. simpl stdout. rewrite Hin, Hout.
      cbn [negb orb]. cbv zeta. simpl nextMessageId. fold n. fold st1.
      rewrite Ha. destruct settled as [e|response]; [done|].
      destruct (negb (valid_handshake response)); [done|].
      by destruct response. }
    destruct settled as [e|response].
    + unfold connect. by rewrite Hinit.
    + split.
      * intros Hv. unfold connect. by rewrite Hinit, Hv.
      * intros Hv st4 tasks4 e Hb. split.
        -- unfold connect. by rewrite Hinit, Hv, Hb.
        -- apply session_awaitSend in Hb. rewrite Hb.
           apply session_fields in Hs2 as (Hp & Hi & Ho & _ & Hn & _ & _ & Ht).
           unfold session. cbn [process stdin stdout initialized nextMessageId
                                serverCapabilities serverVersion availableTools
                                with_server].
           by rewrite Hp, Hi, Ho, Hn, Ht.
  - intros st' tasks' e. unfold connect, initialize.
    simpl stdin. simpl stdout.
    destruct (negb (child_stdin c) || negb (child_stdout c)).
    { by intros [= <- _ _]. }
    cbv zeta. simpl nextMessageId. fold n. fold st1.
    destruct (awaitSend (initMessage n) tasks st1)
      as [[st2 tasks2] [[error|response]|]] eqn:Ha; [| |done].
    + intros [= <- _ _]. apply session_awaitSend in Ha.
      by apply session_fields in Ha as (-> & -> & -> & _).
    + pose proof (session_awaitSend _ _ _ _ _ _ Ha) as Hs2.
      apply session_fields in Hs2 as (Hp & Hi & Ho & _).
      destruct (negb (valid_handshake response)).
      { intros [= <- _ _]. by rewrite Hp, Hi, Ho. }
      destruct (awaitSend initializedNotification _ _)
        as [[st4 tasks4] [[error|v]|]] eqn:Hb; [| |done].
      * intros [= <- _ _]. apply session_awaitSend in Hb.
        apply session_fields in Hb as (-> & -> & -> & _). simpl.
        by rewrite Hp, Hi, Ho.
      * intros H. by apply updateAvailableTools_returns in H.
Qed.

Lemma connect_failure_witness :
  let c := mkChild true true in
  (exists st2 tasks2,
     connect (Spawned c) empty_handshake fresh = (st2, tasks2, Threw invalid_response) /\
     initialized st2 = false /\ process st2 = Some c) /\
  (exists st4 tasks4,
     connect (Spawned c) unacknowledged_handshake fresh
       = (st4, tasks4, Threw broken_pipe) /\
     initialized st4 = true /\ process st4 = Some c).
Proof.
  intros c. split.
  - destruct (connect_failure c empty_handshake fresh) as (_ & _ & H & Hkept).
    eassert (Ha : awaitSend (initMessage 1) empty_handshake
                    (with_nextMessageId 2 (with_child c fresh)) = (_, _, Some (inr _))).
    { vm_compute. reflexivity. }
    destruct (H eq_refl eq_refl _ _ _ Ha) as (Hs & Hinvalid & _).
    eexists _, _. split; [apply Hinvalid; reflexivity|].
    apply session_fields in Hs as (_ & _ & _ & -> & _).
    split; [reflexivity|].
    by destruct (Hkept _ _ _ (Hinvalid eq_refl)) as (-> & _).
  - destruct (connect_failure c unacknowledged_handshake fresh) as (_ & _ & H & Hkept).
    eassert (Ha : awaitSend (initMessage 1) unacknowledged_handshake
                    (with_nextMessageId 2 (with_child c fresh)) = (_, _, Some (inr _))).
    { vm_compute. reflexivity. }
    destruct (H eq_refl eq_refl _ _ _ Ha) as (_ & _ & Hack).
    eassert (Hb : awaitSend initializedNotification _ _ = (_, _, Some (inl broken_pipe))).
    2:{ destruct (Hack eq_refl _ _ _ Hb) as (Hthrew & Hs).
        eexists _, _. split; [exact Hthrew|].
        apply session_fields in Hs as (_ & _ & _ & -> & _).
        split; [reflexivity|].
        by destruct (Hkept _ _ _ Hthrew) as (-> & _). }
    vm_compute. reflexivity.
Defined.

(* ===================================================================== *)
(** ** [callTool], and the ids of a client in use                         *)
(* ===================================================================== *)

Definition toolsCallMessage (toolName : string) (toolArgs : json) (id : Z)
  : message :=
  mkMessage "tools/call"
    (Some (JObj [("name", JStr toolName); ("arguments", toolArgs)])) (Some id).

(** [this.availableTools.has(toolName)]. *)
Definition known (toolName : string) (st : client) : bool :=
  existsb (fun name => match name with
                       | Some (JStr s) => String.eqb s toolName
                       | _ => false
                       end) (availableTools st).

(** Does [Array.from(this.availableTools).join(', ')] return? It puts
    every name in a string. *)
Definition joinable (names : list value) : bool := forallb speakable names.

(** [callTool(toolName, toolArgs)]. For a name that is not in
    [availableTools] the names in it are joined for the log, before the
    [try]; the call is sent all the same when that log line can be
    written. *)
Definition callTool (toolName : string) (toolArgs : json)
  (tasks : list task) (st : client)
  : client * list task * completion value :=
  if negb (initialized st) then (st, tasks, Threw not_initialized)
  else if negb (known toolName st) && negb (joinable (availableTools st))
  then (st, tasks, Threw cannot_convert)
  else
    let id := nextMessageId st in
    let st1 := with_nextMessageId (id + 1) st in
    match awaitSend (toolsCallMessage toolName toolArgs id) tasks st1 with
    | (st2, tasks2, None) => (st2, tasks2, Awaiting)
    | (st2, tasks2, Some (inl error)) => (st2, tasks2, Threw error)
    | (st2, tasks2, Some (inr response)) => (st2, tasks2, Returned response)
    end.

(** The messages given to [sendMessage] so far, oldest first. *)
Definition sent (st : client) : list message := map call_message (calls st).

(** Every id sent so far is below [nextMessageId], and every queue entry is
    a request, queued under the invocation that sent it. *)
Definition tidy (st : client) : Prop :=
  (forall m n, In m (sent st) -> msg_id m = Some n -> (n < nextMessageId st)%Z) /\
  (forall pm, In pm (messageQueue st) ->
     is_Some (msg_id (pending_message pm)) /\
     sent st !! pending_call pm = Some (pending_message pm)).

(** A step that sends nothing: ids are not handed back, the messages sent
    are the same, and the queue gets no entry. *)
Definition keeps (st st' : client) : Prop :=
  (nextMessageId st <= nextMessageId st')%Z /\
  sent st' = sent st /\
  (forall pm, In pm (messageQueue st') -> In pm (messageQueue st)).

Lemma keeps_refl st : keeps st st.
Proof. split; [lia|split; [done|auto]]. Qed.

Lemma keeps_trans st1 st2 st3 : keeps st1 st2 -> keeps st2 st3 -> keeps st1 st3.
Proof.
  intros (H1 & H2 & H3) (H4 & H5 & H6). split; [lia|split].
  - by rewrite H5.
  - auto.
Qed.

Lemma tidy_keeps st st' : tidy st -> keeps st st' -> tidy st'.
Proof.
  intros [T1 T2] (Hn & Hs & Hq). split.
  - intros m n Hm Hid. rewrite Hs in Hm. specialize (T1 m n Hm Hid). lia.
  - intros pm Hpm. rewrite Hs. apply T2. auto.
Qed.

Lemma sent_alter f i (l : list call) :
  (forall c, call_message (f c) = call_message c) ->
  map call_message (alter f i l) = map call_message l.
Proof.
  intros Hf. revert i. induction l as [|c l IH]; intros [|i]; simpl; [done..| |].
  - by rewrite Hf.
  - f_equal. apply IH.
Qed.

Lemma keeps_settle h p st : keeps st (settle h p st).
Proof.
  split; [simpl; lia|split; [|auto]].
  unfold sent. simpl. by apply sent_alter.
Qed.

Lemma keeps_clearTimeout h st : keeps st (clearTimeout h st).
Proof.
  split; [simpl; lia|split; [|auto]].
  unfold sent. simpl. by apply sent_alter.
Qed.

Lemma keeps_dequeue q st :
  (forall pm, In pm q -> In pm (messageQueue st)) -> keeps st (with_queue q st).
Proof. intros Hq. split; [simpl; lia|split; [done|exact Hq]]. Qed.

Lemma keeps_written h error st : keeps st (written h error st).
Proof.
  unfold written. destruct (calls st !! h) as [c|]; [|apply keeps_refl].
  destruct (call_writing c); [|apply keeps_refl].
  set (st1 := with_calls _ st).
  assert (K1 : keeps st st1).
  { split; [simpl; lia|split; [|auto]]. unfold sent. simpl. by apply sent_alter. }
  destruct error as [e|].
  - eapply keeps_trans; [exact K1|].
    eapply keeps_trans; [apply keeps_clearTimeout|apply keeps_settle].
  - destruct (msg_id (call_message c)); [exact K1|].
    eapply keeps_trans; [exact K1|].
    eapply keeps_trans; [apply keeps_clearTimeout|apply keeps_settle].
Qed.

Lemma keeps_processMessage parsed st : keeps st (processMessage parsed st).
Proof.
  assert (H : forall response, keeps st (deliver response st)).
  { intros response. unfold deliver.
    destruct (List.find _ _) as [pm|]; [|apply keeps_refl].
    assert (Hout : forall st1, keeps st st1 ->
              messageQueue st1 = messageQueue st ->
              keeps st (with_queue
                (List.filter (fun m => negb (id_matches (prop "id" response) m))
                             (messageQueue st)) st1)).
    { intros st1 K Hq. eapply keeps_trans; [exact K|].
      apply keeps_dequeue. rewrite Hq. by intros pm' [? _]%filter_In. }
    destruct (truthy _).
    - destruct (speakable _); [|apply keeps_refl].
      apply Hout; [|done]. unfold pending_reject.
      eapply keeps_trans; [apply keeps_clearTimeout|apply keeps_settle].
    - destruct (prop "result" response); [|apply keeps_refl].
      apply Hout; [|done]. unfold pending_resolve.
      eapply keeps_trans; [apply keeps_clearTimeout|apply keeps_settle]. }
  destruct parsed as [e|response]; [apply keeps_refl|].
  destruct response; try apply keeps_refl; apply H.
Qed.

Lemma keeps_timer_fires h st : keeps st (timer_fires h st).
Proof.
  unfold timer_fires. destruct (calls st !! h) as [c|]; [|apply keeps_refl].
  destruct (findIndex _ _) as [index|]; [|apply keeps_clearTimeout].
  eapply keeps_trans; [apply keeps_clearTimeout|].
  eapply keeps_trans; [|apply keeps_settle].
  apply keeps_dequeue. intros pm. apply In_delete.
Qed.

Lemma keeps_fire_due t hs st : keeps st (fire_due t hs st).
Proof.
  revert st. induction hs as [|h hs IH]; intros st; simpl.
  - apply keeps_refl.
  - fold (fire_due t hs (if due t st h then timer_fires h st else st)).
    eapply keeps_trans; [|apply IH].
    destruct (due t st h); [apply keeps_timer_fires|apply keeps_refl].
Qed.

Lemma keeps_fields st st' :
  nextMessageId st' = nextMessageId st -> calls st' = calls st ->
  messageQueue st' = messageQueue st -> keeps st st'.
Proof.
  intros Hn Hc Hq. unfold keeps, sent. rewrite Hn, Hc, Hq.
  split; [lia|split; [done|auto]].
Qed.

Lemma keeps_elapse dt st : keeps st (elapse dt st).
Proof.
  rewrite elapse_fire_due.
  eapply keeps_trans; [apply keeps_fire_due|by apply keeps_fields].
Qed.

Lemma keeps_react e st : keeps st (react e st).
Proof.
  destruct e; simpl;
    auto using keeps_written, keeps_processMessage, keeps_elapse.
Qed.

Lemma keeps_perform t st : keeps st (perform t st).
Proof.
  unfold perform. revert st. induction t as [|e t IH]; intros st; simpl.
  - apply keeps_refl.
  - eapply keeps_trans; [apply keeps_react|apply IH].
Qed.

Lemma keeps_await h tasks st :
  keeps st (await h tasks st).1.1.
Proof.
  revert st. induction tasks as [|t tasks IH]; intros st; simpl.
  - destruct (promise_of h st) as [[]|]; apply keeps_refl.
  - destruct (promise_of h st) as [[]|]; try apply keeps_refl;
      (eapply keeps_trans; [apply keeps_perform|apply IH]).
Qed.

Lemma tidy_sendMessage m st :
  (forall n, msg_id m = Some n -> (n < nextMessageId st)%Z) ->
  tidy st -> tidy (sendMessage m st).
Proof.
  intros Hm [T1 T2].
  assert (H : forall p t w st',
            calls st' = calls st ++ [mkCall m p t w] ->
            nextMessageId st' = nextMessageId st ->
            (messageQueue st' = messageQueue st \/
             is_Some (msg_id m) /\
             messageQueue st' = messageQueue st ++ [mkPending (length (calls st)) m]) ->
            tidy st').
  { intros p t w st' Hc Hn Hq. unfold tidy, sent. rewrite Hc, Hn, map_app. simpl.
    split.
    - intros m' n [Hin|[<-|[]]]%in_app_or; eauto.
    - intros pm Hpm.
      assert (Hold : In pm (messageQueue st) ->
                is_Some (msg_id (pending_message pm)) /\
                (map call_message (calls st) ++ [m]) !! pending_call pm
                  = Some (pending_message pm)).
      { intros Hin. destruct (T2 pm Hin) as [? Hl]. split; [done|].
        rewrite lookup_app_l; [done|]. by apply lookup_lt_Some in Hl. }
      destruct Hq as [Hq|[Hid Hq]]; rewrite Hq in Hpm; [auto|].
      apply in_app_or in Hpm as [Hin|[<-|[]]]; [auto|]. simpl.
      split; [done|].
      rewrite lookup_app_r by (by rewrite length_map).
      by rewrite length_map, Nat.sub_diag. }
  unfold sendMessage.
  destruct (negb (stdin st) || negb (stdout st)).
  - eapply H; [done|done|by left].
  - destruct (msg_id m) as [n|] eqn:Hid.
    + eapply H; [done|done|]. right. split; [by eexists|done].
    + eapply H; [done|done|by left].
Qed.

(** Sending [m] under the next id, and waiting for what comes of it. *)
Lemma tidy_awaitSend_next m tasks st :
  (forall n, msg_id m = Some n -> n = nextMessageId st) ->
  tidy st ->
  tidy (awaitSend m tasks (with_nextMessageId (nextMessageId st + 1) st)).1.1.
Proof.
  intros Hm T. unfold awaitSend.
  eapply tidy_keeps; [|apply keeps_await].
  apply tidy_sendMessage.
  - intros n Hn. apply Hm in Hn. simpl. lia.
  - eapply tidy_keeps; [exact T|]. split; [simpl; lia|split; [done|auto]].
Qed.

Lemma tidy_callTool toolName toolArgs tasks st :
  tidy st -> tidy (callTool toolName toolArgs tasks st).1.1.
Proof.
  intros T. unfold callTool. destruct (negb (initialized st)); [done|].
  destruct (negb (known toolName st) && negb (joinable (availableTools st)));
    [done|].
  pose proof (tidy_awaitSend_next
                (toolsCallMessage toolName toolArgs (nextMessageId st)) tasks st) as H.
  destruct (awaitSend _ tasks _) as [[st2 tasks2] [[e|v]|]]; simpl in *;
    apply H; try done; by intros ? [= <-].
Qed.

Lemma tidy_getAvailableTools tasks st :
  tidy st -> tidy (getAvailableTools tasks st).1.1.
Proof.
  intros T. unfold getAvailableTools. destruct (negb (initialized st)); [done|].
  pose proof (tidy_awaitSend_next (toolsListMessage (nextMessageId st)) tasks st) as H.
  destruct (awaitSend _ tasks _) as [[st2 tasks2] [[e|v]|]]; simpl in *;
    try (apply H; try done; by intros ? [= <-]).
  destruct v as [[]|]; simpl; apply H; try done; by intros ? [= <-].
Qed.

Lemma tidy_initialize tasks st :
  tidy st -> tidy (initialize tasks st).1.1.
Proof.
  intros T. unfold initialize. destruct (negb (stdin st) || negb (stdout st)); [done|].
  pose proof (tidy_awaitSend_next (initMessage (nextMessageId st)) tasks st) as H.
  destruct (awaitSend _ tasks _) as [[st2 tasks2] [[e|v]|]] eqn:Ha; simpl in *;
    try (apply H; try done; by intros ? [= <-]).
  destruct (negb (valid_handshake v)); simpl;
    [apply H; try done; by intros ? [= <-]|].
  assert (T2 : tidy st2) by (apply H; try done; by intros ? [= <-]).
  set (st3 := with_server _ _ st2).
  assert (T3 : tidy st3).
  { eapply tidy_keeps; [exact T2|]. by apply keeps_fields. }
  assert (T4 : tidy (awaitSend initializedNotification tasks2 st3).1.1).
  { unfold awaitSend. eapply tidy_keeps; [|apply keeps_await].
    apply tidy_sendMessage; [by intros ? [=]|done]. }
  destruct (awaitSend initializedNotification tasks2 st3)
    as [[st4 tasks4] [[e|u]|]]; done.
Qed.

Lemma tidy_updateAvailableTools tasks st :
  tidy st -> tidy (updateAvailableTools tasks st).1.1.
Proof.
  intros T. unfold updateAvailableTools.
  pose proof (tidy_getAvailableTools tasks st T) as H.
  destruct (getAvailableTools tasks st) as [[st1 tasks1] [tools|e|]];
    simpl in *; try done.
  destruct tools; try done.
  destruct (tool_names items); [|done].
  eapply tidy_keeps; [exact H|]. by apply keeps_fields.
Qed.

Lemma tidy_connect sp tasks st :
  tidy st -> tidy (connect sp tasks st).1.1.
Proof.
  intros T. destruct sp as [e|c]; simpl; [done|].
  assert (T1 : tidy (with_child c st)).
  { eapply tidy_keeps; [exact T|]. by apply keeps_fields. }
  pose proof (tidy_initialize tasks _ T1) as H.
  destruct (initialize tasks (with_child c st)) as [[st1 tasks1] [[]|e|]];
    simpl in *; try done.
  by apply tidy_updateAvailableTools.
Qed.

(** The states of a client whose methods are called one after the other,
    each with the tasks that happen while it waits, and to which tasks
    happen in between. *)
Inductive in_use : client -> Prop :=
| use_new : in_use fresh
| use_event e st : in_use st -> in_use (react e st)
| use_connect sp tasks st : in_use st -> in_use (connect sp tasks st).1.1
| use_getAvailableTools tasks st :
    in_use st -> in_use (getAvailableTools tasks st).1.1
| use_callTool toolName toolArgs tasks st :
    in_use st -> in_use (callTool toolName toolArgs tasks st).1.1
| use_close st : in_use st -> in_use (close st).

Lemma in_use_tidy st : in_use st -> tidy st.
Proof.
  induction 1.
  - split; [by intros ? ? []|by intros ? []].
  - eapply tidy_keeps; [done|apply keeps_react].
  - by apply tidy_connect.
  - by apply tidy_getAvailableTools.
  - by apply tidy_callTool.
  - eapply tidy_keeps; [done|]. by apply keeps_fields.
Qed.

Lemma tidy_unused st : tidy st -> unused (nextMessageId st) st.
Proof.
  intros [T1 T2]. split.
  - intros c Hc Hid.
    assert (Hin : In (call_message c) (sent st)) by (by apply in_map).
    specialize (T1 _ _ Hin Hid). lia.
  - intros pm Hpm. destruct (T2 pm Hpm) as [_ Hl]. split.
    + intros Hid.
      assert (Hin : In (pending_message pm) (sent st)).
      { apply list_elem_of_In, list_elem_of_lookup. eauto. }
      specialize (T1 _ _ Hin Hid). lia.
    + apply lookup_lt_Some in Hl. unfold sent in Hl. by rewrite length_map in Hl.
Qed.

(** X4: ids are not used twice. In a client whose methods are called one
    after the other, no message sent so far and no queue entry carries the
    id that the next request will get, [nextMessageId]; and the queue holds
    requests only, each under the invocation of [sendMessage] that queued
    it: a notification is never in it. *)
Theorem next_id_is_unused st :
  in_use st ->
  unused (nextMessageId st) st /\
  forall pm, In pm (messageQueue st) -> is_Some (msg_id (pending_message pm)).
Proof.
  intros T%in_use_tidy. split; [by apply tidy_unused|].
  intros pm Hpm. destruct T as [_ T2]. by destruct (T2 pm Hpm).
Qed.

(** A handshake that connects: the server answers [initialize] and
    [tools/list], without tools, each event in a task of its own. *)
Definition plain_handshake : list task :=
  alone
    [Written 0 None;
     Line (inr (JObj [("id", JNum 1);
                      ("result", JObj [("protocolVersion", JStr "0.1.0")])]));
     Written 1 None; Written 2 None;
     Line (inr (JObj [("id", JNum 2); ("result", JObj [])]))].

Definition connected : client :=
  (connect (Spawned (mkChild true true)) plain_handshake fresh).1.1.

Lemma in_use_connected : in_use connected.
Proof. apply use_connect, use_new. Qed.

Lemma next_id_is_unused_witness :
    let st := (callTool "search" (JObj []) [[Written 3 None]] connected).1.1 in
  unused 4 st /\
  forall pm, In pm (messageQueue st) -> is_Some (msg_id (pending_message pm)).
Proof.
  intros st.
  apply (next_id_is_unused st).
  apply use_callTool, in_use_connected.
Defined.

(* ===================================================================== *)
(** ** A request and its response                                         *)
(* ===================================================================== *)

Lemma await_settled h tasks st p :
  promise_of h st = Some p -> p <> Pending ->
  await h tasks st =
    (st, tasks, match p with
                 | Fulfilled v => Some (inr v)
                 | Rejected e => Some (inl e)
                 | Pending => None
                 end).
Proof. intros Hp Hne. destruct tasks; simpl; rewrite Hp; by destruct p. Qed.

Lemma await_pending h t tasks st :
  promise_of h st = Some Pending ->
  await h (t :: tasks) st = await h tasks (perform t st).
Proof. intros Hp. simpl. by rewrite Hp. Qed.

(** Does a response with these properties settle its request? It has a
    truthy [error] whose [message] can be put in a string, or no truthy
    [error] and a [result]. *)
Definition settles (props : list (string * json)) : bool :=
  if truthy (assoc "error" props)
  then speakable (error_message props)
  else bool_decide (is_Some (assoc "result" props)).

(** The outcome a response that settles its request gives it. *)
Definition outcome (props : list (string * json)) : thrown + value :=
  if truthy (assoc "error" props)
  then inl (ErrorOf (error_message props))
  else inr (assoc "result" props).

Lemma alter_last {A} (f : A -> A) (l : list A) (x : A) :
  alter f (length l) (l ++ [x]) = l ++ [f x].
Proof.
  replace (length l) with (length l + 0) by lia. by rewrite alter_app_r.
Qed.

Lemma find_app_new {A} (f : A -> bool) (q : list A) (x : A) :
  (forall y, In y q -> f y = false) -> f x = true ->
  List.find f (q ++ [x]) = Some x /\
  List.filter (fun m => negb (f m)) (q ++ [x]) = q.
Proof.
  intros Hq Hx. induction q as [|y q IH]; simpl.
  - by rewrite Hx.
  - rewrite (Hq y) by (by left). simpl.
    destruct IH as [-> ->]; [|done]. intros z Hz. apply Hq. by right.
Qed.

Lemma promise_of_alter h f i st st' :
  calls st' = alter f i (calls st) ->
  (i = h -> forall c, call_promise (f c) = call_promise c) ->
  promise_of h st' = promise_of h st.
Proof.
  intros Hc Hf. unfold promise_of. rewrite Hc, list_lookup_alter.
  case_decide as Hih; [|done]. subst i.
  destruct (calls st !! h) as [c|]; simpl; [|done]. by rewrite Hf.
Qed.

Lemma promise_of_settle h i p st :
  i <> h -> promise_of h (settle i p st) = promise_of h st.
Proof. intros Hi. by apply (promise_of_alter h (set_promise p) i). Qed.

Lemma promise_of_clearTimeout h i st :
  promise_of h (clearTimeout i st) = promise_of h st.
Proof. by apply (promise_of_alter h (set_timer None) i). Qed.

(** A promise that is settled stays as it is, whatever happens. *)
Lemma settled_alter h p f i st st' :
  promise_of h st = Some p -> p <> Pending ->
  calls st' = alter f i (calls st) ->
  (forall c, call_promise c <> Pending -> call_promise (f c) = call_promise c) ->
  promise_of h st' = Some p.
Proof.
  unfold promise_of. intros Hp Hne Hc Hf. rewrite Hc, list_lookup_alter.
  case_decide as Hih; [|done]. subst i.
  destruct (calls st !! h) as [c|]; simpl in *; [|done].
  injection Hp as <-. by rewrite Hf.
Qed.

Lemma settled_settle h p i q st :
  promise_of h st = Some p -> p <> Pending ->
  promise_of h (settle i q st) = Some p.
Proof.
  intros Hp Hne. apply (settled_alter h p (set_promise q) i st); try done.
  intros c Hc. simpl. by destruct (call_promise c).
Qed.

Lemma settled_written h p i error st :
  promise_of h st = Some p -> p <> Pending ->
  promise_of h (written i error st) = Some p.
Proof.
  intros Hp Hne. unfold written. destruct (calls st !! i) as [c|]; [|done].
  destruct (call_writing c); [|done].
  set (st1 := with_calls _ st).
  assert (H1 : promise_of h st1 = Some p).
  { by apply (settled_alter h p (set_writing false) i st). }
  destruct error as [e|].
  - apply settled_settle; [|done]. by rewrite promise_of_clearTimeout.
  - destruct (msg_id (call_message c)); [done|].
    apply settled_settle; [|done]. by rewrite promise_of_clearTimeout.
Qed.

Lemma settled_processMessage h p parsed st :
  promise_of h st = Some p -> p <> Pending ->
  promise_of h (processMessage parsed st) = Some p.
Proof.
  intros Hp Hne.
  assert (H : forall response, promise_of h (deliver response st) = Some p).
  { intros response. unfold deliver.
    destruct (List.find _ _) as [pm|]; [|done].
    destruct (truthy _).
    - destruct (speakable _); [|done]. unfold pending_reject.
      change (promise_of h (with_queue ?q ?s)) with (promise_of h s).
      apply settled_settle; [|done]. by rewrite promise_of_clearTimeout.
    - destruct (prop "result" response); [|done].
      unfold pending_resolve.
      change (promise_of h (with_queue ?q ?s)) with (promise_of h s).
      apply settled_settle; [|done]. by rewrite promise_of_clearTimeout. }
  destruct parsed as [e|response]; [done|].
  destruct response; try done; apply H.
Qed.

Lemma settled_timer_fires h p i st :
  promise_of h st = Some p -> p <> Pending ->
  promise_of h (timer_fires i st) = Some p.
Proof.
  intros Hp Hne. unfold timer_fires. destruct (calls st !! i) as [c|]; [|done].
  destruct (findIndex _ _).
  - apply settled_settle; [|done].
    change (promise_of h (with_queue ?q ?s)) with (promise_of h s).
    by rewrite promise_of_clearTimeout.
  - by rewrite promise_of_clearTimeout.
Qed.

Lemma settled_elapse h p dt st :
  promise_of h st = Some p -> p <> Pending ->
  promise_of h (elapse dt st) = Some p.
Proof.
  intros Hp Hne. rewrite elapse_fire_due.
  change (promise_of h (with_now ?t ?s)) with (promise_of h s).
  generalize (seq 0 (length (calls st))) as hs.
  generalize (now st + dt)%N as t. intros t hs. revert st Hp.
  induction hs as [|i hs IH]; intros st Hp; simpl; [done|].
  fold (fire_due t hs (if due t st i then timer_fires i st else st)).
  apply IH. destruct (due t st i); [by apply settled_timer_fires|done].
Qed.

Lemma settled_perform h p t st :
  promise_of h st = Some p -> p <> Pending ->
  promise_of h (perform t st) = Some p.
Proof.
  intros Hp Hne. unfold perform. revert st Hp.
  induction t as [|e t IH]; intros st Hp; simpl; [done|].
  apply IH. destruct e; simpl.
  - by apply settled_written.
  - by apply settled_processMessage.
  - by apply settled_elapse.
Qed.

(** A request is sent under an id [n] that is not in use, the write calls
    back without an error, and then a chunk arrives whose first line has id
    [n] and settles the request: what [more] that chunk and its task hold is
    done before the [await] goes on, and the [await] ends with what the
    first line carries; before [more], the queue is what it was before the
    request. The tasks that follow are not run. *)
Lemma awaitSend_response m n props more rest st :
  unused n st -> stdin st = true -> stdout st = true ->
  msg_id m = Some n ->
  assoc "id" props = Some (JNum n) ->
  settles props = true ->
  exists settled,
    awaitSend m ([Written (length (calls st)) None]
                   :: (Line (inr (JObj props)) :: more) :: rest) st
      = (perform more settled, rest, Some (outcome props)) /\
    session settled = session st /\
    messageQueue settled = messageQueue st /\
    sent settled = sent st ++ [m].
Proof.
  intros [U1 U2] Hin Hout Hid Hrid Hpayload.
  set (h := length (calls st)).
  set (c0 := mkCall m Pending (Some (now st + TIMEOUT)%N) true).
  set (pm := mkPending h m).
  set (s1 := with_queue (messageQueue st ++ [pm]) (with_calls (calls st ++ [c0]) st)).
  assert (Hs1 : sendMessage m st = s1).
  { unfold sendMessage. by rewrite Hin, Hout, Hid. }
  set (c1 := set_writing false c0).
  set (s2 := with_calls (calls st ++ [c1]) s1).
  assert (Hs2 : written h None s1 = s2).
  { unfold written. simpl calls.
    rewrite (list_lookup_middle (calls st) [] c0 h eq_refl). simpl.
    rewrite Hid. unfold s2, h. by rewrite alter_last. }
  assert (Hfind : List.find (id_matches (Some (JNum n))) (messageQueue st ++ [pm])
                    = Some pm /\
                  List.filter (fun m' => negb (id_matches (Some (JNum n)) m'))
                              (messageQueue st ++ [pm]) = messageQueue st).
  { apply find_app_new.
    - intros y Hy. rewrite has_id_matches.
      destruct (has_id n y) eqn:Hy'; [|done].
      apply has_id_true in Hy'. by destruct (U2 y Hy).
    - rewrite has_id_matches. by apply has_id_true. }
  destruct Hfind as [Hfind Hfilter].
  set (p := match outcome props with
            | inl e => Rejected e
            | inr v => Fulfilled v
            end).
  assert (Hpne : p <> Pending) by (unfold p; by destruct (outcome props)).
  set (c3 := set_promise p (set_timer None c1)).
  set (s3 := processMessage (inr (JObj props)) s2).
  assert (Hs3 : calls s3 = calls st ++ [c3] /\ messageQueue s3 = messageQueue st /\
                session s3 = session st).
  { unfold s3, processMessage, deliver. simpl prop. rewrite Hrid.
    simpl messageQueue. rewrite Hfind, Hfilter.
    unfold c3, p, outcome. unfold settles in Hpayload.
    fold (error_message props).
    destruct (truthy (assoc "error" props)) eqn:Herr.
    - rewrite Hpayload. simpl. unfold h. by rewrite !alter_last.
    - apply bool_decide_eq_true in Hpayload as [r Hr]. rewrite Hr. simpl.
      unfold h. by rewrite !alter_last. }
  destruct Hs3 as (Hc3 & Hq3 & Hse3).
  exists s3. split; [|split; [done|split; [done|]]].
  - assert (Hp1 : promise_of h s1 = Some Pending).
    { unfold promise_of. simpl calls.
      by rewrite (list_lookup_middle (calls st) [] c0 h eq_refl). }
    assert (Hp2 : promise_of h s2 = Some Pending).
    { unfold promise_of. simpl calls.
      by rewrite (list_lookup_middle (calls st) [] c1 h eq_refl). }
    assert (Hp3 : promise_of h s3 = Some p).
    { unfold promise_of. rewrite Hc3.
      by rewrite (list_lookup_middle (calls st) [] c3 h eq_refl). }
    unfold awaitSend. rewrite Hs1. fold h.
    rewrite (await_pending h _ _ s1 Hp1). cbn [perform fold_left react].
    rewrite Hs2.
    rewrite (await_pending h _ _ s2 Hp2).
    change (perform (Line (inr (JObj props)) :: more) s2) with (perform more s3).
    rewrite (await_settled h rest (perform more s3) p); [|by apply settled_perform|done].
    f_equal. unfold p. by destruct (outcome props).
  - unfold sent. rewrite Hc3, map_app. done.
Qed.

(** A notification is sent and the write calls back without an error: the
    [await] ends there. *)
Lemma awaitSend_notification m rest st :
  stdin st = true -> stdout st = true -> msg_id m = None ->
  exists st',
    awaitSend m ([Written (length (calls st)) None] :: rest) st
      = (st', rest, Some (inr undefined)) /\
    session st' = session st /\
    messageQueue st' = messageQueue st /\
    sent st' = sent st ++ [m].
Proof.
  intros Hin Hout Hid.
  set (h := length (calls st)).
  set (c0 := mkCall m Pending (Some (now st + TIMEOUT)%N) true).
  set (s1 := with_calls (calls st ++ [c0]) st).
  assert (Hs1 : sendMessage m st = s1).
  { unfold sendMessage. by rewrite Hin, Hout, Hid. }
  set (c2 := set_promise (Fulfilled undefined) (set_timer None (set_writing false c0))).
  set (s2 := written h None s1).
  assert (Hs2 : calls s2 = calls st ++ [c2] /\ messageQueue s2 = messageQueue st /\
                session s2 = session st).
  { unfold s2, written. simpl calls.
    rewrite (list_lookup_middle (calls st) [] c0 h eq_refl). simpl.
    rewrite Hid. simpl. unfold h. by rewrite !alter_last. }
  destruct Hs2 as (Hc2 & Hq2 & Hse2).
  exists s2. split; [|split; [done|split; [done|]]].
  - assert (Hp1 : promise_of h s1 = Some Pending).
    { unfold promise_of. simpl calls.
      by rewrite (list_lookup_middle (calls st) [] c0 h eq_refl). }
    assert (Hp2 : promise_of h s2 = Some (Fulfilled undefined)).
    { unfold promise_of. rewrite Hc2.
      by rewrite (list_lookup_middle (calls st) [] c2 h eq_refl). }
    unfold awaitSend. rewrite Hs1. fold h.
    rewrite (await_pending h _ _ s1 Hp1). cbn [perform fold_left react]. fold s2.
    by rewrite (await_settled h rest s2 _ Hp2).
  - unfold sent. rewrite Hc2, map_app. done.
Qed.

Lemma sent_length st : length (sent st) = length (calls st).
Proof. unfold sent. by rewrite length_map. Qed.

(** What an [async] method makes of the outcome of its request. *)
Definition completed (o : thrown + value) : completion value :=
  match o with
  | inl e => Threw e
  | inr v => Returned v
  end.

(** X5: a tool call and its response. On a connected client in use,
    where the name of the tool is in [availableTools] or the names in it
    can all be put in a string, [callTool] sends [tools/call] under the id
    [nextMessageId]. When the write calls back without an error and then a
    chunk arrives whose first line has that id and settles the request,
    whatever else comes in the same task is done first; then [callTool]
    returns the [result] of that line as it is, or throws an [Error] with
    the message of its [error]. The id counter has advanced by one, the
    queue was, once the line was read, as before the call, and the tasks
    that follow are left for later. *)
Theorem callTool_round_trip toolName toolArgs props more rest st :
  in_use st ->
  initialized st = true -> stdin st = true -> stdout st = true ->
  known toolName st = true \/ joinable (availableTools st) = true ->
  assoc "id" props = Some (JNum (nextMessageId st)) ->
  settles props = true ->
  exists settled,
    callTool toolName toolArgs
      ([Written (length (calls st)) None]
         :: (Line (inr (JObj props)) :: more) :: rest) st
      = (perform more settled, rest, completed (outcome props)) /\
    nextMessageId settled = (nextMessageId st + 1)%Z /\
    messageQueue settled = messageQueue st /\
    sent settled = sent st ++ [toolsCallMessage toolName toolArgs (nextMessageId st)].
Proof.
  intros T%in_use_tidy Hinit Hin Hout Hlog Hrid Hpayload.
  set (m := toolsCallMessage toolName toolArgs (nextMessageId st)).
  set (st1 := with_nextMessageId (nextMessageId st + 1) st).
  destruct (awaitSend_response m (nextMessageId st) props more rest st1
              (tidy_unused st T) Hin Hout eq_refl Hrid Hpayload)
    as (settled & Ha & Hse & Hq & Hs).
  exists settled. apply session_fields in Hse as (_ & _ & _ & _ & Hn & _).
  split; [|done].
  unfold callTool. rewrite Hinit. cbn [negb].
  assert (Hguard : negb (known toolName st) && negb (joinable (availableTools st))
                   = false).
  { destruct Hlog as [-> | ->]; [done|]. by rewrite andb_false_r. }
  rewrite Hguard. cbv zeta.
  fold m st1. change (length (calls st)) with (length (calls st1)).
  rewrite Ha. by destruct (outcome props).
Qed.

(** The response to the call comes in one chunk with a second response
    under the same id, and a timer task follows. *)
Lemma callTool_round_trip_witness :
  exists settled,
    callTool "search" (JObj [("query", JStr "rocq")])
      [[Written 3 None];
       [Line (inr (JObj [("id", JNum 3); ("result", JStr "found")]));
        Line (inr (JObj [("id", JNum 3); ("result", JStr "late")]))];
       [Elapse 30000]] connected
      = (perform [Line (inr (JObj [("id", JNum 3); ("result", JStr "late")]))]
                 settled,
         [[Elapse 30000]], Returned (Some (JStr "found"))) /\
    nextMessageId settled = 4%Z /\
    messageQueue settled = [] /\
    sent settled = sent connected ++
               [toolsCallMessage "search" (JObj [("query", JStr "rocq")]) 3].
Proof.
  apply (callTool_round_trip "search" (JObj [("query", JStr "rocq")])
           [("id", JNum 3); ("result", JStr "found")]
           [Line (inr (JObj [("id", JNum 3); ("result", JStr "late")]))]
           [[Elapse 30000]] connected).
  - apply in_use_connected.
  - reflexivity.
  - reflexivity.
  - reflexivity.
  - right. reflexivity.
  - reflexivity.
  - reflexivity.
Defined.




(** The tools a [tools/list] result gives: [response.tools || []]. *)
Definition listed (result : list (string * json)) : json :=
  if truthy (assoc "tools" result)
  then match assoc "tools" result with Some t => t | None => JArr [] end
  else JArr [].

Lemma settles_result props :
  truthy (assoc "error" props) = false -> is_Some (assoc "result" props) ->
  settles props = true.
Proof.
  intros Herr Hres. unfold settles. rewrite Herr. by apply bool_decide_eq_true.
Qed.

Lemma getAvailableTools_response result props rest st :
  tidy st ->
  initialized st = true -> stdin st = true -> stdout st = true ->
  assoc "id" props = Some (JNum (nextMessageId st)) ->
  truthy (assoc "error" props) = false ->
  assoc "result" props = Some (JObj result) ->
  exists st',
    getAvailableTools
      ([Written (length (calls st)) None] :: [Line (inr (JObj props))] :: rest) st
      = (st', rest, Returned (listed result)) /\
    session st' = session (with_nextMessageId (nextMessageId st + 1) st) /\
    messageQueue st' = messageQueue st /\
    sent st' = sent st ++ [toolsListMessage (nextMessageId st)].
Proof.
  intros T Hinit Hin Hout Hrid Herr Hres.
  set (m := toolsListMessage (nextMessageId st)).
  set (st1 := with_nextMessageId (nextMessageId st + 1) st).
  assert (Hpayload : settles props = true)
    by (apply settles_result; [done|by eexists]).
  destruct (awaitSend_response m (nextMessageId st) props [] rest st1
              (tidy_unused st T) Hin Hout eq_refl Hrid Hpayload)
    as (st' & Ha & Hse & Hq & Hs).
    cbn [perform fold_left] in Ha.
  exists st'. split; [|done].
  unfold getAvailableTools. rewrite Hinit. cbn [negb]. cbv zeta.
  fold m st1. change (length (calls st)) with (length (calls st1)).
  rewrite Ha. unfold outcome. rewrite Herr, Hres. done.
Qed.

(** X6: the tool list and its response. On a connected client in use,
    when the write of [tools/list] calls back and a line with the id of the
    request and an object as [result] arrives, [getAvailableTools] returns
    the [tools] of that result, and the empty list when the result has no
    [tools] or a falsy one; the queue is as it was before. With [null] as
    the result it throws a [TypeError] instead of returning. *)
Theorem getAvailableTools_round_trip result props rest st :
  in_use st ->
  initialized st = true -> stdin st = true -> stdout st = true ->
  assoc "id" props = Some (JNum (nextMessageId st)) ->
  truthy (assoc "error" props) = false ->
  let tasks := [Written (length (calls st)) None]
                  :: [Line (inr (JObj props))] :: rest in
  (assoc "result" props = Some (JObj result) ->
   exists st',
     getAvailableTools tasks st = (st', rest, Returned (listed result)) /\
     messageQueue st' = messageQueue st) /\
  (assoc "result" props = Some (JObj result) -> assoc "tools" result = None ->
   (getAvailableTools tasks st).2 = Returned (JArr [])) /\
  (assoc "result" props = Some JNull ->
   (getAvailableTools tasks st).2 =
     Threw (TypeError "Cannot read properties of null (reading 'tools')")).
Proof.
  intros T%in_use_tidy Hinit Hin Hout Hrid Herr tasks.
  split; [|split].
  - intros Hres.
    destruct (getAvailableTools_response result props rest st
                T Hinit Hin Hout Hrid Herr Hres) as (st' & H & _ & Hq & _).
    eauto.
  - intros Hres Htools.
    destruct (getAvailableTools_response result props rest st
                T Hinit Hin Hout Hrid Herr Hres) as (st' & H & _).
    subst tasks. rewrite H. unfold listed. by rewrite Htools.
  - intros Hres.
    set (m := toolsListMessage (nextMessageId st)).
    set (st1 := with_nextMessageId (nextMessageId st + 1) st).
    assert (Hpayload : settles props = true)
      by (apply settles_result; [done|by eexists]).
    destruct (awaitSend_response m (nextMessageId st) props [] rest st1
                (tidy_unused st T) Hin Hout eq_refl Hrid Hpayload)
      as (st' & Ha & _).
      cbn [perform fold_left] in Ha.
    subst tasks. unfold getAvailableTools. rewrite Hinit. cbn [negb]. cbv zeta.
    fold m st1. change (length (calls st)) with (length (calls st1)).
    rewrite Ha. unfold outcome. rewrite Herr, Hres. done.
Qed.

Lemma getAvailableTools_round_trip_witness :
  let st := connected in
  (getAvailableTools
     [[Written 3 None];
      [Line (inr (JObj [("id", JNum 3); ("result", JObj [("cursor", JNull)])]))]]
     st).2 = Returned (JArr []).
Proof.
  intros st.
  refine (proj1 (proj2 (getAvailableTools_round_trip [("cursor", JNull)]
            [("id", JNum 3); ("result", JObj [("cursor", JNull)])] [] st
            _ _ _ _ _ _)) _ _); try reflexivity.
  apply in_use_connected.
Defined.

(* ===================================================================== *)
(** ** The handshake                                                      *)
(* ===================================================================== *)

Lemma initialize_handshake result version props rest st :
  tidy st -> stdin st = true -> stdout st = true ->
  assoc "id" props = Some (JNum (nextMessageId st)) ->
  truthy (assoc "error" props) = false ->
  assoc "result" props = Some (JObj result) ->
  assoc "protocolVersion" result = Some (JStr version) ->
  exists st',
    initialize ([Written (length (calls st)) None] :: [Line (inr (JObj props))]
                  :: [Written (S (length (calls st))) None] :: rest) st
      = (st', rest, Returned tt) /\
    session st' =
      session (with_server (assoc "capabilities" result) (assoc "serverInfo" result)
                 (with_nextMessageId (nextMessageId st + 1) st)) /\
    messageQueue st' = messageQueue st /\
    sent st' = sent st ++ [initMessage (nextMessageId st); initializedNotification].
Proof.
  intros T Hin Hout Hrid Herr Hres Hver.
  set (m := initMessage (nextMessageId st)).
  set (st1 := with_nextMessageId (nextMessageId st + 1) st).
  assert (Hpayload : settles props = true)
    by (apply settles_result; [done|by eexists]).
  destruct (awaitSend_response m (nextMessageId st) props []
              ([Written (S (length (calls st))) None] :: rest) st1
              (tidy_unused st T) Hin Hout eq_refl Hrid Hpayload)
    as (st2 & Ha & Hse2 & Hq2 & Hs2).
    cbn [perform fold_left] in Ha.
  set (st3 := with_server (assoc "capabilities" result)
                          (assoc "serverInfo" result) st2).
  pose proof (session_fields _ _ Hse2) as (Hp & Hi2 & Ho2 & Hini & Hn & Hc & Hv & Ht).
  assert (Hlen : length (calls st3) = S (length (calls st))).
  { change (calls st3) with (calls st2). rewrite <- sent_length, Hs2.
    rewrite length_app, sent_length. simpl. lia. }
  destruct (awaitSend_notification initializedNotification rest st3)
    as (st4 & Ha4 & Hse4 & Hq4 & Hs4).
  { simpl. by rewrite Hi2. }
  { simpl. by rewrite Ho2. }
  { done. }
  rewrite Hlen in Ha4.
  exists st4. split; [|split; [|split]].
  - unfold initialize. rewrite Hin, Hout. cbn [negb orb]. cbv zeta.
    fold m st1. change (length (calls st)) with (length (calls st1)) at 1.
    rewrite Ha. unfold outcome. rewrite Herr, Hres.
    unfold valid_handshake. cbn [truthy prop andb]. rewrite Hver. cbn [negb].
    fold st3. by rewrite Ha4.
  - rewrite Hse4. unfold session. simpl. by rewrite Hp, Hi2, Ho2, Hn, Ht.
  - by rewrite Hq4.
  - rewrite Hs4. change (sent st3) with (sent st2). rewrite Hs2.
    by rewrite <- app_assoc.
Qed.

(** X7: a handshake that connects. The child process comes with both
    streams; the server answers [initialize] with a result that has a string
    as [protocolVersion], the writes call back without errors, and the
    server answers [tools/list] with an array of tools. Then [connect]
    returns; the client is initialized, holds the [capabilities] and
    [serverInfo] of the first answer and the names of the tools of the
    second, has used two ids, and has its queue as before. *)
Theorem connect_handshake c result version initProps tools names toolsResult
    toolsProps rest st :
  in_use st ->
  child_stdin c = true -> child_stdout c = true ->
  assoc "id" initProps = Some (JNum (nextMessageId st)) ->
  truthy (assoc "error" initProps) = false ->
  assoc "result" initProps = Some (JObj result) ->
  assoc "protocolVersion" result = Some (JStr version) ->
  assoc "id" toolsProps = Some (JNum (nextMessageId st + 1)) ->
  truthy (assoc "error" toolsProps) = false ->
  assoc "result" toolsProps = Some (JObj toolsResult) ->
  assoc "tools" toolsResult = Some (JArr tools) ->
  tool_names tools = Some names ->
  let h := length (calls st) in
  exists st',
    connect (Spawned c)
      ([Written h None] :: [Line (inr (JObj initProps))] :: [Written (S h) None]
         :: [Written (S (S h)) None] :: [Line (inr (JObj toolsProps))] :: rest) st
      = (st', rest, Returned tt) /\
    session st' =
      (Some c, true, true, true, (nextMessageId st + 2)%Z,
       assoc "capabilities" result, assoc "serverInfo" result, names) /\
    messageQueue st' = messageQueue st /\
    sent st' = sent st ++ [initMessage (nextMessageId st); initializedNotification;
                           toolsListMessage (nextMessageId st + 1)].
Proof.
  intros T%in_use_tidy Hcin Hcout Hrid Herr Hres Hver Hrid' Herr' Hres' Htools
         Hnames h.
  set (s0 := with_child c st).
  assert (T0 : tidy s0) by (eapply tidy_keeps; [exact T|by apply keeps_fields]).
  destruct (initialize_handshake result version initProps
              ([Written (S (S h)) None] :: [Line (inr (JObj toolsProps))] :: rest) s0
              T0 Hcin Hcout Hrid Herr Hres Hver)
    as (s4 & Hinit & Hse4 & Hq4 & Hs4).
  assert (T4 : tidy s4).
  { pose proof (tidy_initialize
      ([Written h None] :: [Line (inr (JObj initProps))] :: [Written (S h) None]
         :: [Written (S (S h)) None] :: [Line (inr (JObj toolsProps))] :: rest)
      s0 T0) as H.
    change (length (calls s0)) with h in Hinit. by rewrite Hinit in H. }
  pose proof (session_fields _ _ Hse4) as (Hp & Hi & Ho & Hini & Hn & Hc & Hv & Ht).
  simpl in Hp, Hi, Ho, Hini, Hn, Hc, Hv, Ht.
  assert (Hlen : length (calls s4) = S (S h)).
  { rewrite <- sent_length, Hs4, length_app. change (sent s0) with (sent st).
    rewrite sent_length. simpl. unfold h. lia. }
  destruct (getAvailableTools_response toolsResult toolsProps rest s4)
    as (s5 & Hget & Hse5 & Hq5 & Hs5); try done.
  { congruence. }
  { congruence. }
  { by rewrite Hn. }
  rewrite Hlen in Hget.
  pose proof (session_fields _ _ Hse5) as (Hp5 & Hi5 & Ho5 & Hini5 & Hn5 & Hc5 & Hv5 & Ht5).
  simpl in Hp5, Hi5, Ho5, Hini5, Hn5, Hc5, Hv5, Ht5.
  exists (with_availableTools names s5). split; [|split; [|split]].
  - unfold connect. fold s0. change (length (calls s0)) with h in Hinit.
    rewrite Hinit. unfold updateAvailableTools. rewrite Hget.
    unfold listed. rewrite Htools. cbn [truthy]. by rewrite Hnames.
  - unfold session. simpl.
    rewrite Hp5, Hi5, Ho5, Hini5, Hn5, Hc5, Hv5, Hp, Hi, Ho, Hini, Hn, Hc, Hv.
    rewrite Hcin, Hcout.
    by replace (nextMessageId st + 1 + 1)%Z with (nextMessageId st + 2)%Z by lia.
  - simpl. by rewrite Hq5, Hq4.
  - change (sent (with_availableTools names s5)) with (sent s5).
    rewrite Hs5, Hs4, Hn. change (sent s0) with (sent st).
    by rewrite <- app_assoc.
Qed.

Lemma connect_handshake_witness :
  exists st',
    connect (Spawned (mkChild true true))
      [[Written 0 None];
       [Line (inr (JObj [("id", JNum 1);
                         ("result",
                          JObj [("protocolVersion", JStr "0.1.0");
                                ("capabilities", JObj [("tools", JObj [])]);
                                ("serverInfo", JObj [("name", JStr "files")])])]))];
       [Written 1 None]; [Written 2 None];
       [Line (inr (JObj [("id", JNum 2);
                         ("result",
                          JObj [("tools", JArr [JObj [("name", JStr "read_file")];
                                                 JObj [("name", JStr "list")]])])]))]]
      fresh
      = (st', [], Returned tt) /\
    session st' =
      (Some (mkChild true true), true, true, true, 3%Z,
       Some (JObj [("tools", JObj [])]), Some (JObj [("name", JStr "files")]),
       [Some (JStr "read_file"); Some (JStr "list")]) /\
    messageQueue st' = [] /\
    sent st' = [initMessage 1; initializedNotification; toolsListMessage 2].
Proof.
  apply (connect_handshake (mkChild true true)
           [("protocolVersion", JStr "0.1.0");
            ("capabilities", JObj [("tools", JObj [])]);
            ("serverInfo", JObj [("name", JStr "files")])]
           "0.1.0"
           [("id", JNum 1);
            ("result",
             JObj [("protocolVersion", JStr "0.1.0");
                   ("capabilities", JObj [("tools", JObj [])]);
                   ("serverInfo", JObj [("name", JStr "files")])])]
           [JObj [("name", JStr "read_file")]; JObj [("name", JStr "list")]]
           [Some (JStr "read_file"); Some (JStr "list")]
           [("tools", JArr [JObj [("name", JStr "read_file")];
                            JObj [("name", JStr "list")]])]
           [("id", JNum 2);
            ("result",
             JObj [("tools", JArr [JObj [("name", JStr "read_file")];
                                    JObj [("name", JStr "list")]])])]
           [] fresh); try reflexivity.
  apply use_new.
Defined.

(** X8: what a returned [connect] leaves. Whenever [connect] returns,
    whatever happened on the way, the client is initialized and holds the
    child process and both its streams, and two ids have been used: one by
    [initialize], one by [tools/list], whether the tool list could be read
    or not. *)
Theorem connect_returns_initialized c tasks st st' tasks' :
  connect (Spawned c) tasks st = (st', tasks', Returned tt) ->
  process st' = Some c /\ stdin st' = true /\ stdout st' = true /\
  initialized st' = true /\ nextMessageId st' = (nextMessageId st + 2)%Z.
Proof.
  unfold connect.
  destruct (initialize tasks (with_child c st)) as [[s4 tasks4] [[]|e|]] eqn:Hinit;
    [|done..].
  assert (H4 : process s4 = Some c /\ stdin s4 = true /\ stdout s4 = true /\
               initialized s4 = true /\ nextMessageId s4 = (nextMessageId st + 1)%Z).
  { revert Hinit. unfold initialize. simpl stdin. simpl stdout.
    destruct (child_stdin c) eqn:Hcin; [|done].
    destruct (child_stdout c) eqn:Hcout; [|done]. cbn [negb orb]. cbv zeta.
    destruct (awaitSend _ tasks _) as [[s2 tasks2] [[e|response]|]] eqn:Ha;
      [done| |done].
    destruct (negb (valid_handshake response)); [done|].
    apply session_awaitSend in Ha.
    apply session_fields in Ha as (Hp & Hi & Ho & _ & Hn & _).
    simpl in Hp, Hi, Ho, Hn.
    destruct (awaitSend initializedNotification _ _)
      as [[s4' tasks4'] [[e|u]|]] eqn:Ha4; [done| |done].
    intros [= <- _].
    apply session_awaitSend in Ha4.
    apply session_fields in Ha4 as (Hp4 & Hi4 & Ho4 & Hini4 & Hn4 & _).
    simpl in Hp4, Hi4, Ho4, Hini4, Hn4.
    rewrite Hp4, Hi4, Ho4, Hini4, Hn4, Hp, Hi, Ho, Hn. by rewrite Hcin, Hcout. }
  destruct H4 as (Hp & Hi & Ho & Hini & Hn).
  unfold updateAvailableTools, getAvailableTools. rewrite Hini. cbn [negb]. cbv zeta.
  destruct (awaitSend _ tasks4 _) as [[s5 tasks5] [[e|response]|]] eqn:Ha;
    [| |done].
  - intros [= <- _]. apply session_awaitSend in Ha.
    apply session_fields in Ha as (Hp5 & Hi5 & Ho5 & Hini5 & Hn5 & _).
    simpl in Hp5, Hi5, Ho5, Hini5, Hn5.
    rewrite Hp5, Hi5, Ho5, Hini5, Hn5, Hp, Hi, Ho, Hini, Hn.
    repeat split; lia.
  - apply session_awaitSend in Ha.
    apply session_fields in Ha as (Hp5 & Hi5 & Ho5 & Hini5 & Hn5 & _).
    simpl in Hp5, Hi5, Ho5, Hini5, Hn5.
    assert (H5 : process s5 = Some c /\ stdin s5 = true /\ stdout s5 = true /\
                 initialized s5 = true /\
                 nextMessageId s5 = (nextMessageId st + 2)%Z).
    { rewrite Hp5, Hi5, Ho5, Hini5, Hn5, Hp, Hi, Ho, Hini, Hn. repeat split; lia. }
    destruct response as [[]|]; try (by intros [= <- _]).
    + destruct (truthy (prop "tools" (JObj props))).
      * destruct (prop "tools" (JObj props)) as [[]|];
          try (by intros [= <- _]).
        destruct (tool_names items); by intros [= <- _].
      * by intros [= <- _].
Qed.

Lemma connect_returns_initialized_witness :
  let tasks :=
    alone
      [Written 0 None;
       Line (inr (JObj [("id", JNum 1);
                        ("result", JObj [("protocolVersion", JStr "0.1.0")])]));
       Written 1 None; Written 2 None;
       Line (inr (JObj [("id", JNum 2);
                        ("error", JObj [("message", JStr "no tools here")])]))] in
  let st' := (connect (Spawned (mkChild true true)) tasks fresh).1.1 in
  process st' = Some (mkChild true true) /\ stdin st' = true /\ stdout st' = true /\
  initialized st' = true /\ nextMessageId st' = 3%Z.
Proof.
  intros tasks st'.
  apply (connect_returns_initialized (mkChild true true) tasks fresh st' []).
  vm_compute. reflexivity.
Defined.

(* ===================================================================== *)
(** ** A client without its streams                                       *)
(* ===================================================================== *)

(** X9: a closed client refuses. After [close], [sendMessage] rejects at
    once with [Connection not established], sets no timer and queues
    nothing; [getAvailableTools] and [callTool] throw [Client not initialized]
    and [initialize] throws [Connection not established], each without
    touching the client or the tasks; and a second [close] changes
    nothing. *)
Theorem closed_client_refuses m toolName toolArgs tasks st :
  let closed := close st in
  let h := length (calls st) in
  calls (sendMessage m closed) =
    calls st ++ [mkCall m (Rejected not_established) None false] /\
  await h tasks (sendMessage m closed) =
    (sendMessage m closed, tasks, Some (inl not_established)) /\
  messageQueue (sendMessage m closed) = messageQueue st /\
  getAvailableTools tasks closed = (closed, tasks, Threw not_initialized) /\
  callTool toolName toolArgs tasks closed = (closed, tasks, Threw not_initialized) /\
  initialize tasks closed = (closed, tasks, Threw not_established) /\
  close closed = closed.
Proof.
  intros closed h. split; [done|].
  split; [|done].
  apply (await_settled h tasks _ (Rejected not_established)); [|done].
  unfold promise_of. simpl calls.
  by rewrite (list_lookup_middle (calls st) [] _ h eq_refl).
Qed.

(* ===================================================================== *)
(** ** Notifications and lines without an id                              *)
(* ===================================================================== *)

Lemma sent_lookup st h : sent st !! h = call_message <$> calls st !! h.
Proof.
  unfold sent. generalize (calls st). intros l. revert h.
  induction l as [|c l IH]; intros [|h]; simpl; auto.
Qed.

(** Invocation [h] sent a notification and its promise is pending, in a
    client whose queue holds requests only, each under its invocation. *)
Definition waiting (h : nat) (st : client) : Prop :=
  (forall pm, In pm (messageQueue st) ->
     is_Some (msg_id (pending_message pm)) /\
     sent st !! pending_call pm = Some (pending_message pm)) /\
  (exists m, sent st !! h = Some m /\ msg_id m = None) /\
  promise_of h st = Some Pending.

Lemma waiting_keeps h st st' :
  waiting h st -> keeps st st' -> promise_of h st' = promise_of h st ->
  waiting h st'.
Proof.
  intros (W1 & W2 & W3) (_ & Hs & Hq) Hp. split; [|split].
  - intros pm Hpm. rewrite Hs. auto.
  - by rewrite Hs.
  - by rewrite Hp.
Qed.

Lemma waiting_not_queued h st pm :
  waiting h st -> In pm (messageQueue st) -> pending_call pm <> h.
Proof.
  intros (W1 & (m & Hm & Hid) & _) Hpm Heq.
  destruct (W1 pm Hpm) as [[n Hn] Hl]. rewrite Heq in Hl. congruence.
Qed.

Lemma findIndex_requests q :
  (forall pm, In pm q -> is_Some (msg_id (pending_message pm))) ->
  findIndex None q = None.
Proof.
  induction q as [|pm q IH]; simpl; [done|]. intros H.
  destruct (H pm (or_introl eq_refl)) as [n ->].
  unfold same_id. rewrite bool_decide_eq_false_2 by done.
  rewrite IH; [done|]. intros pm' Hpm'. apply H. by right.
Qed.

Lemma waiting_written h h' error st :
  h' <> h -> waiting h st -> waiting h (written h' error st).
Proof.
  intros Hne W. eapply waiting_keeps; [exact W|apply keeps_written|].
  unfold written. destruct (calls st !! h') as [c|]; [|done].
  destruct (call_writing c); [|done].
  set (st1 := with_calls _ st).
  assert (H1 : promise_of h st1 = promise_of h st)
    by (by apply (promise_of_alter h (set_writing false) h')).
  destruct error as [e|].
  - by rewrite promise_of_settle, promise_of_clearTimeout.
  - destruct (msg_id (call_message c)); [done|].
    by rewrite promise_of_settle, promise_of_clearTimeout.
Qed.

Lemma waiting_processMessage h parsed st :
  waiting h st -> waiting h (processMessage parsed st).
Proof.
  intros W. eapply waiting_keeps; [exact W|apply keeps_processMessage|].
  assert (H : forall response, promise_of h (deliver response st) = promise_of h st).
  { intros response. unfold deliver.
    destruct (List.find _ _) as [pm|] eqn:Hfind; [|done].
    apply find_some in Hfind as [Hpm _].
    pose proof (waiting_not_queued h st pm W Hpm) as Hne.
    destruct (truthy _).
    - destruct (speakable _); [|done]. unfold pending_reject.
      change (promise_of h (with_queue ?q ?s)) with (promise_of h s).
      by rewrite promise_of_settle, promise_of_clearTimeout.
    - destruct (prop "result" response); [|done].
      unfold pending_resolve.
      change (promise_of h (with_queue ?q ?s)) with (promise_of h s).
      by rewrite promise_of_settle, promise_of_clearTimeout. }
  destruct parsed as [e|response]; [done|].
  destruct response; try done; apply H.
Qed.

Lemma waiting_timer_fires h h' st :
  waiting h st -> waiting h (timer_fires h' st).
Proof.
  intros W. eapply waiting_keeps; [exact W|apply keeps_timer_fires|].
  unfold timer_fires. destruct (calls st !! h') as [c|] eqn:Hc; [|done].
  destruct (decide (h' = h)) as [->|Hne].
  - destruct W as (W1 & (m & Hm & Hid) & _).
    rewrite sent_lookup, Hc in Hm. injection Hm as <-. rewrite Hid.
    rewrite findIndex_requests.
    + apply promise_of_clearTimeout.
    + intros pm Hpm. by destruct (W1 pm Hpm).
  - destruct (findIndex _ _).
    + rewrite promise_of_settle by done.
      change (promise_of h (with_queue ?q ?s)) with (promise_of h s).
      apply promise_of_clearTimeout.
    + apply promise_of_clearTimeout.
Qed.

Lemma waiting_fire_due h t hs st :
  waiting h st -> waiting h (fire_due t hs st).
Proof.
  revert st. induction hs as [|h' hs IH]; intros st W; simpl; [done|].
  fold (fire_due t hs (if due t st h' then timer_fires h' st else st)).
  apply IH. destruct (due t st h'); [by apply waiting_timer_fires|done].
Qed.

Lemma waiting_elapse h dt st : waiting h st -> waiting h (elapse dt st).
Proof.
  intros W. rewrite elapse_fire_due.
  eapply waiting_keeps; [apply (waiting_fire_due h), W|by apply keeps_fields|done].
Qed.

(** The events that are the write of invocation [h] calling back. *)
Definition writes_back (h : nat) (e : event) : bool :=
  match e with
  | Written h' _ => h' =? h
  | _ => false
  end.

Lemma waiting_react h e st :
  writes_back h e = false -> waiting h st -> waiting h (react e st).
Proof.
  destruct e as [h' error|parsed|dt]; simpl; intros He W.
  - apply waiting_written; [|done]. by apply Nat.eqb_neq.
  - by apply waiting_processMessage.
  - by apply waiting_elapse.
Qed.

Lemma waiting_perform h t st :
  forallb (fun e => negb (writes_back h e)) t = true ->
  waiting h st -> waiting h (perform t st).
Proof.
  unfold perform. revert st. induction t as [|e t IH]; intros st Hev W; simpl;
    [done|].
  simpl in Hev. apply andb_prop in Hev as [He Hev].
  apply IH; [done|]. apply waiting_react; [|done]. by apply negb_true_iff.
Qed.

Lemma perform_app t1 t2 st : perform (t1 ++ t2) st = perform t2 (perform t1 st).
Proof. unfold perform. by rewrite fold_left_app. Qed.

Lemma waiting_await h tasks st :
  forallb (forallb (fun e => negb (writes_back h e))) tasks = true ->
  waiting h st ->
  await h tasks st = (perform (concat tasks) st, [], None).
Proof.
  revert st. induction tasks as [|t tasks IH]; intros st Hev W; simpl.
  - destruct W as (_ & _ & ->). done.
  - simpl in Hev. apply andb_prop in Hev as [Ht Hev].
    pose proof W as (_ & _ & ->).
    rewrite perform_app. apply IH; [done|]. by apply waiting_perform.
Qed.

(** X10: a notification waits for its write, and for nothing else. On a
    connected client in use, a message without an id is not queued, and
    its promise stays pending through every response line and however much
    time passes, in whatever tasks, for as long as the write does not call
    back: its timer looks for a queue entry without an id, finds none and
    rejects nothing. *)
Theorem notification_waits_for_write m tasks st :
  in_use st -> stdin st = true -> stdout st = true ->
  msg_id m = None ->
  forallb (forallb (fun e => negb (writes_back (length (calls st)) e))) tasks
    = true ->
  messageQueue (sendMessage m st) = messageQueue st /\
  awaitSend m tasks st = (perform (concat tasks) (sendMessage m st), [], None).
Proof.
  intros [T1 T2]%in_use_tidy Hin Hout Hid Hev.
  set (c0 := mkCall m Pending (Some (now st + TIMEOUT)%N) true).
  assert (Hs1 : sendMessage m st = with_calls (calls st ++ [c0]) st).
  { unfold sendMessage. by rewrite Hin, Hout, Hid. }
  split; [by rewrite Hs1|].
  unfold awaitSend. apply waiting_await; [done|].
  rewrite Hs1. split; [|split].
  - intros pm Hpm. destruct (T2 pm Hpm) as [Hsome Hl]. split; [done|].
    unfold sent. simpl calls. rewrite map_app.
    rewrite lookup_app_l; [done|]. by apply lookup_lt_Some in Hl.
  - exists m. split; [|done]. unfold sent. simpl calls. rewrite map_app.
    apply list_lookup_middle. by rewrite length_map.
  - unfold promise_of. simpl calls.
    by rewrite (list_lookup_middle (calls st) [] c0 _ eq_refl).
Qed.

Lemma notification_waits_for_write_witness :
  let st := connected in
  let tasks := [[Elapse 30000];
                [Line (inr (JObj [("result", JNull)])); Written 0 None];
                [Elapse 60000]] in
  messageQueue (sendMessage initializedNotification st) = messageQueue st /\
  awaitSend initializedNotification tasks st =
    (perform (concat tasks) (sendMessage initializedNotification st), [], None).
Proof.
  intros st tasks.
  apply (notification_waits_for_write initializedNotification tasks st);
    try reflexivity.
  apply in_use_connected.
Defined.

(** X11: a line without a numeric id settles nothing. On a client in use,
    a parsed line whose [id] is absent or is no number (a notification or a
    log line of the server, say) finds no queue entry, and [processMessage]
    leaves the client as it is. *)
Theorem line_without_id_is_dropped response st :
  in_use st ->
  (forall n, prop "id" response <> Some (JNum n)) ->
  processMessage (inr response) st = st.
Proof.
  intros [_ T2]%in_use_tidy Hrid.
  apply processMessage_no_entry. intros r [= <-].
  assert (H : forall pm, In pm (messageQueue st) ->
                         id_matches (prop "id" response) pm = false).
  { intros pm Hpm. destruct (T2 pm Hpm) as [[n Hn] _].
    unfold id_matches. rewrite Hn.
    destruct (prop "id" response) as [[]|]; try done. by destruct (Hrid n0). }
  clear T2. induction (messageQueue st) as [|pm q IH]; simpl; [done|].
  rewrite (H pm) by (by left). apply IH. intros pm' Hpm'. apply H. by right.
Qed.

Lemma line_without_id_is_dropped_witness :
    let st := (callTool "search" (JObj []) [[Written 3 None]] connected).1.1 in
  let response := JObj [("method", JStr "notifications/message");
                        ("params", JObj [("level", JStr "info")])] in
  length (messageQueue st) = 1 /\ processMessage (inr response) st = st.
Proof.
  intros st response. split; [reflexivity|].
  apply (line_without_id_is_dropped response st).
  - apply use_callTool, in_use_connected.
  - by intros n.
Defined.

(** A connected client waits for the result of a tool call, sent under id
    3. A response with an [error] whose [message] is an object with a
    property [toString] changes nothing; the first response with a result
    resolves the call, and a second one changes nothing. *)
Lemma processMessage_first_response_witness :
  let st := (callTool "search" (JObj []) [[Written 3 None]] connected).1.1 in
  let odd := [("id", JNum 3);
              ("error", JObj [("message", JObj [("toString", JNum 0)])])] in
  let st' := processMessage
               (inr (JObj [("id", JNum 3); ("result", JStr "found")])) st in
  processMessage (inr (JObj odd)) st = st /\
  invoked st' = invoked st ++ [(3, Fulfilled (Some (JStr "found")))] /\
  messageQueue st' = [] /\
  processMessage (inr (JObj [("id", JNum 3); ("result", JStr "late")])) st' = st'.
Proof.
  intros st odd st'.
  assert (Hq : messageQueue st
               = [mkPending 3 (toolsCallMessage "search" (JObj []) 3)])
    by (vm_compute; reflexivity).
  assert (Hin : In (mkPending 3 (toolsCallMessage "search" (JObj []) 3))
                   (messageQueue st)) by (rewrite Hq; by left).
  assert (Huniq : forall pm', In pm' (messageQueue st) ->
            msg_id (pending_message pm') = Some 3%Z ->
            pm' = mkPending 3 (toolsCallMessage "search" (JObj []) 3)).
  { intros pm' Hpm' _. rewrite Hq in Hpm'. by destruct Hpm' as [<-|[]]. }
  split.
  - apply (proj2 (processMessage_first_response st _ 3 odd Hin eq_refl Huniq eq_refl));
      reflexivity.
  - destruct (proj1 (processMessage_first_response st _ 3
                       [("id", JNum 3); ("result", JStr "found")]
                       Hin eq_refl Huniq eq_refl))
      as (Hinvoked & Hqueue & _ & Hsecond).
    + right. split; [reflexivity|by eexists].
    + split; [exact Hinvoked|]. split.
      * fold st' in Hqueue. rewrite Hqueue. vm_compute. reflexivity.
      * apply (Hsecond [("id", JNum 3); ("result", JStr "late")]). reflexivity.
Defined.

End Client.

(* ===================================================================== *)
(** * MCPLLMBridge: one turn                                             *)
(* ===================================================================== *)

Module Bridge.
Import JS.

(** [{ id, function: { name, arguments } }], the arguments as JSON text. *)
Record toolCall := mkToolCall {
  tc_id        : string;
  tc_name      : string;
  tc_arguments : string
}.

(** What the model client answers. *)
Record response := mkResponse {
  content    : string;
  isToolCall : bool;
  toolCalls  : option (list toolCall)
}.

(** [{ tool_call_id, output }]; [output] is [undefined] when the tool's
    result was. *)
Record toolResult := mkToolResult {
  tool_call_id : string;
  output       : option string
}.

(** What [llmClient.invoke] is given: tool results, and the system message
    pushed after them on the last round. *)
Inductive chatMessage :=
| ToolOutput (r : toolResult)
| SystemMessage (text : string).

(** What the bridge asks of its collaborators, with what came back. *)
Inductive event :=
| Detect (message : string) (outcome : raised + option string)
| Instructions (tool : string) (outcome : raised + option string)
| Prompt (prompt : string) (outcome : raised + response)
| Invoke (messages : list chatMessage) (outcome : raised + response)
| ToolCall (name : string) (arguments : json) (outcome : thrown + value)
| Dispatched (requested : list toolCall) (results : list toolResult).

Definition maxIterations : nat := 3.

Definition nl : string := String "010"%char "".

(** [response.isToolCall && response.toolCalls?.length]. *)
Definition requestsTools (r : response) : bool :=
  isToolCall r &&
  match toolCalls r with
  | Some calls => negb (Nat.eqb (length calls) 0)
  | None => false
  end.

(** [`${result.output}`]. *)
Definition show_output (o : option string) : string :=
  match o with Some s => s | None => "undefined" end.

(** The [forEach] that appends [`Result ${index + 1}: ${result.output}\n\n`]. *)
Fixpoint append_results (index : nat) (results : list toolResult) (acc : string)
  : string :=
  match results with
  | [] => acc
  | result :: rest =>
      append_results (S index) rest
        (acc +:+ "Result " +:+ pretty (index + 1) +:+ ": "
             +:+ show_output (output result) +:+ nl +:+ nl)
  end.

Definition compiledResults (allToolResults : list toolResult) : string :=
  match allToolResults with
  | [] => ""
  | _ => append_results 0 allToolResults
           ("Here are the search results I've found:" +:+ nl +:+ nl)
  end.

Definition finalPrompt (message : string) (allToolResults : list toolResult)
  : string :=
  message +:+ nl +:+ nl +:+ compiledResults allToolResults +:+ nl +:+ nl +:+
  "Based on these search results, please provide a comprehensive answer. Do not make another search request.".

(** The forcing prompt as the specification words it, to be compared with
    [finalPrompt]: the user's message, then every accumulated tool result,
    numbered from 1 in the order of accumulation, then the instruction to
    answer without a further request. With no result there is no list. *)
Definition instruction : string :=
  "Based on these search results, please provide a comprehensive answer. Do not make another search request.".

Fixpoint numbered (index : nat) (results : list toolResult) : string :=
  match results with
  | [] => ""
  | result :: rest =>
      "Result " +:+ pretty (index + 1) +:+ ": " +:+ show_output (output result)
      +:+ nl +:+ nl +:+ numbered (S index) rest
  end.

Definition forcing_prompt (message : string) (results : list toolResult)
  : string :=
  message +:+ nl +:+ nl +:+
  (match results with
   | [] => ""
   | _ => "Here are the search results I've found:" +:+ nl +:+ nl
          +:+ numbered 0 results
   end) +:+ nl +:+ nl +:+ instruction.

(** [part] occurs in [whole]. *)
Definition embeds (whole part : string) : Prop :=
  exists before after, whole = before +:+ part +:+ after.

Lemma append_assoc (a b c : string) : (a +:+ b) +:+ c = a +:+ b +:+ c.
Proof.
  induction a as [|x a IH]; [done|].
  change (String x ((a +:+ b) +:+ c) = String x (a +:+ b +:+ c)). by f_equal.
Qed.

Lemma append_nil_r (a : string) : a +:+ "" = a.
Proof.
  induction a as [|x a IH]; [done|].
  change (String x (a +:+ "") = String x a). by f_equal.
Qed.

Lemma append_results_numbered index results acc :
  append_results index results acc = acc +:+ numbered index results.
Proof.
  revert index acc. induction results as [|result rest IH]; intros index acc.
  - cbn [append_results numbered]. by rewrite append_nil_r.
  - cbn [append_results numbered]. rewrite IH. by rewrite !append_assoc.
Qed.

(** The prompt of the code is the prompt of the specification. *)
Lemma finalPrompt_forcing message results :
  finalPrompt message results = forcing_prompt message results.
Proof.
  unfold finalPrompt, forcing_prompt, compiledResults, instruction.
  destruct results as [|result rest]; [done|].
  rewrite append_results_numbered. by rewrite !append_assoc.
Qed.

Lemma embeds_numbered index results result :
  In result results ->
  embeds (numbered index results) (show_output (output result)).
Proof.
  revert index. induction results as [|first rest IH]; intros index; [done|].
  intros [->|Hin].
  - exists ("Result " +:+ pretty (index + 1) +:+ ": "),
           (nl +:+ nl +:+ numbered (S index) rest).
    cbn [numbered]. by rewrite !append_assoc.
  - destruct (IH (S index) Hin) as (before & after & E).
    exists ("Result " +:+ pretty (index + 1) +:+ ": "
            +:+ show_output (output first) +:+ nl +:+ nl +:+ before), after.
    cbn [numbered]. rewrite E. by rewrite !append_assoc.
Qed.

(** The prompt of the specification holds the user's message, the output of
    every result, and the instruction. *)
Lemma forcing_prompt_embeds message results :
  embeds (forcing_prompt message results) message /\
  (forall result, In result results ->
     embeds (forcing_prompt message results) (show_output (output result))) /\
  embeds (forcing_prompt message results) instruction.
Proof.
  unfold forcing_prompt. split; [|split].
  - by exists "", (nl +:+ nl +:+
                   (match results with
                    | [] => ""
                    | _ => "Here are the search results I've found:" +:+ nl +:+ nl
                           +:+ numbered 0 results
                    end) +:+ nl +:+ nl +:+ instruction).
  - intros result Hin.
    destruct (embeds_numbered 0 results result Hin) as (before & after & E).
    destruct results as [|first rest]; [done|]. rewrite E.
    exists (message +:+ nl +:+ nl +:+ "Here are the search results I've found:"
            +:+ nl +:+ nl +:+ before), (after +:+ nl +:+ nl +:+ instruction).
    by rewrite !append_assoc.
  - exists (message +:+ nl +:+ nl +:+
            (match results with
             | [] => ""
             | _ => "Here are the search results I've found:" +:+ nl +:+ nl
                    +:+ numbered 0 results
             end) +:+ nl +:+ nl), "".
    rewrite !append_assoc.
    by rewrite append_nil_r.
Qed.

Definition lastOpportunity : chatMessage :=
  SystemMessage "This is your last opportunity to use tools. After processing these results, please provide a final answer to the user's question without requesting additional tool calls.".

Section Collaborators.

(** The world of the collaborators: the model client, the tool registry and
    the MCP clients with their peers. The model client and the registry are
    not code of [src/]: what they throw is any value. *)
Context {W : Type} {mcp : Type}.
Variable detectToolFromPrompt : string -> W -> (raised + option string) * W.
Variable getToolInstructions : string -> W -> (raised + option string) * W.
Variable setSystemPrompt : string -> W -> W.
Variable invokeWithPrompt : string -> W -> (raised + response) * W.
Variable invoke : list chatMessage -> W -> (raised + response) * W.
(** [Promise.race([mcpClient.callTool(name, args), timeoutPromise])], awaited. *)
Variable callTool : mcp -> string -> json -> W -> (thrown + value) * W.
Variable JSON_parse : string -> thrown + json.
Variable JSON_stringify : json -> string.
(** The field [toolToMcp], filled by [initialize]: the properties of its
    own, and the client that an assignment under the name [__proto__] made
    its prototype, where there was one; the prototype is [Object.prototype]
    otherwise. *)
Variable toolToMcp : gmap string mcp.
Variable prototype : option mcp.
(** Is the field [name] of a client truthy? *)
Variable fieldOf : mcp -> string -> W -> bool.

Record state := mkState {
  world : W;
  trace : list event      (* what was asked so far, oldest first *)
}.

(** ** Computations that may throw *)

Definition M (A : Type) : Type := state -> (raised + A) * state.

Definition ret {A} (a : A) : M A := fun st => (inr a, st).
Definition throw {A} (e : raised) : M A := fun st => (inl e, st).
Definition bind {A B} (m : M A) (k : A -> M B) : M B :=
  fun st => match m st with
            | (inr a, st') => k a st'
            | (inl e, st') => (inl e, st')
            end.
Definition try_catch {A} (m : M A) (handler : raised -> M A) : M A :=
  fun st => match m st with
            | (inr a, st') => (inr a, st')
            | (inl e, st') => handler e st'
            end.

Notation "'let*' x := m 'in' k" := (bind m (fun x => k))
  (at level 10, x name, m at level 100, k at level 200).

(** A call to a collaborator, written down in the trace with its outcome. *)
Definition ask {A} (f : W -> (raised + A) * W) (ev : raised + A -> event) : M A :=
  fun st => let '(r, w) := f (world st) in
            (r, mkState w (trace st ++ [ev r])).

(** A call to code of [src/], which throws [Error] objects only. *)
Definition askClient {A} (f : W -> (thrown + A) * W) (ev : thrown + A -> event)
  : M A :=
  fun st => let '(r, w) := f (world st) in
            (match r with inl e => inl (ErrorObject e) | inr a => inr a end,
             mkState w (trace st ++ [ev r])).

Definition tell (ev : event) : M unit :=
  fun st => (inr tt, mkState (world st) (trace st ++ [ev])).

Definition lift {A} (r : thrown + A) : M A :=
  match r with inr a => ret a | inl e => throw (ErrorObject e) end.

(** ** [handleToolCalls] *)

(** The properties that every object inherits from [Object.prototype], all
    of them functions but [__proto__], which is read below. *)
Definition objectMethods : list string :=
  ["constructor"; "hasOwnProperty"; "isPrototypeOf"; "propertyIsEnumerable";
   "toLocaleString"; "toString"; "valueOf"; "__defineGetter__";
   "__defineSetter__"; "__lookupGetter__"; "__lookupSetter__"].

(** The methods and the fields of an [MCPClient]. *)
Definition clientMethods : list string :=
  ["connect"; "initialize"; "updateAvailableTools"; "handleResponse";
   "processMessage"; "sendMessage"; "getAvailableTools"; "callTool"; "close"].
Definition clientFields : list string :=
  ["process"; "stdin"; "stdout"; "initialized"; "messageQueue";
   "nextMessageId"; "serverCapabilities"; "serverVersion"; "availableTools";
   "responseBuffer"; "serverParams"].

Definition among (name : string) (names : list string) : bool :=
  existsb (String.eqb name) names.

(** What [this.toolToMcp[requestedName]] finds: a client, or something else,
    of which the code asks only whether it is truthy. *)
Inductive found :=
| AClient (mcpClient : mcp)
| NoClient (truthy : bool).

(** The client that [this.toolToMcp[name]] gives, if it gives one: under
    [__proto__] the prototype, under another name the property of its own. *)
Definition owner (name : string) : option mcp :=
  if String.eqb name "__proto__" then prototype else toolToMcp !! name.

(** What a name finds that is no property of [toolToMcp] itself: a field or
    a method of the client that is its prototype, or a method of
    [Object.prototype]. *)
Definition inherited (name : string) (w : W) : bool :=
  match prototype with
  | Some client =>
      if among name clientFields then fieldOf client name w
      else among name clientMethods || among name objectMethods
  | None => among name objectMethods
  end.

(** [this.toolToMcp[requestedName]]. With no client for a prototype,
    [__proto__] gives [Object.prototype]. *)
Definition lookup (name : string) (w : W) : found :=
  match owner name with
  | Some mcpClient => AClient mcpClient
  | None => NoClient (String.eqb name "__proto__" || inherited name w)
  end.

Definition no_function : thrown := TypeError "mcpClient.callTool is not a function".

(** The [try] block for one [toolCall]. *)
Definition callOne (toolCall : toolCall) : M toolResult :=
  let requestedName := tc_name toolCall in
  fun st =>
    match lookup requestedName (world st) with
    | NoClient false =>
        throw (ErrorObject (Error ("No MCP found for tool: " +:+ requestedName))) st
    | NoClient true =>
        (let* toolArgs := lift (JSON_parse (tc_arguments toolCall)) in
         throw (ErrorObject no_function)) st
    | AClient mcpClient =>
        (let* toolArgs := lift (JSON_parse (tc_arguments toolCall)) in
         let* result := askClient (callTool mcpClient requestedName toolArgs)
                       (ToolCall requestedName toolArgs) in
         ret (mkToolResult (tc_id toolCall)
                (match result with
                 | Some (JStr s) => Some s
                 | Some v => Some (JSON_stringify v)
                 | None => None
                 end))) st
    end.

(** The [catch] of the loop: an entry with the text of the error, when that
    text can be made. *)
Definition failed (toolCall : toolCall) (error : raised) : M toolResult :=
  match textOf error with
  | inr text => ret (mkToolResult (tc_id toolCall) (Some ("Error: " +:+ text)))
  | inl e => throw (ErrorObject e)
  end.

(** The [for] loop: each round pushes one entry, from the [try] or from the
    [catch]. *)
Fixpoint forEachToolCall (toolCalls : list toolCall) : M (list toolResult) :=
  match toolCalls with
  | [] => ret []
  | toolCall :: rest =>
      let* entry := try_catch (callOne toolCall) (failed toolCall) in
      let* entries := forEachToolCall rest in
      ret (entry :: entries)
  end.

Definition handleToolCalls (toolCalls : list toolCall) : M (list toolResult) :=
  let* toolResponses := forEachToolCall toolCalls in
  let* _ := tell (Dispatched toolCalls toolResponses) in
  ret toolResponses.

(** ** [processMessage] *)

(** [JSON.stringify(toolCalls.map(tc => ({ name, args })))]. *)
Definition signature (calls : list toolCall) : string :=
  JSON_stringify
    (JArr (map (fun tc => JObj [("name", JStr (tc_name tc));
                                ("args", JStr (tc_arguments tc))]) calls)).

(** The block, written twice in [processMessage], that compiles the results
    and asks for a final answer. *)
Definition forcedAnswer (message : string) (allToolResults : list toolResult)
  : M string :=
  let* finalResponse := ask (invokeWithPrompt (finalPrompt message allToolResults))
                       (Prompt (finalPrompt message allToolResults)) in
  ret (content finalResponse).

(** How one round of the [while] loop ends. *)
Inductive round :=
| Return (answer : string)
| Continue (response : response) (seenToolCalls : gset string)
           (allToolResults : list toolResult).

(** The body of the [while] loop. *)
Definition iteration (message : string) (response : response)
  (iterationCount : nat) (seenToolCalls : gset string)
  (allToolResults : list toolResult) : M round :=
  let requested := default [] (toolCalls response) in
  let currentToolCall := signature requested in
  if decide (currentToolCall ∈ seenToolCalls) then
    let* answer := forcedAnswer message allToolResults in
    ret (Return answer)
  else
    let seenToolCalls := seenToolCalls ∪ {[currentToolCall]} in
    let iterationCount := S iterationCount in
    let* toolResponses := handleToolCalls requested in
    let allToolResults := allToolResults ++ toolResponses in
    let messages :=
      if (maxIterations - 1 <=? iterationCount)%nat
      then map ToolOutput toolResponses ++ [lastOpportunity]
      else map ToolOutput toolResponses in
    let* response := ask (invoke messages) (Invoke messages) in
    ret (Continue response seenToolCalls allToolResults).

(** After the loop. *)
Definition finish (message : string) (response : response)
  (allToolResults : list toolResult) : M string :=
  if requestsTools response then forcedAnswer message allToolResults
  else ret (content response).

(** The [while] loop and what follows it. *)
Equations? resume (message : string) (response : response)
  (iterationCount : nat) (seenToolCalls : gset string)
  (allToolResults : list toolResult) (st : state) : (raised + string) * state
  by wf (maxIterations - iterationCount) lt :=
  resume message response iterationCount seenToolCalls allToolResults st
    with inspect
           (requestsTools response && (iterationCount <? maxIterations)%nat) := {
    | exist _ true Hcond =>
        match iteration message response iterationCount seenToolCalls
                        allToolResults st with
        | (inl error, st') => (inl error, st')
        | (inr (Return answer), st') => (inr answer, st')
        | (inr (Continue response' seen' results'), st') =>
            resume message response' (S iterationCount) seen' results' st'
        end
    | exist _ false _ => finish message response allToolResults st
  }.
Proof.
  apply andb_prop in Hcond as [_ Hlt]. apply Nat.ltb_lt in Hlt. lia.
Qed.

Definition truthy_string (s : option string) : bool :=
  match s with
  | Some s => negb (String.eqb s "")
  | None => false
  end.

(** [this.llmClient.systemPrompt = instructions]. *)
Definition assignSystemPrompt (instructions : string) : M unit :=
  fun st => (inr tt, mkState (setSystemPrompt instructions (world st)) (trace st)).

(** The first lines of the [try] block: the instructions of a detected tool
    become the system prompt. *)
Definition selectInstructions (message : string) : M unit :=
  let* detectedTool := ask (detectToolFromPrompt message) (Detect message) in
  if truthy_string detectedTool then
    let tool := default "" detectedTool in
    let* instructions := ask (getToolInstructions tool) (Instructions tool) in
    if truthy_string instructions
    then assignSystemPrompt (default "" instructions)
    else ret tt
  else ret tt.

(** The [try] block of [processMessage]. *)
Definition turn (message : string) : M string :=
  let* _ := selectInstructions message in
  let* response := ask (invokeWithPrompt message) (Prompt message) in
  resume message response 0 ∅ [].

(** The [catch] of [processMessage]: the text that is returned, when it can
    be made; the promise is rejected with what the conversion throws
    otherwise. *)
Definition caught (error : raised) : thrown + string :=
  match textOf error with
  | inr text => inr ("Error processing message: " +:+ text)
  | inl e => inl e
  end.

Definition processMessage (message : string) (st : state)
  : (thrown + string) * state :=
  match turn message st with
  | (inr answer, st') => (inr answer, st')
  | (inl error, st') => (caught error, st')
  end.

(** ** Reading a trace *)

(** The rounds of tool dispatch in a trace. *)
Fixpoint rounds (events : list event) : nat :=
  match events with
  | [] => 0
  | Dispatched _ _ :: rest => S (rounds rest)
  | _ :: rest => rounds rest
  end.

(** The exception a collaborator threw at the bridge, where the bridge has
    no [catch] of its own around the call. *)
Definition thrown_by (ev : event) : option raised :=
  match ev with
  | Detect _ (inl e) | Instructions _ (inl e)
  | Prompt _ (inl e) | Invoke _ (inl e) => Some e
  | _ => None
  end.

Definition is_tool_call (ev : event) : bool :=
  match ev with ToolCall _ _ _ => true | _ => false end.

Lemma rounds_app l1 l2 : rounds (l1 ++ l2) = rounds l1 + rounds l2.
Proof.
  induction l1 as [|ev l1 IH]; simpl; [done|].
  destruct ev; simpl; lia.
Qed.

Lemma rounds_tool_calls l : forallb is_tool_call l = true -> rounds l = 0.
Proof.
  induction l as [|ev l IH]; simpl; [done|].
  intros [Hev Hl]%andb_prop. destruct ev; try done; auto.
Qed.

(** ** [handleToolCalls] *)

(** The text of the entry of a call that failed. *)
Definition failure (error : thrown) : option string :=
  Some ("Error: " +:+ errorText error).

(** What the entry for [toolCall] holds, given the calls [made] to MCP
    clients during the batch and the world [w] in which its name was looked
    up. *)
Definition entry_at (w : W) (made : list event) (toolCall : toolCall)
  (entry : toolResult) : Prop :=
  tool_call_id entry = tc_id toolCall /\
  match lookup (tc_name toolCall) w with
  | NoClient false =>
      output entry = Some ("Error: No MCP found for tool: " +:+ tc_name toolCall)
  | NoClient true =>
      match JSON_parse (tc_arguments toolCall) with
      | inl error => output entry = failure error
      | inr _ => output entry = failure no_function
      end
  | AClient _ =>
      match JSON_parse (tc_arguments toolCall) with
      | inl error => output entry = failure error
      | inr toolArgs =>
          exists outcome,
            In (ToolCall (tc_name toolCall) toolArgs outcome) made /\
            output entry =
              match outcome with
              | inl error => failure error
              | inr (Some (JStr s)) => Some s
              | inr (Some v) => Some (JSON_stringify v)
              | inr None => None
              end
      end
  end.

Definition entry_for (made : list event) (toolCall : toolCall) (entry : toolResult)
  : Prop :=
  exists w, entry_at w made toolCall entry.

(** Only the fields of a client that was made the prototype let a lookup
    depend on the world. *)
Lemma lookup_world name w w' :
  prototype = None \/ among name clientFields = false ->
  lookup name w = lookup name w'.
Proof.
  unfold lookup, inherited. destruct (owner name); [done|].
  intros [->|H]; [done|]. destruct prototype; [by rewrite H|done].
Qed.

Lemma entry_for_more made made' toolCall entry :
  entry_for made toolCall entry ->
  (forall ev, In ev made -> In ev made') ->
  entry_for made' toolCall entry.
Proof.
  intros (w & Hid & H) Hsub. exists w. split; [done|].
  destruct (lookup (tc_name toolCall) w) as [mcpClient|[]]; [|done|done].
  destruct (JSON_parse (tc_arguments toolCall)); [done|].
  destruct H as (outcome & Hin & Hout). eauto.
Qed.

Lemma callOne_entry toolCall st :
  exists entry st' made,
    try_catch (callOne toolCall) (failed toolCall) st = (inr entry, st') /\
    trace st' = trace st ++ made /\
    forallb is_tool_call made = true /\
    entry_at (world st) made toolCall entry.
Proof.
  unfold try_catch, callOne, entry_at, failed.
  destruct (lookup (tc_name toolCall) (world st)) as [mcpClient|[]]; simpl.
  - unfold bind at 1.
    destruct (JSON_parse (tc_arguments toolCall)) as [error|toolArgs]; simpl.
    + eexists _, st, []. rewrite app_nil_r. repeat split; done.
    + unfold bind, askClient.
      destruct (callTool mcpClient (tc_name toolCall) toolArgs (world st))
        as [[error|result] w] eqn:Hcall; simpl.
      * eexists _, _, [_]. repeat split; try done.
        eexists (inl error). split; [by left|done].
      * eexists _, _, [_]. repeat split; try done.
        eexists (inr result). split; [by left|].
        simpl. by destruct result as [[]|].
  - unfold bind at 1.
    destruct (JSON_parse (tc_arguments toolCall)) as [error|toolArgs]; simpl;
      eexists _, st, []; rewrite app_nil_r; repeat split; done.
  - eexists _, st, []. rewrite app_nil_r. repeat split; done.
Qed.

Lemma forEachToolCall_entries toolCalls st :
  exists entries st' made,
    forEachToolCall toolCalls st = (inr entries, st') /\
    trace st' = trace st ++ made /\
    forallb is_tool_call made = true /\
    Forall2 (entry_for made) toolCalls entries.
Proof.
  revert st. induction toolCalls as [|toolCall rest IH]; intros st; simpl.
  - exists [], st, []. rewrite app_nil_r. repeat split; constructor.
  - destruct (callOne_entry toolCall st) as (entry & st1 & made1 & H1 & T1 & C1 & E1).
    destruct (IH st1) as (entries & st2 & made2 & H2 & T2 & C2 & E2).
    exists (entry :: entries), st2, (made1 ++ made2).
    unfold bind at 1. rewrite H1. unfold bind at 1. rewrite H2. simpl.
    split; [done|]. split; [by rewrite T2, T1, app_assoc|].
    split; [by rewrite forallb_app, C1, C2|].
    constructor.
    + eapply entry_for_more; [by exists (world st)|]. intros ev ?. apply in_or_app. by left.
    + eapply Forall2_impl; [exact E2|]. intros tc e He.
      eapply entry_for_more; [exact He|]. intros ev ?. apply in_or_app. by right.
Qed.

(** The trace of a batch: the calls made to MCP clients, then the round. *)
Lemma handleToolCalls_trace toolCalls st :
  exists toolResponses st' made,
    handleToolCalls toolCalls st = (inr toolResponses, st') /\
    trace st' = trace st ++ made ++ [Dispatched toolCalls toolResponses] /\
    forallb is_tool_call made = true.
Proof.
  destruct (forEachToolCall_entries toolCalls st)
    as (entries & st1 & made & H1 & T1 & C1 & _).
  exists entries, (mkState (world st1) (trace st1 ++ [Dispatched toolCalls entries])), made.
  unfold handleToolCalls, bind, tell. rewrite H1. simpl.
  split; [done|]. split; [by rewrite T1, app_assoc|done].
Qed.

(** X22: [handleToolCalls] does not throw; it returns one entry per
    requested call, in the order of the requests, each under the id of its
    call. The entry of a call that failed holds ["Error: "] followed by the
    text of the error: ["No MCP found for tool: <name>"] for a name under
    which the lookup finds nothing truthy, the parser's error for arguments
    that are no JSON, the error of the MCP call (its time limit included)
    when that call threw, and the error of calling [callTool] on what the
    lookup found when that is truthy and no client. The whole batch is one
    round in the trace. *)
Theorem handleToolCalls_entries toolCalls st :
  exists entries st' made,
    handleToolCalls toolCalls st = (inr entries, st') /\
    trace st' = trace st ++ made ++ [Dispatched toolCalls entries] /\
    forallb is_tool_call made = true /\
    length entries = length toolCalls /\
    Forall2 (entry_for made) toolCalls entries.
Proof.
  destruct (forEachToolCall_entries toolCalls st)
    as (entries & st1 & made & H1 & T1 & C1 & E1).
  exists entries, (mkState (world st1) (trace st1 ++ [Dispatched toolCalls entries])), made.
  unfold handleToolCalls, bind, tell. rewrite H1. simpl.
  split; [done|]. split; [by rewrite T1, app_assoc|]. split; [done|].
  split; [|done]. symmetry. by eapply Forall2_length.
Qed.

(** ** The loop *)

(** The answer a forcing prompt ends the turn with. *)
Definition forced_result (outcome : raised + response) : raised + string :=
  match outcome with
  | inr finalResponse => inr (content finalResponse)
  | inl error => inl error
  end.

Lemma forcedAnswer_run message allToolResults st :
  forcedAnswer message allToolResults st =
  let '(outcome, w) :=
    invokeWithPrompt (finalPrompt message allToolResults) (world st) in
  (forced_result outcome,
   mkState w (trace st ++ [Prompt (finalPrompt message allToolResults) outcome])).
Proof.
  unfold forcedAnswer, bind, ask.
  destruct (invokeWithPrompt _ (world st)) as [[error|finalResponse] w]; done.
Qed.

(** The loop, one test of its condition unfolded. *)
Lemma resume_step message response iterationCount seenToolCalls allToolResults st :
  resume message response iterationCount seenToolCalls allToolResults st =
  if requestsTools response && (iterationCount <? maxIterations)%nat then
    match iteration message response iterationCount seenToolCalls
                    allToolResults st with
    | (inl error, st') => (inl error, st')
    | (inr (Return answer), st') => (inr answer, st')
    | (inr (Continue response' seen' results'), st') =>
        resume message response' (S iterationCount) seen' results' st'
    end
  else finish message response allToolResults st.
Proof.
  rewrite resume_equation_1. unfold inspect.
  enough (H : forall b (e : requestsTools response
                             && (iterationCount <? maxIterations)%nat = b),
             resume_unfold_clause_1 message response iterationCount (exist _ b e)
               seenToolCalls allToolResults st =
             if b then
               match iteration message response iterationCount seenToolCalls
                               allToolResults st with
               | (inl error, st') => (inl error, st')
               | (inr (Return answer), st') => (inr answer, st')
               | (inr (Continue response' seen' results'), st') =>
                   resume message response' (S iterationCount) seen' results' st'
               end
             else finish message response allToolResults st) by apply H.
  intros [] e; reflexivity.
Qed.

Lemma resume_done message response iterationCount seenToolCalls allToolResults st :
  requestsTools response = false ->
  resume message response iterationCount seenToolCalls allToolResults st
  = (inr (content response), st).
Proof. intros H. rewrite resume_step. unfold finish. by rewrite H. Qed.

(** The two ways to a forcing prompt: a signature seen before, whatever the
    count of rounds, and the count at its ceiling. *)
Lemma resume_forced message response iterationCount seenToolCalls allToolResults st :
  requestsTools response = true ->
  signature (default [] (toolCalls response)) ∈ seenToolCalls
  \/ maxIterations <= iterationCount ->
  resume message response iterationCount seenToolCalls allToolResults st
  = forcedAnswer message allToolResults st.
Proof.
  intros Hreq Hwhy. rewrite resume_step, Hreq. simpl.
  destruct (Nat.ltb_spec iterationCount maxIterations) as [Hlt|Hge].
  - destruct Hwhy as [Hseen|?]; [|lia].
    unfold iteration. rewrite decide_True by done.
    unfold bind. destruct (forcedAnswer message allToolResults st) as [[]]; done.
  - unfold finish. by rewrite Hreq.
Qed.

(** The messages of a round, the last opportunity announced from the round
    before the last on. *)
Definition round_messages (iterationCount : nat) (toolResponses : list toolResult)
  : list chatMessage :=
  if (maxIterations - 1 <=? S iterationCount)%nat
  then map ToolOutput toolResponses ++ [lastOpportunity]
  else map ToolOutput toolResponses.

(** A round that dispatches. *)
Lemma resume_round message response iterationCount seenToolCalls allToolResults st :
  requestsTools response = true ->
  iterationCount < maxIterations ->
  signature (default [] (toolCalls response)) ∉ seenToolCalls ->
  exists toolResponses st1 made,
    handleToolCalls (default [] (toolCalls response)) st = (inr toolResponses, st1) /\
    trace st1 = trace st ++ made
                ++ [Dispatched (default [] (toolCalls response)) toolResponses] /\
    forallb is_tool_call made = true /\
    let messages := round_messages iterationCount toolResponses in
    resume message response iterationCount seenToolCalls allToolResults st =
    match invoke messages (world st1) with
    | (inl error, w) =>
        (inl error, mkState w (trace st1 ++ [Invoke messages (inl error)]))
    | (inr response', w) =>
        resume message response' (S iterationCount)
          (seenToolCalls ∪ {[signature (default [] (toolCalls response))]})
          (allToolResults ++ toolResponses)
          (mkState w (trace st1 ++ [Invoke messages (inr response')]))
    end.
Proof.
  intros Hreq Hlt Hnew.
  destruct (handleToolCalls_trace (default [] (toolCalls response)) st)
    as (toolResponses & st1 & made & Hh & Ht & Hm).
  exists toolResponses, st1, made. repeat split; try done.
  rewrite resume_step, Hreq. apply Nat.ltb_lt in Hlt. rewrite Hlt. simpl.
  unfold iteration. rewrite decide_False by done.
  unfold bind at 1. rewrite Hh. fold (round_messages iterationCount toolResponses).
  unfold bind, ask.
  destruct (invoke _ (world st1)) as [[error|response'] w]; done.
Qed.

(** What a run adds to the trace: its rounds are bounded by what is left of
    the budget, and an exception it ends with is the one a collaborator threw
    last. *)
Definition bounded_run (st : state) (budget : nat)
  (run : (raised + string) * state) : Prop :=
  exists new,
    trace run.2 = trace st ++ new /\
    rounds new <= budget /\
    forall error, run.1 = inl error ->
      exists before ev, new = before ++ [ev] /\ thrown_by ev = Some error.

Lemma forcedAnswer_bounded message allToolResults st budget :
  bounded_run st budget (forcedAnswer message allToolResults st).
Proof.
  rewrite forcedAnswer_run.
  destruct (invokeWithPrompt _ (world st)) as [outcome w].
  exists [Prompt (finalPrompt message allToolResults) outcome]. simpl.
  split; [done|]. split; [lia|].
  intros error Herr. exists [], (Prompt (finalPrompt message allToolResults) outcome).
  split; [done|]. destruct outcome; simpl in *; congruence.
Qed.

Lemma resume_bounded message response iterationCount seenToolCalls allToolResults st :
  bounded_run st (maxIterations - iterationCount)
    (resume message response iterationCount seenToolCalls allToolResults st).
Proof.
  remember (maxIterations - iterationCount) as k eqn:Hk.
  revert response iterationCount seenToolCalls allToolResults st Hk.
  induction k as [k IH] using lt_wf_ind.
  intros response iterationCount seenToolCalls allToolResults st ->.
  destruct (requestsTools response) eqn:Hreq.
  2:{ rewrite resume_done by done. exists []. rewrite app_nil_r.
      split; [done|]. split; [simpl; lia|]. intros error [=]. }
  destruct (decide (signature (default [] (toolCalls response)) ∈ seenToolCalls))
    as [Hseen|Hnew].
  { rewrite resume_forced by auto. apply forcedAnswer_bounded. }
  destruct (Nat.lt_ge_cases iterationCount maxIterations) as [Hlt|Hge].
  2:{ rewrite resume_forced by auto. apply forcedAnswer_bounded. }
  destruct (resume_round message response iterationCount seenToolCalls
              allToolResults st Hreq Hlt Hnew)
    as (toolResponses & st1 & made & _ & Ht & Hm & Hres).
  cbv zeta in Hres. rewrite Hres. clear Hres.
  pose proof (rounds_tool_calls made Hm) as Hr.
  destruct (invoke _ (world st1)) as [[error|response'] w].
  - eexists (made ++ [Dispatched _ toolResponses; Invoke _ (inl error)]).
    simpl. rewrite Ht, <- !app_assoc. split; [done|].
    split; [rewrite rounds_app, Hr; simpl; lia|].
    intros error' [= <-].
    eexists (made ++ [Dispatched _ toolResponses]), _.
    rewrite <- app_assoc. split; [reflexivity|done].
  - set (st2 := mkState w _).
    destruct (IH (maxIterations - S iterationCount) ltac:(lia) response'
                (S iterationCount)
                (seenToolCalls ∪ {[signature (default [] (toolCalls response))]})
                (allToolResults ++ toolResponses) st2 eq_refl)
      as (new & Hnew' & Hrounds & Herr).
    eexists (made ++ [Dispatched _ toolResponses; Invoke _ (inr response')] ++ new).
    split; [rewrite Hnew'; subst st2; simpl trace; by rewrite Ht, <- !app_assoc|].
    split.
    + rewrite rounds_app, Hr. simpl. lia.
    + intros error E. destruct (Herr error E) as (before & ev & -> & Hev).
      eexists (made ++ Dispatched _ toolResponses :: Invoke _ (inr response') :: before), ev.
      split; [|done]. by rewrite <- !app_assoc.
Qed.

(** The model's first reply of the turn. *)
Definition first_reply (message : string) : M response :=
  let* _ := selectInstructions message in
  ask (invokeWithPrompt message) (Prompt message).

Lemma turn_first_reply message st :
  turn message st =
  match first_reply message st with
  | (inr response, st1) => resume message response 0 ∅ [] st1
  | (inl error, st1) => (inl error, st1)
  end.
Proof.
  unfold turn, first_reply, bind.
  destruct (selectInstructions message st) as [[error|[]] st0]; [done|].
  destruct (ask _ _ st0) as [[error|response] st1]; done.
Qed.

Lemma first_reply_trace message st r st1 :
  first_reply message st = (r, st1) ->
  exists new,
    trace st1 = trace st ++ new /\
    rounds new = 0 /\
    forall error, r = inl error ->
      exists before ev, new = before ++ [ev] /\ thrown_by ev = Some error.
Proof.
  assert (Hlast : forall (prefix : list event) st0,
            trace st0 = trace st ++ prefix -> rounds prefix = 0 ->
            ask (invokeWithPrompt message) (Prompt message) st0 = (r, st1) ->
            exists new,
              trace st1 = trace st ++ new /\ rounds new = 0 /\
              forall error, r = inl error ->
                exists before ev, new = before ++ [ev] /\ thrown_by ev = Some error).
  { intros prefix st0 Ht Hr. unfold ask.
    destruct (invokeWithPrompt message (world st0)) as [outcome w].
    intros [= <- <-]. simpl.
    exists (prefix ++ [Prompt message outcome]).
    rewrite Ht, <- app_assoc. split; [done|].
    split; [rewrite rounds_app, Hr; done|].
    intros error ->. by exists prefix, (Prompt message (inl error)). }
  unfold first_reply, selectInstructions, bind at 1 2, ask at 1.
  destruct (detectToolFromPrompt message (world st)) as [[error|detectedTool] w].
  { intros [= <- <-]. simpl. exists [Detect message (inl error)].
    split; [done|]. split; [done|].
    intros error' [= <-]. by exists [], (Detect message (inl error)). }
  destruct (truthy_string detectedTool).
  2:{ simpl. apply (Hlast [Detect message (inr detectedTool)]); done. }
  unfold bind at 1, ask at 1. simpl world.
  destruct (getToolInstructions _ w) as [[error|instructions] w1].
  { intros [= <- <-]. simpl.
    eexists [Detect message _; Instructions _ (inl error)].
    rewrite <- app_assoc. split; [done|]. split; [done|].
    intros error' [= <-].
    by eexists [Detect message _], (Instructions _ (inl error)). }
  simpl trace.
  destruct (truthy_string instructions); simpl;
    apply (Hlast [Detect message (inr detectedTool);
                  Instructions (default "" detectedTool) (inr instructions)]);
    simpl; by rewrite <- ?app_assoc.
Qed.

(** The trace of a whole turn. *)
Lemma turn_bounded message st : bounded_run st maxIterations (turn message st).
Proof.
  rewrite turn_first_reply.
  destruct (first_reply message st) as [r st1] eqn:Hfirst.
  destruct (first_reply_trace message st r st1 Hfirst) as (new0 & Ht0 & Hr0 & He0).
  destruct r as [error|response]; simpl in *.
  - exists new0. split; [done|]. split; [lia|]. intros error' [= <-]. auto.
  - destruct (resume_bounded message response 0 ∅ [] st1)
      as (new & Ht & Hr & He).
    exists (new0 ++ new). rewrite Ht, Ht0, app_assoc. split; [done|].
    split; [rewrite rounds_app; unfold maxIterations in *; lia|].
    intros error E. destruct (He error E) as (before & ev & -> & Hev).
    exists (new0 ++ before), ev. by rewrite app_assoc.
Qed.

(** ** Where a turn stands when the model has replied *)

(** The results of the rounds in a trace, and the signatures dispatched. *)
Fixpoint results_of (events : list event) : list toolResult :=
  match events with
  | [] => []
  | Dispatched _ results :: rest => results ++ results_of rest
  | _ :: rest => results_of rest
  end.

Fixpoint signatures_of (events : list event) : gset string :=
  match events with
  | [] => ∅
  | Dispatched requested _ :: rest => {[signature requested]} ∪ signatures_of rest
  | _ :: rest => signatures_of rest
  end.

(** [loop_head message st0 response i seen results st]: in the turn that
    [processMessage message] starts in [st0], the [while] condition is tested
    in [st] with these values of [response], [iterationCount],
    [seenToolCalls] and [allToolResults]. *)
Inductive loop_head (message : string) (st0 : state)
  : response -> nat -> gset string -> list toolResult -> state -> Prop :=
| head_first response st :
    first_reply message st0 = (inr response, st) ->
    loop_head message st0 response 0 ∅ [] st
| head_next response iterationCount seen results st response' seen' results' st' :
    loop_head message st0 response iterationCount seen results st ->
    requestsTools response && (iterationCount <? maxIterations)%nat = true ->
    iteration message response iterationCount seen results st
      = (inr (Continue response' seen' results'), st') ->
    loop_head message st0 response' (S iterationCount) seen' results' st'.

(** The turn goes on from a loop head as [resume] says. *)
Lemma turn_loop_head message st0 response iterationCount seen results st :
  loop_head message st0 response iterationCount seen results st ->
  turn message st0 = resume message response iterationCount seen results st.
Proof.
  induction 1 as [response st Hfirst
                 |response i seen results st response' seen' results' st' _ IH Hc Hi].
  - by rewrite turn_first_reply, Hfirst.
  - by rewrite IH, resume_step, Hc, Hi.
Qed.

Lemma results_of_app l1 l2 : results_of (l1 ++ l2) = results_of l1 ++ results_of l2.
Proof.
  induction l1 as [|ev l1 IH]; simpl; [done|].
  destruct ev; simpl; rewrite ?IH, ?app_assoc; done.
Qed.

Lemma signatures_of_app l1 l2 :
  signatures_of (l1 ++ l2) = signatures_of l1 ∪ signatures_of l2.
Proof.
  induction l1 as [|ev l1 IH]; simpl; [by rewrite (left_id_L ∅ (∪))|].
  destruct ev; simpl; rewrite ?IH; try done. by rewrite (assoc_L (∪)).
Qed.

Lemma tool_calls_silent made :
  forallb is_tool_call made = true ->
  results_of made = [] /\ signatures_of made = ∅.
Proof.
  induction made as [|ev made IH]; simpl; [done|].
  intros [Hev Hm]%andb_prop. destruct ev; try done; auto.
Qed.

Lemma iteration_continue message response i seen results st response' seen' results' st' :
  iteration message response i seen results st
    = (inr (Continue response' seen' results'), st') ->
  exists toolResponses made,
    seen' = seen ∪ {[signature (default [] (toolCalls response))]} /\
    results' = results ++ toolResponses /\
    forallb is_tool_call made = true /\
    trace st' = trace st ++ made ++
                [Dispatched (default [] (toolCalls response)) toolResponses;
                 Invoke (round_messages i toolResponses) (inr response')].
Proof.
  unfold iteration. case_decide as Hseen.
  { unfold bind. destruct (forcedAnswer message results st) as [[]]; done. }
  destruct (handleToolCalls_trace (default [] (toolCalls response)) st)
    as (toolResponses & st1 & made & Hh & Ht & Hm).
  unfold bind at 1. rewrite Hh. fold (round_messages i toolResponses).
  unfold bind, ask. destruct (invoke _ (world st1)) as [[error|r] w]; [done|].
  intros [= <- <- <- <-]. exists toolResponses, made. simpl.
  rewrite Ht, <- !app_assoc. done.
Qed.

(** At a loop head the three variables are what the trace of the turn says:
    the count is the number of rounds, the results are those of the rounds,
    the signatures seen are those dispatched. *)
Lemma loop_head_accumulated message st0 response iterationCount seen results st :
  loop_head message st0 response iterationCount seen results st ->
  exists new,
    trace st = trace st0 ++ new /\
    rounds new = iterationCount /\
    results_of new = results /\
    signatures_of new = seen /\
    iterationCount <= maxIterations.
Proof.
  induction 1 as [response st Hfirst
                 |response i seen results st response' seen' results' st' _ IH Hc Hi].
  - destruct (first_reply_trace message st0 _ _ Hfirst) as (new & Ht & Hr & _).
    exists new. split; [done|]. split; [done|].
    assert (Hsilent : forall st1 r, first_reply message st0 = (r, st1) ->
              forall new1, trace st1 = trace st0 ++ new1 ->
              results_of new1 = [] /\ signatures_of new1 = ∅).
    { clear. intros st1 r. unfold first_reply, selectInstructions, bind, ask.
      destruct (detectToolFromPrompt message (world st0)) as [[e|d] w]; simpl.
      { intros [= <- <-] new1 E%app_inv_head. by subst new1. }
      destruct (truthy_string d); simpl.
      2:{ destruct (invokeWithPrompt message w) as [o w1].
          intros [= <- <-] new1. simpl. rewrite <- app_assoc.
          intros E%app_inv_head. by subst new1. }
      destruct (getToolInstructions _ w) as [[e|ins] w1]; simpl.
      { intros [= <- <-] new1. rewrite <- app_assoc.
        intros E%app_inv_head. by subst new1. }
      destruct (truthy_string ins); simpl;
        destruct (invokeWithPrompt message _) as [o w2];
        intros [= <- <-] new1; simpl; rewrite <- !app_assoc;
        intros E%app_inv_head; by subst new1. }
    destruct (Hsilent _ _ Hfirst new Ht) as [-> ->].
    repeat split; lia.
  - destruct IH as (new & Ht & Hr & Hres & Hsig & Hle).
    apply andb_prop in Hc as [_ Hlt%Nat.ltb_lt].
    destruct (iteration_continue _ _ _ _ _ _ _ _ _ _ Hi)
      as (toolResponses & made & -> & -> & Hm & Ht').
    destruct (tool_calls_silent made Hm) as [Hres0 Hsig0].
    eexists (new ++ made ++ [Dispatched _ toolResponses; Invoke _ (inr response')]).
    split; [by rewrite Ht', Ht, <- !app_assoc|].
    rewrite !rounds_app, !results_of_app, !signatures_of_app.
    rewrite (rounds_tool_calls made Hm), Hres0, Hsig0, Hr, Hres, Hsig. simpl.
    repeat split; [lia|by rewrite app_nil_r| |lia].
    by rewrite (left_id_L ∅ (∪)), (right_id_L ∅ (∪)).
Qed.

(** Every round adds a result for each call it was asked for, and it was
    asked for one at least. *)
Lemma iteration_results message response i seen results st response' seen' results' st' :
  requestsTools response = true ->
  iteration message response i seen results st
    = (inr (Continue response' seen' results'), st') ->
  length results < length results'.
Proof.
  intros Hreq. unfold iteration. case_decide as Hseen.
  { unfold bind. destruct (forcedAnswer message results st) as [[]]; done. }
  assert (Hrun : exists entries st1,
            handleToolCalls (default [] (toolCalls response)) st
            = (inr entries, st1) /\
            length (default [] (toolCalls response)) = length entries).
  { destruct (forEachToolCall_entries (default [] (toolCalls response)) st)
      as (entries & st1 & made & Hh & _ & _ & Hall).
    apply Forall2_length in Hall.
    eexists entries, _. unfold handleToolCalls, bind, tell. by rewrite Hh. }
  destruct Hrun as (entries & st1 & Hh & Hall).
  unfold bind at 1. rewrite Hh.
  unfold bind, ask. destruct (invoke _ (world st1)) as [[error|r] w]; [done|].
  intros [= <- <- <- <-]. rewrite length_app, <- Hall.
  unfold requestsTools in Hreq. apply andb_prop in Hreq as [_ Hreq].
  destruct (toolCalls response) as [[|call calls]|]; simpl in *; try done. lia.
Qed.

Lemma loop_head_results message st0 response iterationCount seen results st :
  loop_head message st0 response iterationCount seen results st ->
  iterationCount <= length results.
Proof.
  induction 1 as [response st Hfirst
                 |response i seen results st response' seen' results' st' _ IH Hc Hi].
  - simpl. lia.
  - apply andb_prop in Hc as [Hreq _].
    apply (iteration_results _ _ _ _ _ _ _ _ _ _ Hreq) in Hi. lia.
Qed.

(** [processMessage] is the [try] block with its [catch]. *)
Lemma processMessage_turn message st0 :
  processMessage message st0 =
  (match (turn message st0).1 with
   | inr answer => inr answer
   | inl error => caught error
   end, (turn message st0).2).
Proof. unfold processMessage. by destruct (turn message st0) as [[]]. Qed.

(** A turn that is forced to its end at a loop head. *)
Lemma processMessage_forced message st0 response iterationCount seen results st :
  loop_head message st0 response iterationCount seen results st ->
  requestsTools response = true ->
  signature (default [] (toolCalls response)) ∈ seen
  \/ maxIterations <= iterationCount ->
  processMessage message st0 =
  let '(outcome, w) := invokeWithPrompt (finalPrompt message results) (world st) in
  (match outcome with
   | inr finalResponse => inr (content finalResponse)
   | inl error => caught error
   end,
   mkState w (trace st ++ [Prompt (finalPrompt message results) outcome])).
Proof.
  intros Hhead Hreq Hwhy.
  rewrite processMessage_turn, (turn_loop_head _ _ _ _ _ _ _ Hhead).
  rewrite resume_forced, forcedAnswer_run by done.
  destruct (invokeWithPrompt _ (world st)) as [[error|finalResponse] w]; done.
Qed.

(** ** The turn *)

(** C1: a turn adds at most [maxIterations] = 3 rounds of tool dispatch to
    the trace. When the loop condition is tested after the third round and
    the reply still requests tools, the results of the three rounds, which
    are all the results of the turn and three at least, are compiled into
    the forcing prompt of the specification, in which the output of each of
    them occurs; the model
    is asked once with that prompt, and the turn ends there: the content of
    that reply is the answer, and the trace ends with that prompt, so that
    no round follows. *)
Theorem processMessage_ceiling message st0 :
  (exists new,
     trace (processMessage message st0).2 = trace st0 ++ new /\
     rounds new <= maxIterations) /\
  (forall response seen results st,
     loop_head message st0 response maxIterations seen results st ->
     requestsTools response = true ->
     (exists new, trace st = trace st0 ++ new /\ rounds new = maxIterations /\
                  results_of new = results /\ maxIterations <= length results) /\
     (forall result, In result results ->
        embeds (forcing_prompt message results) (show_output (output result))) /\
     processMessage message st0 =
     let prompt := forcing_prompt message results in
     let '(outcome, w) := invokeWithPrompt prompt (world st) in
     (match outcome with
      | inr finalResponse => inr (content finalResponse)
      | inl error => caught error
      end,
      mkState w (trace st ++ [Prompt prompt outcome]))).
Proof.
  split.
  - rewrite processMessage_turn. simpl.
    destruct (turn_bounded message st0) as (new & Ht & Hr & _). eauto.
  - intros response seen results st Hhead Hreq. split; [|split].
    + destruct (loop_head_accumulated _ _ _ _ _ _ _ Hhead)
        as (new & Ht & Hr & Hres & _).
      exists new. repeat split; try done. by apply loop_head_results in Hhead.
    + apply forcing_prompt_embeds.
    + cbv zeta. rewrite <- finalPrompt_forcing.
      apply (processMessage_forced _ _ _ _ _ _ _ Hhead Hreq). by right.
Qed.

(** C2: when the model has replied with a batch of tool calls whose
    signature was dispatched before in the turn, whatever the count of
    rounds, nothing is dispatched: the forcing prompt of the specification
    is built, which holds the user's message, the output of every result of
    the rounds so far and the instruction to answer without another
    request; the model is asked once with it, and the content of its reply
    is the answer of the turn, whose trace ends with that prompt. *)
Theorem processMessage_repeated_signature
  message st0 response iterationCount seen results st :
  loop_head message st0 response iterationCount seen results st ->
  requestsTools response = true ->
  signature (default [] (toolCalls response)) ∈ seen ->
  (exists new, trace st = trace st0 ++ new /\ rounds new = iterationCount /\
               results_of new = results /\ signatures_of new = seen) /\
  (embeds (forcing_prompt message results) message /\
   (forall result, In result results ->
      embeds (forcing_prompt message results) (show_output (output result))) /\
   embeds (forcing_prompt message results) instruction) /\
  processMessage message st0 =
  let prompt := forcing_prompt message results in
  let '(outcome, w) := invokeWithPrompt prompt (world st) in
  (match outcome with
   | inr finalResponse => inr (content finalResponse)
   | inl error => caught error
   end,
   mkState w (trace st ++ [Prompt prompt outcome])).
Proof.
  intros Hhead Hreq Hseen. split; [|split].
  - destruct (loop_head_accumulated _ _ _ _ _ _ _ Hhead)
      as (new & Ht & Hr & Hres & Hsig & _). eauto.
  - apply forcing_prompt_embeds.
  - cbv zeta. rewrite <- finalPrompt_forcing.
    apply (processMessage_forced _ _ _ _ _ _ _ Hhead Hreq). by left.
Qed.


(** C10: on both ways to a forcing prompt, a signature seen before and the
    ceiling reached with tools still requested, the content of the reply to
    that prompt is the answer of the turn, whatever the reply's [isToolCall]
    and [toolCalls] are; the trace ends with the prompt, so that nothing is
    dispatched for that reply. *)
Theorem forced_reply_is_not_inspected
  message st0 response iterationCount seen results st finalResponse w :
  loop_head message st0 response iterationCount seen results st ->
  requestsTools response = true ->
  signature (default [] (toolCalls response)) ∈ seen
  \/ iterationCount = maxIterations ->
  invokeWithPrompt (finalPrompt message results) (world st) = (inr finalResponse, w) ->
  processMessage message st0 =
  (inr (content finalResponse),
   mkState w (trace st ++ [Prompt (finalPrompt message results) (inr finalResponse)])).
Proof.
  intros Hhead Hreq Hwhy Hfinal.
  rewrite (processMessage_forced _ _ _ _ _ _ _ Hhead Hreq), Hfinal; [done|].
  destruct Hwhy as [?| ->]; auto.
Qed.

(** ** More on a turn *)

(** X12: a reply that asks for no tools ends the turn. When the loop
    condition is tested on a reply that is not flagged as a tool call, or
    that carries no tool calls or an empty list of them, the content of that
    reply is the answer, nothing is dispatched for it and the model is not
    asked again. *)
Theorem processMessage_plain_answer
  message st0 response iterationCount seen results st :
  loop_head message st0 response iterationCount seen results st ->
  requestsTools response = false ->
  processMessage message st0 = (inr (content response), st).
Proof.
  intros Hhead Hreq.
  rewrite processMessage_turn, (turn_loop_head _ _ _ _ _ _ _ Hhead).
  by rewrite resume_done.
Qed.

(** The MCP call a requested tool call leads to, if any: the lookup of its
    name finds a client and its arguments are JSON. *)
Definition dispatchable (toolCall : toolCall) : option (string * json) :=
  match owner (tc_name toolCall) with
  | Some _ =>
      match JSON_parse (tc_arguments toolCall) with
      | inr toolArgs => Some (tc_name toolCall, toolArgs)
      | inl _ => None
      end
  | None => None
  end.

Definition call_of (ev : event) : option (string * json) :=
  match ev with
  | ToolCall name arguments _ => Some (name, arguments)
  | _ => None
  end.

Lemma callOne_calls toolCall st :
  exists entry st' made,
    try_catch (callOne toolCall) (failed toolCall) st = (inr entry, st') /\
    trace st' = trace st ++ made /\
    map call_of made = map Some (option_list (dispatchable toolCall)).
Proof.
  unfold try_catch, callOne, dispatchable, lookup, failed.
  destruct (owner (tc_name toolCall)) as [mcpClient|]; simpl.
  - unfold bind at 1.
    destruct (JSON_parse (tc_arguments toolCall)) as [error|toolArgs]; simpl.
    + eexists _, st, []. by rewrite app_nil_r.
    + unfold bind, askClient.
      destruct (callTool mcpClient (tc_name toolCall) toolArgs (world st))
        as [[error|result] w]; simpl; by eexists _, _, [_].
  - destruct (_ || _); simpl.
    + unfold bind at 1.
      destruct (JSON_parse (tc_arguments toolCall)) as [error|toolArgs]; simpl;
        eexists _, st, []; by rewrite app_nil_r.
    + eexists _, st, []. by rewrite app_nil_r.
Qed.

Lemma forEachToolCall_calls toolCalls st :
  exists entries st' made,
    forEachToolCall toolCalls st = (inr entries, st') /\
    trace st' = trace st ++ made /\
    map call_of made = map Some (omap dispatchable toolCalls).
Proof.
  revert st. induction toolCalls as [|toolCall rest IH]; intros st; simpl.
  - exists [], st, []. by rewrite app_nil_r.
  - destruct (callOne_calls toolCall st) as (entry & st1 & made1 & H1 & T1 & C1).
    destruct (IH st1) as (entries & st2 & made2 & H2 & T2 & C2).
    exists (entry :: entries), st2, (made1 ++ made2).
    unfold bind at 1. rewrite H1. unfold bind at 1. rewrite H2. simpl.
    split; [done|]. split; [by rewrite T2, T1, app_assoc|].
    rewrite map_app, C1, C2.
    by destruct (dispatchable toolCall).
Qed.

(** X13: the calls a batch makes to MCP clients. [handleToolCalls] calls
    MCP once for each requested call under whose name the lookup in
    [toolToMcp] finds a client (a property of its own, or under [__proto__]
    the client that was made its prototype) and whose arguments are JSON,
    with that name and the parsed arguments, one after the other in the
    order of the requests, whatever the earlier calls returned or threw; for
    the other requests it calls nothing, and it asks nothing else of its
    collaborators. *)
Theorem handleToolCalls_calls toolCalls st :
  exists entries st' made,
    handleToolCalls toolCalls st = (inr entries, st') /\
    trace st' = trace st ++ made ++ [Dispatched toolCalls entries] /\
    map call_of made = map Some (omap dispatchable toolCalls).
Proof.
  destruct (forEachToolCall_calls toolCalls st)
    as (entries & st1 & made & H1 & T1 & C1).
  exists entries, (mkState (world st1) (trace st1 ++ [Dispatched toolCalls entries])), made.
  unfold handleToolCalls, bind, tell. rewrite H1. simpl.
  split; [done|]. split; [by rewrite T1, app_assoc|done].
Qed.

(** The calls to the model in a trace. *)
Definition is_model_call (ev : event) : bool :=
  match ev with
  | Prompt _ _ | Invoke _ _ => true
  | _ => false
  end.

Definition model_calls (events : list event) : nat :=
  length (List.filter is_model_call events).

Lemma model_calls_app l1 l2 :
  model_calls (l1 ++ l2) = model_calls l1 + model_calls l2.
Proof. unfold model_calls. by rewrite List.filter_app, length_app. Qed.

Lemma model_calls_tool_calls made :
  forallb is_tool_call made = true -> model_calls made = 0.
Proof.
  induction made as [|ev made IH]; simpl; [done|].
  intros [Hev Hm]%andb_prop. destruct ev; try done; by apply IH.
Qed.

Lemma resume_model_calls message response iterationCount seenToolCalls allToolResults st :
  exists new,
    trace (resume message response iterationCount seenToolCalls allToolResults st).2
      = trace st ++ new /\
    model_calls new <= maxIterations - iterationCount + 1.
Proof.
  remember (maxIterations - iterationCount) as k eqn:Hk.
  revert response iterationCount seenToolCalls allToolResults st Hk.
  induction k as [k IH] using lt_wf_ind.
  intros response iterationCount seenToolCalls allToolResults st ->.
  assert (Hforced : exists new,
            trace (forcedAnswer message allToolResults st).2 = trace st ++ new /\
            model_calls new <= maxIterations - iterationCount + 1).
  { rewrite forcedAnswer_run.
    destruct (invokeWithPrompt _ (world st)) as [outcome w].
    eexists [_]. split; [done|]. unfold model_calls. simpl. lia. }
  destruct (requestsTools response) eqn:Hreq.
  2:{ rewrite resume_done by done. exists []. rewrite app_nil_r.
      split; [done|]. unfold model_calls. simpl. lia. }
  destruct (decide (signature (default [] (toolCalls response)) ∈ seenToolCalls))
    as [Hseen|Hnew].
  { by rewrite resume_forced by auto. }
  destruct (Nat.lt_ge_cases iterationCount maxIterations) as [Hlt|Hge].
  2:{ by rewrite resume_forced by auto. }
  destruct (resume_round message response iterationCount seenToolCalls
              allToolResults st Hreq Hlt Hnew)
    as (toolResponses & st1 & made & _ & Ht & Hm & Hres).
  cbv zeta in Hres. rewrite Hres. clear Hres.
  pose proof (model_calls_tool_calls made Hm) as Hr.
  destruct (invoke _ (world st1)) as [[error|response'] w].
  - eexists (made ++ [Dispatched _ toolResponses; Invoke _ (inl error)]).
    simpl. rewrite Ht, <- !app_assoc. split; [done|].
    rewrite model_calls_app, Hr. unfold model_calls. simpl. lia.
  - set (st2 := mkState w _).
    destruct (IH (maxIterations - S iterationCount) ltac:(lia) response'
                (S iterationCount)
                (seenToolCalls ∪ {[signature (default [] (toolCalls response))]})
                (allToolResults ++ toolResponses) st2 eq_refl)
      as (new & Hnew' & Hcalls).
    eexists (made ++ [Dispatched _ toolResponses; Invoke _ (inr response')] ++ new).
    split; [rewrite Hnew'; subst st2; simpl trace; by rewrite Ht, <- !app_assoc|].
    rewrite !model_calls_app, Hr.
    change (model_calls [Dispatched _ toolResponses; Invoke _ (inr response')])
      with 1.
    lia.
Qed.

Lemma first_reply_model_calls message st :
  exists new,
    trace (first_reply message st).2 = trace st ++ new /\
    model_calls new <= 1.
Proof.
  assert (Hlast : forall (prefix : list event) st0,
            trace st0 = trace st ++ prefix -> model_calls prefix = 0 ->
            exists new,
              trace (ask (invokeWithPrompt message) (Prompt message) st0).2
                = trace st ++ new /\
              model_calls new <= 1).
  { intros prefix st0 Ht Hr. unfold ask.
    destruct (invokeWithPrompt message (world st0)) as [outcome w]. simpl.
    exists (prefix ++ [Prompt message outcome]).
    rewrite Ht, <- app_assoc. split; [done|].
    rewrite model_calls_app, Hr. done. }
  unfold first_reply, selectInstructions, bind at 1 2, ask at 1.
  destruct (detectToolFromPrompt message (world st)) as [[error|detectedTool] w].
  { simpl. exists [Detect message (inl error)]. split; [done|].
    unfold model_calls. simpl. lia. }
  destruct (truthy_string detectedTool).
  2:{ simpl. apply (Hlast [Detect message (inr detectedTool)]); done. }
  unfold bind at 1, ask at 1. simpl world.
  destruct (getToolInstructions _ w) as [[error|instructions] w1].
  { simpl. eexists [Detect message _; Instructions _ (inl error)].
    rewrite <- app_assoc. split; [done|]. unfold model_calls. simpl. lia. }
  simpl trace.
  destruct (truthy_string instructions); simpl;
    apply (Hlast [Detect message (inr detectedTool);
                  Instructions (default "" detectedTool) (inr instructions)]);
    simpl; by rewrite <- ?app_assoc.
Qed.

(** X14: the model is asked at most five times in a turn: once with the
    user's message, once after each of the at most [maxIterations] = 3
    rounds, and once with the forcing prompt. *)
Theorem processMessage_model_calls message st0 :
  exists new,
    trace (processMessage message st0).2 = trace st0 ++ new /\
    model_calls new <= maxIterations + 2.
Proof.
  rewrite processMessage_turn. simpl. rewrite turn_first_reply.
  destruct (first_reply_model_calls message st0) as (new0 & Ht0 & Hc0).
  destruct (first_reply message st0) as [[error|response] st1]; simpl in *.
  - exists new0. split; [done|]. unfold maxIterations in *. lia.
  - destruct (resume_model_calls message response 0 ∅ [] st1) as (new & Ht & Hc).
    exists (new0 ++ new). rewrite Ht, Ht0, app_assoc. split; [done|].
    rewrite model_calls_app. unfold maxIterations in *. lia.
Qed.

End Collaborators.

(** ** A scripted model

    The model client answers from a list of replies, the registry detects no
    tool, and one MCP client owns the tool [search], whose calls all return
    the text [found]. *)

Definition script : Type := list response.

Definition next_reply (w : script) : (raised + response) * script :=
  match w with
  | reply :: rest => (inr reply, rest)
  | [] => (inl (ErrorObject (Error "model unavailable")), [])
  end.

Definition quote : string := String "034"%char "".

(** [JSON.stringify] on values whose strings hold nothing to escape. *)
Fixpoint stringify (v : json) : string :=
  match v with
  | JNull => "null"
  | JBool true => "true"
  | JBool false => "false"
  | JNum n => pretty n
  | JStr s => quote +:+ s +:+ quote
  | JArr items =>
      "[" +:+
      (fix join (l : list json) : string :=
         match l with
         | [] => ""
         | x :: l' =>
             stringify x +:+ (match l' with [] => "" | _ => "," +:+ join l' end)
         end) items +:+ "]"
  | JObj props =>
      "{" +:+
      (fix join (l : list (string * json)) : string :=
         match l with
         | [] => ""
         | (k, x) :: l' =>
             quote +:+ k +:+ quote +:+ ":" +:+ stringify x
             +:+ (match l' with [] => "" | _ => "," +:+ join l' end)
         end) props +:+ "}"
  end.

(** [JSON.parse] on the one argument text of the script. *)
Definition parse_arguments (text : string) : thrown + json :=
  if String.eqb text "{}" then inr (JObj [])
  else inl (mkThrown (Some "Unexpected token") "SyntaxError: Unexpected token").

Definition owners : gmap string unit := {[ "search" := tt ]}.

Definition scripted (message : string) (st : @state script)
  : (thrown + string) * state :=
  processMessage (fun _ w => (inr None, w)) (fun _ w => (inr None, w))
    (fun _ w => w) (fun _ => next_reply) (fun _ => next_reply)
    (fun _ _ _ w => (inr (Some (JStr "found")), w))
    parse_arguments stringify owners None (fun _ _ _ => false) message st.

Definition searching : response :=
  mkResponse "" true (Some [mkToolCall "call_1" "search" "{}"]).
Definition searching_again : response :=
  mkResponse "" true (Some [mkToolCall "call_2" "search" "{}"]).
Definition answering (text : string) : response := mkResponse text false None.

(** A tool without an owner, and arguments that are no JSON: one entry each,
    in order, and the turn goes on. *)
Example scripted_failures :
  handleToolCalls (W := script) (fun _ _ _ w => (inr (Some (JStr "found")), w))
    parse_arguments stringify owners None (fun _ _ _ => false)
    [mkToolCall "a" "foo" "{}"; mkToolCall "b" "search" "{"; mkToolCall "c" "search" "{}"]
    (mkState [] [])
  = (inr [mkToolResult "a" (Some "Error: No MCP found for tool: foo");
          mkToolResult "b" (Some "Error: Unexpected token");
          mkToolResult "c" (Some "found")],
     mkState []
       [ToolCall "search" (JObj []) (inr (Some (JStr "found")));
        Dispatched
          [mkToolCall "a" "foo" "{}"; mkToolCall "b" "search" "{";
           mkToolCall "c" "search" "{}"]
          [mkToolResult "a" (Some "Error: No MCP found for tool: foo");
           mkToolResult "b" (Some "Error: Unexpected token");
           mkToolResult "c" (Some "found")]]).
Proof. vm_compute. reflexivity. Qed.

(** C6: a requested name that no server listed and that every object
    inherits. For [toString] the lookup [this.toolToMcp[requestedName]]
    finds [Object.prototype.toString], which the test for a missing client
    lets pass; the arguments are parsed, and the call of [callTool] on what
    was found throws. The entry holds the text of that [TypeError], not
    ["No MCP found for tool: toString"]. *)
Theorem handleToolCalls_inherited_name :
  owners !! "toString" = None /\
  (handleToolCalls (W := script) (fun _ _ _ w => (inr (Some (JStr "found")), w))
     parse_arguments stringify owners None (fun _ _ _ => false)
     [mkToolCall "a" "toString" "{}"] (mkState [] [])).1
  = inr [mkToolResult "a" (Some "Error: mcpClient.callTool is not a function")].
Proof. split; vm_compute; reflexivity. Qed.



(** A server listed a tool named [__proto__] and became the prototype of
    [toolToMcp]: a call under that name is sent to it; the name of a truthy
    field of it finds that field, and the name of a falsy field nothing. *)
Example scripted_prototype :
  (handleToolCalls (W := script) (fun _ _ _ w => (inr (Some (JStr "found")), w))
     parse_arguments stringify owners (Some tt)
     (fun _ name _ => String.eqb name "initialized")
     [mkToolCall "a" "__proto__" "{}"; mkToolCall "b" "initialized" "{}";
      mkToolCall "c" "process" "{}"; mkToolCall "d" "connect" "{}"]
     (mkState [] [])).1
  = inr [mkToolResult "a" (Some "found");
         mkToolResult "b" (Some "Error: mcpClient.callTool is not a function");
         mkToolResult "c" (Some "Error: No MCP found for tool: process");
         mkToolResult "d" (Some "Error: mcpClient.callTool is not a function")].
Proof. vm_compute. reflexivity. Qed.

(** The model client throws at the first prompt. *)
Example scripted_unavailable :
  (scripted "hi" (mkState [] [])).1
  = inr "Error processing message: model unavailable".
Proof. vm_compute. reflexivity. Qed.

Example scripted_plain :
  scripted "hi" (mkState [answering "hello"] [])
  = (inr "hello", mkState [] [Detect "hi" (inr None);
                          Prompt "hi" (inr (answering "hello"))]).
Proof. reflexivity. Qed.

(** The loop heads of scripted turns. *)
Definition scripted_head (message : string) (st0 : @state script)
  : response -> nat -> gset string -> list toolResult -> state -> Prop :=
  loop_head (fun _ w => (inr None, w)) (fun _ w => (inr None, w))
    (fun _ w => w) (fun _ => next_reply) (fun _ => next_reply)
    (fun _ _ _ w => (inr (Some (JStr "found")), w))
    parse_arguments stringify owners None (fun _ _ _ => false) message st0.

Definition found_1 : toolResult := mkToolResult "call_1" (Some "found").

(** The model asks for the same search twice, then replies [final]. *)
Definition twice (final : response) : @state script :=
  mkState [searching; searching_again; final] [].

Definition twice_after_round (final : response) : @state script :=
  mkState [final]
    [Detect "q" (inr None); Prompt "q" (inr searching);
     ToolCall "search" (JObj []) (inr (Some (JStr "found")));
     Dispatched [mkToolCall "call_1" "search" "{}"] [found_1];
     Invoke [ToolOutput found_1] (inr searching_again)].

Lemma twice_head final :
  scripted_head "q" (twice final) searching_again 1
    (∅ ∪ {[signature stringify [mkToolCall "call_1" "search" "{}"]]})
    ([] ++ [found_1]) (twice_after_round final).
Proof.
  eapply (head_next _ _ _ _ _ _ _ _ _ _ _ _ _ searching 0 ∅ []).
  - apply head_first. reflexivity.
  - reflexivity.
  - vm_compute. reflexivity.
Defined.

Lemma processMessage_repeated_signature_witness :
  (scripted "q" (twice (answering "done"))).1 = inr "done" /\
  rounds (trace (scripted "q" (twice (answering "done"))).2) = 1 /\
  last (trace (scripted "q" (twice (answering "done"))).2)
  = Some (Prompt ("q" +:+ nl +:+ nl +:+
                  "Here are the search results I've found:" +:+ nl +:+ nl +:+
                  "Result 1: found" +:+ nl +:+ nl +:+
                  nl +:+ nl +:+ instruction)
            (inr (answering "done"))).
Proof.
  destruct (processMessage_repeated_signature _ _ _ _ _ _ _ _ _ _ _ _ _ _ _ _ _ _
              (twice_head (answering "done")) eq_refl) as (_ & _ & H).
  - apply (bool_decide_unpack _). vm_compute. exact I.
  - unfold scripted. rewrite H. vm_compute. repeat split; reflexivity.
Defined.

(** The reply to the forcing prompt asks for a tool once more, and says
    nothing else. *)
Definition insisting : response :=
  mkResponse "" true (Some [mkToolCall "call_3" "search" "{}"]).

Lemma forced_reply_is_not_inspected_witness :
  scripted "q" (twice insisting)
  = (inr "", mkState [] (trace (twice_after_round insisting)
                     ++ [Prompt (finalPrompt "q" [found_1]) (inr insisting)])).
Proof.
  unfold scripted.
  refine (forced_reply_is_not_inspected _ _ _ _ _ _ _ _ _ _ _ _ _ _ _ _ _ _ insisting []
            (twice_head insisting) eq_refl (or_introl _) eq_refl).
  apply (bool_decide_unpack _). vm_compute. exact I.
Defined.

(** The model asks for another tool after every round. *)
Definition asking (id name : string) : response :=
  mkResponse "" true (Some [mkToolCall id name "{}"]).

Definition restless : @state script :=
  mkState [searching; asking "call_2" "fetch"; asking "call_3" "read";
           asking "call_4" "list"; answering "forced"] [].

(** Runs the left-hand side of an equation and reads the result off. *)
Ltac run_lhs :=
  lazymatch goal with
  | |- ?lhs = _ =>
      let v := eval vm_compute in lhs in
      transitivity v; [vm_compute; reflexivity|reflexivity]
  end.

Lemma processMessage_ceiling_witness :
  (scripted "q" restless).1 = inr "forced" /\
  rounds (trace (scripted "q" restless).2) = 3 /\
  last (trace (scripted "q" restless).2)
  = Some (Prompt ("q" +:+ nl +:+ nl +:+
                  "Here are the search results I've found:" +:+ nl +:+ nl +:+
                  "Result 1: found" +:+ nl +:+ nl +:+
                  "Result 2: Error: No MCP found for tool: fetch" +:+ nl +:+ nl +:+
                  "Result 3: Error: No MCP found for tool: read" +:+ nl +:+ nl +:+
                  nl +:+ nl +:+ instruction)
            (inr (answering "forced"))).
Proof.
  eassert (Hhead : scripted_head "q" restless (asking "call_4" "list") 3 _ _ _).
  { eapply (head_next _ _ _ _ _ _ _ _ _ _ _ _ _ (asking "call_3" "read") 2);
      [eapply (head_next _ _ _ _ _ _ _ _ _ _ _ _ _ (asking "call_2" "fetch") 1);
         [eapply (head_next _ _ _ _ _ _ _ _ _ _ _ _ _ searching 0 ∅ []);
            [apply head_first; reflexivity|reflexivity|run_lhs]
         |reflexivity|run_lhs]
      |reflexivity|run_lhs]. }
  destruct (proj2 (processMessage_ceiling _ _ _ _ _ _ _ _ _ _ _ "q" restless)
              _ _ _ _ Hhead eq_refl) as (_ & _ & H).
  unfold scripted. rewrite H. vm_compute. repeat split; reflexivity.
Defined.


(** The model searches once and then answers. *)
Definition once : @state script :=
  mkState [searching; answering "done"] [].

Lemma processMessage_plain_answer_witness :
  scripted "q" once
  = (inr "done",
     mkState []
       [Detect "q" (inr None); Prompt "q" (inr searching);
        ToolCall "search" (JObj []) (inr (Some (JStr "found")));
        Dispatched [mkToolCall "call_1" "search" "{}"] [found_1];
        Invoke [ToolOutput found_1] (inr (answering "done"))]).
Proof.
  unfold scripted.
  refine (processMessage_plain_answer _ _ _ _ _ _ _ _ _ _ _ "q" once
            (answering "done") 1 _ _ _ _ eq_refl).
  eapply (head_next _ _ _ _ _ _ _ _ _ _ _ _ _ searching 0 ∅ []).
  - apply head_first. reflexivity.
  - reflexivity.
  - vm_compute. reflexivity.
Defined.

(** The bound of five calls to the model is reached. *)
Example scripted_restless_model_calls :
  model_calls (trace (scripted "q" restless).2) = 5.
Proof. vm_compute. reflexivity. Qed.

(* ===================================================================== *)
(** ** The tools: [convertMCPToolsToOpenAIFormat], [initialize], [setTools] *)
(* ===================================================================== *)

(** An object literal. A property whose value is [undefined] is left out:
    it reads as [undefined] either way. *)
Definition object (fields : list (string * value)) : json :=
  JObj (omap (fun field => pair field.1 <$> field.2) fields).

(** [v || w]. *)
Definition or_else (v : value) (w : json) : json :=
  match v with
  | Some x => if truthy v then x else w
  | None => w
  end.

(** [`${v}`], which is also the property name that [v] stands for in
    [object[v]]. *)
Definition show (v : value) : string :=
  match v with
  | Some x => ToString x
  | None => "undefined"
  end.

(** [tool.inputSchema?.k]. *)
Definition schema (k : string) (tool : json) : value :=
  match prop "inputSchema" tool with
  | None | Some JNull => None
  | Some inputSchema => prop k inputSchema
  end.

(** The object built for one [tool] that is not [null]. *)
Definition convertTool (tool : json) : json :=
  object
    [("type", Some (JStr "function"));
     ("function",
      Some (object
        [("name", prop "name" tool);
         ("description",
          Some (or_else (prop "description" tool)
                  (JStr ("Use the " +:+ show (prop "name" tool) +:+ " tool"))));
         ("parameters",
          Some (object
            [("type", Some (JStr "object"));
             ("properties", Some (or_else (schema "properties" tool) (JObj [])));
             ("required", Some (or_else (schema "required" tool) (JArr [])))]))]))].

Definition cannot_read (what k : string) : thrown :=
  TypeError ("Cannot read properties of " +:+ what +:+ " (reading '" +:+ k +:+ "')").

(** [mcpTools.map(tool => ...)]: reading [tool.name] throws on a [null],
    and the line for the log, which puts [tool.name] in a string, throws on
    a name without a string conversion. The first tool that throws ends the
    [map]. *)
Fixpoint convertMCPToolsToOpenAIFormat (mcpTools : list json) : thrown + list json :=
  match mcpTools with
  | [] => inr []
  | JNull :: _ => inl (cannot_read "null" "name")
  | tool :: rest =>
      if speakable (prop "name" tool) then
        match convertMCPToolsToOpenAIFormat rest with
        | inr converted => inr (convertTool tool :: converted)
        | inl error => inl error
        end
      else inl cannot_convert
  end.

(** The descriptor [setTools] registers for a [tool] with a truthy
    [function]. *)
Definition descriptor (tool : json) : json :=
  let f := default JNull (prop "function" tool) in
  object [("name", prop "name" f);
          ("description", prop "description" f);
          ("inputSchema", prop "parameters" f)].

(** What the bridge does while it sets its tools up. *)
Inductive setup_event :=
| Connected (name : string) (outcome : thrown + unit)
| Listed (name : string) (outcome : thrown + json)
| Registered (tool : json) (outcome : raised + unit)
| ToolsAssigned (tools : list json)   (* [llmClient.tools = ...], the elements then *)
| RegistryCreated                     (* [new DynamicToolRegistry()] *)
| RegistryAssigned (outcome : raised + unit).

Section Setup.

(** The world of the collaborators: the MCP clients with their peers, the
    tool registry and the model client. An MCP client throws [Error]
    objects; the registry and the model client are not code of [src/]. *)
Context {W : Type} {mcp : Type}.
Variable connect : mcp -> W -> (thrown + unit) * W.
Variable getAvailableTools : mcp -> W -> (thrown + json) * W.
Variable registerTool : json -> W -> (raised + unit) * W.
Variable assignTools : list json -> W -> W.
Variable newRegistry : W -> W.
Variable setToolRegistry : W -> (raised + unit) * W.

(** The fields [toolToMcp] and [tools] of the bridge: the properties of
    [toolToMcp] itself, the client that was made its prototype, if one was,
    and the elements of [tools]. *)
Record bridge := mkBridge {
  peers     : W;
  toolToMcp : gmap string mcp;
  prototype : option mcp;
  tools     : list json;
  log       : list setup_event
}.

Definition T (A : Type) : Type := bridge -> (raised + A) * bridge.

Definition unit_T {A} (a : A) : T A := fun s => (inr a, s).
Definition fail_T {A} (e : thrown) : T A := fun s => (inl (ErrorObject e), s).
Definition bind_T {A B} (m : T A) (k : A -> T B) : T B :=
  fun s => match m s with
           | (inr a, s') => k a s'
           | (inl e, s') => (inl e, s')
           end.

Notation "'let*' x := m 'in' k" := (bind_T m (fun x => k))
  (at level 10, x name, m at level 100, k at level 200).

(** A call to a collaborator, logged with its outcome. *)
Definition asks {A} (f : W -> (raised + A) * W) (ev : raised + A -> setup_event)
  : T A :=
  fun s => let '(r, w) := f (peers s) in
           (r, mkBridge w (toolToMcp s) (prototype s) (tools s) (log s ++ [ev r])).

(** A call to an MCP client. *)
Definition asksClient {A} (f : W -> (thrown + A) * W)
  (ev : thrown + A -> setup_event) : T A :=
  fun s => let '(r, w) := f (peers s) in
           (match r with inl e => inl (ErrorObject e) | inr a => inr a end,
            mkBridge w (toolToMcp s) (prototype s) (tools s) (log s ++ [ev r])).

Definition does (f : W -> W) (ev : setup_event) : T unit :=
  fun s => (inr tt, mkBridge (f (peers s)) (toolToMcp s) (prototype s) (tools s)
                             (log s ++ [ev])).

(** The name under which [toolToMcp[tool.name]] is stored. *)
Definition key_of (tool : json) : string := show (prop "name" tool).

(** [this.toolToMcp[tool.name] = client]. Under the name [__proto__] the
    assignment sets the prototype of the object and adds no property. *)
Definition own (client : mcp) (tool : json) (owners : gmap string mcp)
  : gmap string mcp :=
  if String.eqb (key_of tool) "__proto__" then owners
  else <[key_of tool := client]> owners.

Definition inherit (client : mcp) (tool : json) (parent : option mcp)
  : option mcp :=
  if String.eqb (key_of tool) "__proto__" then Some client else parent.

(** The assignment, and the line for the log after it: a name without a
    string conversion is no property name. *)
Definition assignOwner (client : mcp) (tool : json) : T unit :=
  match tool with
  | JNull => fail_T (cannot_read "null" "name")
  | _ =>
      if speakable (prop "name" tool) then
        fun s => (inr tt, mkBridge (peers s) (own client tool (toolToMcp s))
                                   (inherit client tool (prototype s))
                                   (tools s) (log s))
      else fail_T cannot_convert
  end.

(** [mcpTools.forEach((tool) => { ... })]. *)
Fixpoint registerAll (client : mcp) (mcpTools : list json) : T unit :=
  match mcpTools with
  | [] => unit_T tt
  | tool :: rest =>
      let* _ := asks (registerTool tool) (Registered tool) in
      let* _ := assignOwner client tool in
      registerAll client rest
  end.

(** [this.tools.push(...convertedTools)]. *)
Definition push (convertedTools : list json) : T unit :=
  fun s => (inr tt, mkBridge (peers s) (toolToMcp s) (prototype s)
                             (tools s ++ convertedTools) (log s)).

(** The body of the [for] loop of [initialize]. *)
Definition connectOne (entry : string * mcp) : T unit :=
  let '(name, client) := entry in
  let* _ := asksClient (connect client) (Connected name) in
  let* mcpTools := asksClient (getAvailableTools client) (Listed name) in
  match mcpTools with
  | JArr items =>
      let* _ := registerAll client items in
      match convertMCPToolsToOpenAIFormat items with
      | inr convertedTools => push convertedTools
      | inl error => fail_T error
      end
  | JNull => fail_T (cannot_read "null" "length")
  | _ =>
      (* [`Received ${mcpTools.length} tools from ${name}`], then [forEach] *)
      if speakable (prop "length" mcpTools)
      then fail_T (TypeError "mcpTools.forEach is not a function")
      else fail_T cannot_convert
  end.

Fixpoint connectAll (entries : list (string * mcp)) : T unit :=
  match entries with
  | [] => unit_T tt
  | entry :: rest =>
      let* _ := connectOne entry in
      connectAll rest
  end.

(** [this.tools.map((t) => t.function.name)]. *)
Fixpoint functionNames (tools : list json) : thrown + list value :=
  match tools with
  | [] => inr []
  | t :: rest =>
      match t with
      | JNull => inl (cannot_read "null" "function")
      | _ =>
          match prop "function" t with
          | None => inl (cannot_read "undefined" "name")
          | Some JNull => inl (cannot_read "null" "name")
          | Some f =>
              match functionNames rest with
              | inr names => inr (prop "name" f :: names)
              | inl error => inl error
              end
          end
      end
  end.

(** [this.tools.map((t) => t.function.name).join(", ")], evaluated for the
    log: the names are read, then joined. *)
Definition readNames (tools : list json) : thrown + unit :=
  match functionNames tools with
  | inr names => if forallb speakable names then inr tt else inl cannot_convert
  | inl error => inl error
  end.

(** The [catch] of [initialize]: the text of the error is made for the
    log, then [false] is returned. *)
Definition gaveUp (error : raised) : thrown + bool :=
  match textOf error with
  | inr _ => inr false
  | inl e => inl e
  end.

(** [initialize()], over [Object.entries(this.mcpClients)]. *)
Definition initialize (entries : list (string * mcp)) (s : bridge)
  : (thrown + bool) * bridge :=
  let attempt :=
    let* _ := connectAll entries in
    let* _ := (fun s => does (assignTools (tools s)) (ToolsAssigned (tools s)) s) in
    let* _ := asks setToolRegistry RegistryAssigned in
    fun s => (match readNames (tools s) with
              | inr done => inr done
              | inl e => inl (ErrorObject e)
              end, s) in
  match attempt s with
  | (inr _, s') => (inr true, s')
  | (inl error, s') => (gaveUp error, s')
  end.

(** The [forEach] of [setTools]. *)
Fixpoint registerGiven (given : list json) : T unit :=
  match given with
  | [] => unit_T tt
  | tool :: rest =>
      match tool with
      | JNull => fail_T (cannot_read "null" "function")
      | _ =>
          if truthy (prop "function" tool) then
            let* _ := asks (registerTool (descriptor tool))
                          (Registered (descriptor tool)) in
            registerGiven rest
          else registerGiven rest
      end
  end.

(** [setTools(tools)]. *)
Definition setTools (given : list json) : T unit :=
  let* _ := (fun s => (inr tt, mkBridge (peers s) (toolToMcp s) (prototype s)
                                given (log s))) in
  let* _ := does (assignTools given) (ToolsAssigned given) in
  let* _ := does newRegistry RegistryCreated in
  registerGiven given.

(** ** What [initialize] leaves *)

(** The tool lists received, in order. *)
Fixpoint listings (events : list setup_event) : list (list json) :=
  match events with
  | [] => []
  | Listed _ (inr (JArr items)) :: rest => items :: listings rest
  | _ :: rest => listings rest
  end.

(** Is a tool stored under name [k] among [items]? *)
Definition lists_key (k : string) (items : list json) : bool :=
  existsb (fun tool => String.eqb (key_of tool) k) items.

Definition ownAll (client : mcp) (items : list json) (owners : gmap string mcp)
  : gmap string mcp :=
  fold_left (fun m tool => own client tool m) items owners.

Fixpoint owners_after (clients : list mcp) (lists : list (list json))
  (owners : gmap string mcp) : gmap string mcp :=
  match clients, lists with
  | client :: clients', items :: lists' =>
      owners_after clients' lists' (ownAll client items owners)
  | _, _ => owners
  end.

Lemma listings_app l1 l2 : listings (l1 ++ l2) = listings l1 ++ listings l2.
Proof.
  induction l1 as [|ev l1 IH]; simpl; [done|].
  destruct ev as [| ? [|[]] | | | |]; simpl; by rewrite ?IH.
Qed.

(** A tool that the loops of [initialize] pass. *)
Definition passes (tool : json) : bool :=
  match tool with
  | JNull => false
  | _ => speakable (prop "name" tool)
  end.

Lemma convert_all items :
  forallb passes items = true ->
  convertMCPToolsToOpenAIFormat items = inr (map convertTool items).
Proof.
  induction items as [|tool items IH]; [done|].
  intros [Htool Hrest]%andb_prop. cbn [convertMCPToolsToOpenAIFormat map].
  rewrite (IH Hrest). unfold passes in Htool.
  destruct tool; try done; by rewrite Htool.
Qed.

(** The tools that were registered without a throw, in a log. *)
Fixpoint accepted (events : list setup_event) : list json :=
  match events with
  | [] => []
  | Registered tool (inr _) :: rest => tool :: accepted rest
  | _ :: rest => accepted rest
  end.

Definition inheritAll (client : mcp) (items : list json) (parent : option mcp)
  : option mcp :=
  fold_left (fun parent tool => inherit client tool parent) items parent.

Lemma assignOwner_run client tool s :
  assignOwner client tool s =
  if passes tool
  then (inr tt, mkBridge (peers s) (own client tool (toolToMcp s))
                         (inherit client tool (prototype s)) (tools s) (log s))
  else (inl (ErrorObject (match tool with
                          | JNull => cannot_read "null" "name"
                          | _ => cannot_convert
                          end)), s).
Proof.
  unfold assignOwner, passes, fail_T.
  destruct tool; try done; by destruct (speakable _).
Qed.

(** The [forEach] over the tools of one server: the tools before the first
    that throws are registered and routed to the server. *)
Lemma registerAll_run client items s r s' :
  registerAll client items s = (r, s') ->
  exists new routed,
    log s' = log s ++ new /\
    listings new = [] /\
    tools s' = tools s /\
    routed `prefix_of` items /\
    forallb passes routed = true /\
    toolToMcp s' = ownAll client routed (toolToMcp s) /\
    prototype s' = inheritAll client routed (prototype s) /\
    match r with
    | inr _ => routed = items /\ accepted new = items
    | inl _ =>
        exists tool, (routed ++ [tool]) `prefix_of` items /\
          (accepted new = routed \/
           accepted new = routed ++ [tool] /\ passes tool = false)
    end.
Proof.
  revert s. induction items as [|tool items IH]; intros s; cbn [registerAll].
  - intros [= <- <-]. exists [], []. by rewrite app_nil_r.
  - unfold bind_T at 1, asks at 1.
    destruct (registerTool tool (peers s)) as [[error|[]] w]; cbn [fst snd].
    { intros [= <- <-]. exists [Registered tool (inl error)], [].
      cbn [log tools toolToMcp prototype ownAll inheritAll fold_left listings].
      repeat (split; [done || apply prefix_nil|]).
      exists tool. split; [by apply prefix_cons, prefix_nil|by left]. }
    unfold bind_T at 1. rewrite assignOwner_run.
    destruct (passes tool) eqn:Hpass.
    + intros (new & routed & Hl & Hn & Ht & Hp & Hall & Ho & Hi & Hr)%IH.
      cbn [log tools toolToMcp prototype] in Hl, Ht, Ho, Hi.
      exists (Registered tool (inr tt) :: new), (tool :: routed).
      split; [by rewrite Hl, <- app_assoc|].
      split; [exact Hn|]. split; [exact Ht|].
      split; [by apply prefix_cons|].
      split; [cbn [forallb]; by rewrite Hpass, Hall|].
      split; [exact Ho|]. split; [exact Hi|].
      destruct r as [error|[]].
      * destruct Hr as (bad & Hbad & Hacc). exists bad.
        split; [by apply (prefix_cons tool) in Hbad|].
        cbn [accepted]. destruct Hacc as [E|[E Hb]]; rewrite E; [by left|by right].
      * destruct Hr as [-> E]. cbn [accepted]. by rewrite E.
    + intros [= <- <-]. exists [Registered tool (inr tt)], [].
      cbn [log tools toolToMcp prototype ownAll inheritAll fold_left listings].
      repeat (split; [done || apply prefix_nil|]).
      exists tool. split; [by apply prefix_cons, prefix_nil|by right].
Qed.

(** The setting up of one server. *)
Lemma connectOne_run name client s r s' :
  connectOne (name, client) s = (r, s') ->
  exists new routed,
    log s' = log s ++ new /\
    routed `prefix_of` concat (listings new) /\
    forallb passes routed = true /\
    toolToMcp s' = ownAll client routed (toolToMcp s) /\
    prototype s' = inheritAll client routed (prototype s) /\
    match r with
    | inr _ =>
        listings new = [routed] /\ accepted new = routed /\
        tools s' = tools s ++ map convertTool routed
    | inl _ =>
        tools s' = tools s /\
        (routed = [] /\ accepted new = [] \/
         exists tool, (routed ++ [tool]) `prefix_of` concat (listings new) /\
           (accepted new = routed \/
            accepted new = routed ++ [tool] /\ passes tool = false))
    end.
Proof.
  unfold connectOne, bind_T at 1, asksClient at 1.
  destruct (connect client (peers s)) as [[error|[]] w]; cbn [fst snd].
  { intros [= <- <-]. exists [Connected name (inl error)], [].
    repeat (split; [done|]). by left. }
  unfold bind_T at 1, asksClient at 1. cbn [peers].
  destruct (getAvailableTools client w) as [[error|mcpTools] w1]; cbn [fst snd].
  { intros [= <- <-]. exists [Connected name (inr tt); Listed name (inl error)], [].
    cbn [log]. rewrite <- app_assoc.
    repeat (split; [done|]). by left. }
  set (s1 := mkBridge w1 _ _ _ _).
  assert (Hother : forall e : thrown,
            (forall items, mcpTools <> JArr items) ->
            fail_T (A := unit) e s1 = (r, s') ->
            exists new routed,
              log s' = log s ++ new /\
              routed `prefix_of` concat (listings new) /\
              forallb passes routed = true /\
              toolToMcp s' = ownAll client routed (toolToMcp s) /\
              prototype s' = inheritAll client routed (prototype s) /\
              match r with
              | inr _ =>
                  listings new = [routed] /\ accepted new = routed /\
                  tools s' = tools s ++ map convertTool routed
              | inl _ =>
                  tools s' = tools s /\
                  (routed = [] /\ accepted new = [] \/
                   exists tool,
                     (routed ++ [tool]) `prefix_of` concat (listings new) /\
                     (accepted new = routed \/
                      accepted new = routed ++ [tool] /\ passes tool = false))
              end).
  { intros e Hno [= <- <-].
    exists [Connected name (inr tt); Listed name (inr mcpTools)], [].
    cbn [log s1]. rewrite <- app_assoc.
    split; [done|]. split; [apply prefix_nil|].
    repeat (split; [done|]). by left. }
  destruct mcpTools as [| | | |items|props];
    try (apply Hother; done);
    try (destruct (speakable _); apply Hother; done).
  clear Hother. unfold bind_T.
  destruct (registerAll client items s1) as [[error|[]] s2] eqn:Hreg;
    apply registerAll_run in Hreg
      as (new & routed & Hl & Hn & Ht & Hp & Hall & Ho & Hi & Hr);
    cbn [log tools toolToMcp prototype s1] in Hl, Ht, Ho, Hi.
  - intros [= <- <-].
    exists (Connected name (inr tt) :: Listed name (inr (JArr items)) :: new), routed.
    cbn [listings concat]. rewrite Hn, app_nil_r.
    split; [by rewrite Hl, <- !app_assoc|].
    repeat (split; [done|]). right.
    destruct Hr as (tool & Hbad & Hacc). exists tool. done.
  - destruct Hr as [-> Hacc]. rewrite (convert_all items Hall).
    unfold push. intros [= <- <-].
    exists (Connected name (inr tt) :: Listed name (inr (JArr items)) :: new), items.
    cbn [listings concat tools toolToMcp prototype log]. rewrite Hn, app_nil_r.
    split; [by rewrite Hl, <- !app_assoc|].
    repeat (split; [done|]). by rewrite Ht.
Qed.

Lemma connectAll_success entries s s' :
  connectAll entries s = (inr tt, s') ->
  exists new,
    log s' = log s ++ new /\
    length (listings new) = length entries /\
    tools s' = tools s ++ map convertTool (concat (listings new)) /\
    toolToMcp s' = owners_after (map snd entries) (listings new) (toolToMcp s).
Proof.
  revert s. induction entries as [|[name client] entries IH]; intros s;
    cbn [connectAll].
  - intros [= <-]. exists []. by rewrite !app_nil_r.
  - unfold bind_T at 1.
    destruct (connectOne (name, client) s) as [[error|[]] s1] eqn:Hone; [done|].
    apply connectOne_run in Hone
      as (new1 & items & Hl1 & _ & _ & Ho1 & _ & Hn1 & _ & Ht1).
    intros (new & Hl & Hlen & Ht & Ho)%IH.
    exists (new1 ++ new). rewrite listings_app, Hn1. simpl.
    split; [by rewrite Hl, Hl1, app_assoc|].
    split; [by rewrite Hlen|].
    split; [by rewrite Ht, Ht1, map_app, app_assoc|].
    by rewrite Ho, Ho1.
Qed.

Lemma connectAll_app before after s :
  connectAll (before ++ after) s =
  match connectAll before s with
  | (inr _, s1) => connectAll after s1
  | (inl error, s1) => (inl error, s1)
  end.
Proof.
  revert s. induction before as [|entry before IH]; intros s;
    cbn [connectAll app].
  - reflexivity.
  - unfold bind_T. destruct (connectOne entry s) as [[error|[]] s1]; [done|].
    apply IH.
Qed.

Lemma own_lookup client tool owners k :
  k <> "__proto__" ->
  own client tool owners !! k =
  if String.eqb (key_of tool) k then Some client else owners !! k.
Proof.
  intros Hk. unfold own.
  destruct (String.eqb_spec (key_of tool) "__proto__") as [Hp|Hp].
  - destruct (String.eqb_spec (key_of tool) k); [congruence|done].
  - destruct (String.eqb_spec (key_of tool) k) as [<-|Hne].
    + by rewrite lookup_insert_eq.
    + by rewrite lookup_insert_ne.
Qed.

Lemma ownAll_lookup client items owners k :
  k <> "__proto__" ->
  ownAll client items owners !! k =
  if lists_key k items then Some client else owners !! k.
Proof.
  intros Hk. unfold ownAll, lists_key. revert owners.
  induction items as [|tool items IH]; intros owners; simpl; [done|].
  rewrite IH, own_lookup by done.
  destruct (String.eqb (key_of tool) k); simpl; [|done].
  by destruct (existsb _ items).
Qed.

Lemma owners_after_later clients lists owners k :
  k <> "__proto__" ->
  (forall j later, lists !! j = Some later -> lists_key k later = false) ->
  owners_after clients lists owners !! k = owners !! k.
Proof.
  intros Hk. revert lists owners.
  induction clients as [|client clients IH]; intros [|items lists] owners Hlater;
    simpl; try done.
  rewrite IH.
  - rewrite ownAll_lookup by done. by rewrite (Hlater 0 items eq_refl).
  - intros j later Hj. apply (Hlater (S j) later Hj).
Qed.

Lemma owners_after_last clients lists owners i client items k :
  k <> "__proto__" ->
  clients !! i = Some client -> lists !! i = Some items ->
  lists_key k items = true ->
  (forall j later, i < j -> lists !! j = Some later -> lists_key k later = false) ->
  owners_after clients lists owners !! k = Some client.
Proof.
  intros Hk. revert lists owners i.
  induction clients as [|c clients IH]; intros [|l lists] owners [|i];
    simpl; try done.
  - intros [= ->] [= ->] Hkey Hlater.
    rewrite owners_after_later; [|done|].
    + rewrite ownAll_lookup by done. by rewrite Hkey.
    + intros j later Hj. apply (Hlater (S j) later); [lia|done].
  - intros Hc Hl Hkey Hlater. apply (IH lists _ i); try done.
    intros j later Hij Hj. apply (Hlater (S j) later); [lia|done].
Qed.

Lemma gaveUp_true error (s s' : bridge) :
  (gaveUp error, s) = (inr true, s') -> False.
Proof. unfold gaveUp. by destruct (textOf error). Qed.

(** X15: where the tools of [initialize] are routed. When [initialize]
    returns [true], every server was connected and asked for its tools, the
    converted tools of all the lists were pushed to [tools] in the order
    received, duplicates included, and the model client got them last. Every
    listed tool whose name is not [__proto__] is routed, under the text of
    its name, to the server that listed it, or to the last of the servers
    that list that name. *)
Theorem initialize_routes entries s s' :
  initialize entries s = (inr true, s') ->
  exists new,
    log s' = log s ++ new ++ [ToolsAssigned (tools s'); RegistryAssigned (inr tt)] /\
    length (listings new) = length entries /\
    tools s' = tools s ++ map convertTool (concat (listings new)) /\
    forall i name client items tool,
      entries !! i = Some (name, client) ->
      listings new !! i = Some items ->
      In tool items ->
      key_of tool <> "__proto__" ->
      (forall j later, i < j -> listings new !! j = Some later ->
                       lists_key (key_of tool) later = false) ->
      toolToMcp s' !! key_of tool = Some client.
Proof.
  unfold initialize, bind_T at 1.
  destruct (connectAll entries s) as [[error|[]] s1] eqn:Hall;
    [by intros ?%gaveUp_true|].
  apply connectAll_success in Hall as (new & Hl & Hlen & Ht & Ho).
  unfold bind_T at 1, does. simpl.
  unfold bind_T, asks. simpl.
  destruct (setToolRegistry _) as [[error|[]] w]; [by intros ?%gaveUp_true|].
  simpl. destruct (readNames (tools s1)); [by intros ?%gaveUp_true|].
  intros [= <-]. simpl. exists new.
  split; [by rewrite Hl, <- !app_assoc|].
  split; [done|]. split; [done|].
  intros i name client items tool Hentry Hitems Htool Hkey Hlater.
  rewrite Ho. apply (owners_after_last _ _ _ i client items); try done.
  - by rewrite list_lookup_fmap, Hentry.
  - unfold lists_key. apply existsb_exists. exists tool.
    split; [done|]. apply String.eqb_refl.
Qed.

(** X16: a server that fails stops [initialize]. When the servers before
    it were set up and the setting up of one server throws (it does not
    connect, its tool list cannot be had or is no list, a registration
    throws, a tool is [null] or has a name without a string conversion), the
    [catch] of [initialize] is reached there: [false] is returned when the
    text of the error can be made for the log, and [initialize] is rejected
    with the error of the conversion otherwise. The servers after it are not
    connected and the model client is not given the tools. [tools] is what
    the servers before it left. In [toolToMcp] the tools that the failing
    server listed before the one that threw are routed to the failing
    server, the name [__proto__] apart, which makes it the prototype: every
    other name is routed as the servers before it left it. These tools are
    the ones registered without a throw, but for the last of them when the
    throw came from its name. *)
Theorem initialize_stops_at_failure before name client after error s s1 s2 :
  connectAll before s = (inr tt, s1) ->
  connectOne (name, client) s1 = (inl error, s2) ->
  initialize (before ++ (name, client) :: after) s = (gaveUp error, s2) /\
  (forall e, error = ErrorObject e ->
     initialize (before ++ (name, client) :: after) s = (inr false, s2)) /\
  tools s2 = tools s1 /\
  exists new routed,
    log s2 = log s1 ++ new /\
    routed `prefix_of` concat (listings new) /\
    (accepted new = routed \/
     exists tool, accepted new = routed ++ [tool] /\ passes tool = false) /\
    toolToMcp s2 = ownAll client routed (toolToMcp s1) /\
    prototype s2 = inheritAll client routed (prototype s1) /\
    forall k, k <> "__proto__" ->
      toolToMcp s2 !! k =
      if lists_key k routed then Some client else toolToMcp s1 !! k.
Proof.
  intros Hbefore Hone.
  assert (Hrun : initialize (before ++ (name, client) :: after) s
                 = (gaveUp error, s2)).
  { unfold initialize, bind_T at 1. rewrite connectAll_app, Hbefore.
    cbn [connectAll]. unfold bind_T at 1. by rewrite Hone. }
  split; [exact Hrun|]. split; [by intros e ->|].
  apply connectOne_run in Hone
    as (new & routed & Hl & Hp & _ & Ho & Hi & Ht & Hacc).
  split; [exact Ht|]. exists new, routed.
  split; [exact Hl|]. split; [exact Hp|]. split.
  - destruct Hacc as [[-> ->]|(tool & _ & [E|[E Hb]])]; eauto.
  - split; [exact Ho|]. split; [exact Hi|].
    intros k Hk. rewrite Ho. by apply ownAll_lookup.
Qed.

(** ** What [setTools] leaves *)

(** Does [tool] have a truthy [function]? *)
Definition offers (tool : json) : bool := truthy (prop "function" tool).

(** The descriptor handed to [registerTool]. *)
Definition registration (ev : setup_event) : option json :=
  match ev with
  | Registered tool _ => Some tool
  | _ => None
  end.

Lemma registerGiven_run given s r s' :
  registerGiven given s = (r, s') ->
  toolToMcp s' = toolToMcp s /\ prototype s' = prototype s /\
  tools s' = tools s /\
  exists new registered,
    log s' = log s ++ new /\
    map registration new = map Some registered /\
    registered `prefix_of` map descriptor (List.filter offers given) /\
    (r = inr tt -> registered = map descriptor (List.filter offers given)).
Proof.
  revert s. induction given as [|tool given IH]; intros s; cbn [registerGiven].
  - intros [= <- <-]. split; [done|]. split; [done|]. split; [done|].
    exists [], []. by rewrite app_nil_r.
  - assert (Hnull : tool = JNull ->
              fail_T (A := unit) (cannot_read "null" "function") s = (r, s') ->
              toolToMcp s' = toolToMcp s /\ prototype s' = prototype s /\
  tools s' = tools s /\
              exists new registered,
                log s' = log s ++ new /\
                map registration new = map Some registered /\
                registered `prefix_of`
                  map descriptor (List.filter offers (tool :: given)) /\
                (r = inr tt ->
                 registered = map descriptor (List.filter offers (tool :: given)))).
    { intros _ [= <- <-]. split; [done|]. split; [done|]. split; [done|].
      exists [], []. rewrite app_nil_r. repeat split; try done.
      apply prefix_nil. }
    assert (Hrest : tool <> JNull ->
              (if truthy (prop "function" tool)
               then bind_T (asks (registerTool (descriptor tool))
                                 (Registered (descriptor tool)))
                           (fun _ => registerGiven given)
               else registerGiven given) s = (r, s') ->
              toolToMcp s' = toolToMcp s /\ prototype s' = prototype s /\
  tools s' = tools s /\
              exists new registered,
                log s' = log s ++ new /\
                map registration new = map Some registered /\
                registered `prefix_of`
                  map descriptor (List.filter offers (tool :: given)) /\
                (r = inr tt ->
                 registered = map descriptor (List.filter offers (tool :: given)))).
    { intros _. cbn [List.filter].
      change (truthy (prop "function" tool)) with (offers tool).
      destruct (offers tool).
      - unfold bind_T, asks.
        destruct (registerTool (descriptor tool) (peers s)) as [[error|[]] w].
        + intros [= <- <-]. split; [done|]. split; [done|]. split; [done|].
          exists [Registered (descriptor tool) (inl error)], [descriptor tool].
          simpl. repeat split; try done.
          by apply prefix_cons, prefix_nil.
        + intros (Ho & Hi & Ht & new & registered & Hl & Hm & Hp & Hr)%IH.
          simpl in Ho, Hi, Ht, Hl. split; [done|]. split; [done|]. split; [done|].
          exists (Registered (descriptor tool) (inr tt) :: new),
                 (descriptor tool :: registered).
          simpl. rewrite Hl, <- app_assoc, Hm. repeat split; try done.
          * by apply prefix_cons.
          * intros E. by rewrite (Hr E).
      - apply IH. }
    destruct tool; try (apply Hrest; done). by apply Hnull.
Qed.

(** X17: what [setTools] changes. [setTools] replaces [tools] by the list
    given, tells the model client, and registers in a new registry, in
    order, one descriptor for every given tool with a truthy [function],
    with the [name], the [description] and, as [inputSchema], the
    [parameters] of that [function]; it stops at the first registration that
    throws and at a [null] tool. [toolToMcp] is left as it was, its
    properties and its prototype: the routing
    of tool calls is not changed by [setTools], and the model client is not
    given the new registry. *)
Theorem setTools_keeps_routing given s :
  let run := setTools given s in
  toolToMcp run.2 = toolToMcp s /\
  prototype run.2 = prototype s /\
  tools run.2 = given /\
  exists new registered,
    log run.2 = log s ++ ToolsAssigned given :: RegistryCreated :: new /\
    map registration new = map Some registered /\
    registered `prefix_of` map descriptor (List.filter offers given) /\
    (run.1 = inr tt -> registered = map descriptor (List.filter offers given)).
Proof.
  intros run.
  set (s1 := mkBridge (newRegistry (assignTools given (peers s))) (toolToMcp s)
               (prototype s) given
               ((log s ++ [ToolsAssigned given]) ++ [RegistryCreated])).
  assert (E : run = registerGiven given s1) by reflexivity.
  rewrite E. clear E run.
  destruct (registerGiven given s1) as [r s'] eqn:Hrun.
  apply registerGiven_run in Hrun
    as (Ho & Hi & Ht & new & registered & Hl & Hm & Hp & Hr).
  simpl in *. split; [done|]. split; [done|]. split; [done|].
  exists new, registered. rewrite Hl, <- !app_assoc. done.
Qed.

End Setup.

Lemma or_else_truthy v w :
  truthy (Some w) = true -> truthy (Some (or_else v w)) = true.
Proof.
  intros Hw. unfold or_else. destruct v as [x|]; [|done].
  by destruct (truthy (Some x)) eqn:Hx.
Qed.

(** X18: [setTools] undoes the conversion, up to the defaults. A converted
    tool has a truthy [function], so that [setTools] registers it and the
    line of [initialize] that reads the names of [tools] can read the name
    of it; the descriptor [setTools] registers for it has the name of the tool
    it was converted from, and converting that descriptor gives the
    converted tool again. *)
Theorem converted_tool_round_trip tool :
  truthy (prop "function" (convertTool tool)) = true /\
  prop "name" (descriptor (convertTool tool)) = prop "name" tool /\
  convertTool (descriptor (convertTool tool)) = convertTool tool.
Proof.
  set (d := or_else (prop "description" tool)
              (JStr ("Use the " +:+ show (prop "name" tool) +:+ " tool"))).
  set (p := or_else (schema "properties" tool) (JObj [])).
  set (r := or_else (schema "required" tool) (JArr [])).
  assert (Hd : truthy (Some d) = true) by (by apply or_else_truthy).
  assert (Hp : truthy (Some p) = true) by (by apply or_else_truthy).
  assert (Hr : truthy (Some r) = true) by (by apply or_else_truthy).
  unfold convertTool. fold d p r.
  destruct (prop "name" tool) as [n|] eqn:Hn; simpl.
  - split; [done|]. split; [done|].
    unfold convertTool, schema. simpl. simpl in Hd, Hp, Hr.
    by rewrite Hd, Hp, Hr.
  - split; [done|]. split; [done|].
    unfold convertTool, schema. simpl. simpl in Hd, Hp, Hr.
    by rewrite Hd, Hp, Hr.
Qed.

(** ** The constructor *)

(** [this.mcpClients[name] = new MCPClient(config)], a client standing for
    the parameters it is made with. Under the name [__proto__] the
    assignment adds no property. *)
Definition put {C : Type} (name : string) (config : C) (clients : gmap string C)
  : gmap string C :=
  if String.eqb name "__proto__" then clients else <[name := config]> clients.

(** The field [mcpClients] the constructor leaves, for
    [bridgeConfig.mcpServer], [Object.entries(bridgeConfig.mcpServers)] when
    there are [mcpServers], and [bridgeConfig.mcpServerName]. *)
Definition constructor {C : Type} (mcpServer : C)
  (mcpServers : option (list (string * C))) (mcpServerName : option string)
  : gmap string C :=
  let primary := put "primary" mcpServer ∅ in
  match mcpServers with
  | Some entries =>
      fold_left (fun clients entry =>
                   if bool_decide (Some entry.1 = mcpServerName) then clients
                   else put entry.1 entry.2 clients)
                entries primary
  | None => primary
  end.

Lemma NoDup_fst_agree {C : Type} (entries : list (string * C)) name c1 c2 :
  NoDup (map fst entries) ->
  In (name, c1) entries -> In (name, c2) entries -> c1 = c2.
Proof.
  induction entries as [|[n' c'] entries IH]; simpl; [done|].
  intros [Hn Hnd]%NoDup_cons [Heq1|Hin1] [Heq2|Hin2].
  - congruence.
  - injection Heq1 as -> ->. destruct Hn.
    apply list_elem_of_In. by apply (in_map fst _ (name, c2)).
  - injection Heq2 as -> ->. destruct Hn.
    apply list_elem_of_In. by apply (in_map fst _ (name, c1)).
  - by apply IH.
Qed.

Lemma put_all_lookup {C : Type} (skipped : option string)
  (entries : list (string * C)) (clients : gmap string C) (name : string) :
  NoDup (map fst entries) ->
  fold_left (fun clients entry =>
               if bool_decide (Some entry.1 = skipped) then clients
               else put entry.1 entry.2 clients)
            entries clients !! name =
  match List.find (fun entry => String.eqb entry.1 name) entries with
  | Some entry =>
      if bool_decide (Some name = skipped) || String.eqb name "__proto__"
      then clients !! name
      else Some entry.2
  | None => clients !! name
  end.
Proof.
  revert clients. induction entries as [|[n c] entries IH]; intros clients Hnd;
    simpl; [done|].
  apply NoDup_cons in Hnd as [Hn Hnd]. rewrite IH by done. clear IH.
  rewrite list_elem_of_In in Hn.
  destruct (String.eqb_spec n name) as [->|Hne].
  - assert (Hfind : List.find (fun entry : string * C => String.eqb entry.1 name)
                              entries = None).
    { destruct (List.find _ entries) as [[n' c']|] eqn:Hf; [|done].
      apply find_some in Hf as [Hin Heq]. apply String.eqb_eq in Heq.
      simpl in Heq. subst n'. destruct Hn. by apply (in_map fst _ (name, c')). }
    rewrite Hfind. case_bool_decide; simpl; [done|].
    unfold put. destruct (String.eqb_spec name "__proto__"); [done|].
    by rewrite lookup_insert_eq.
  - assert (Hkeep : (if bool_decide (Some n = skipped) then clients
                     else put n c clients) !! name = clients !! name).
    { case_bool_decide; [done|]. unfold put.
      destruct (String.eqb n "__proto__"); [done|]. by rewrite lookup_insert_ne. }
    destruct (List.find _ entries); by rewrite Hkeep.
Qed.

(** X20: the clients the constructor makes. With the names of
    [mcpServers] all different: a server of [mcpServers] gets a client
    under its name, unless its name is [mcpServerName], which is skipped, or
    [__proto__]; the client [primary] is made for [mcpServer], unless
    [mcpServers] has a server called [primary] and [mcpServerName] is another
    name: then that server takes the place of [mcpServer]. *)
Theorem constructor_clients {C : Type} (mcpServer : C)
    (entries : list (string * C)) (mcpServerName : option string) :
  NoDup (map fst entries) ->
  let clients := constructor mcpServer (Some entries) mcpServerName in
  (forall name config,
     In (name, config) entries ->
     Some name <> mcpServerName -> name <> "__proto__" ->
     clients !! name = Some config) /\
  (forall name,
     Some name = mcpServerName -> name <> "primary" -> clients !! name = None) /\
  ((forall config, ~ In ("primary", config) entries) \/
   mcpServerName = Some "primary" ->
   clients !! "primary" = Some mcpServer).
Proof.
  intros Hnd clients. subst clients. unfold constructor.
  assert (Hprimary : forall name,
            put "primary" mcpServer (∅ : gmap string C) !! name =
            if String.eqb name "primary" then Some mcpServer else None).
  { intros name. unfold put. simpl.
    destruct (String.eqb_spec name "primary") as [->|Hne].
    - by rewrite lookup_insert_eq.
    - by rewrite lookup_insert_ne. }
  split; [|split].
  - intros name config Hin Hskip Hproto.
    rewrite put_all_lookup by done.
    destruct (List.find _ entries) as [[n c]|] eqn:Hf.
    + apply find_some in Hf as [Hin' Heq]. apply String.eqb_eq in Heq.
      simpl in Heq. subst n.
      rewrite bool_decide_eq_false_2 by done.
      destruct (String.eqb_spec name "__proto__"); [done|]. simpl. f_equal.
      by apply (NoDup_fst_agree entries name).
    + exfalso. eapply (find_none _ _ Hf (name, config)) in Hin.
      simpl in Hin. by rewrite String.eqb_refl in Hin.
  - intros name Hskip Hne. rewrite put_all_lookup by done.
    rewrite Hprimary. apply String.eqb_neq in Hne. rewrite Hne.
    destruct (List.find _ entries); [|done].
    by rewrite bool_decide_eq_true_2.
  - intros Hcase. rewrite put_all_lookup by done.
    rewrite Hprimary. simpl.
    destruct (List.find _ entries) as [[n c]|] eqn:Hf; [|done].
    apply find_some in Hf as [Hin Heq]. apply String.eqb_eq in Heq.
    simpl in Heq. subst n.
    destruct Hcase as [Hnone| ->]; [by destruct (Hnone c)|].
    by rewrite bool_decide_eq_true_2.
Qed.

Lemma constructor_clients_witness :
  let clients :=
    constructor "node files.js"
      (Some [("files", "node files.js"); ("web", "node web.js");
             ("primary", "node other.js")])
      (Some "files") in
  clients !! "web" = Some "node web.js" /\
  clients !! "primary" = Some "node other.js" /\
  clients !! "files" = None.
Proof.
  intros clients.
  assert (Hnd : NoDup (map fst [("files", "node files.js"); ("web", "node web.js");
                                ("primary", "node other.js")])).
  { apply (bool_decide_unpack _). vm_compute. exact I. }
  destruct (constructor_clients "node files.js"
              [("files", "node files.js"); ("web", "node web.js");
               ("primary", "node other.js")] (Some "files") Hnd)
    as (Hmade & Hskipped & _).
  split; [|split].
  - apply Hmade; [right; by left|done|done].
  - apply Hmade; [right; right; by left|done|done].
  - by apply Hskipped.
Defined.

(** ** Scripted servers

    The server [files] lists [read_file] and [search], the server [web]
    lists [search] and [fetch], the server [broken] lists [search] and a
    [null], and the server [down] cannot be connected. The registry and the
    model client accept what they are given. *)

Definition named (name : string) : json := JObj [("name", JStr name)].

Definition scripted_connect (client : string) (w : unit) : (thrown + unit) * unit :=
  if String.eqb client "down" then (inl (Error "spawn ENOENT"), w) else (inr tt, w).

Definition scripted_tools (client : string) (w : unit) : (thrown + json) * unit :=
  (inr (JArr (if String.eqb client "files"
              then [named "read_file"; named "search"]
              else if String.eqb client "broken"
              then [named "search"; JNull]
              else [named "search"; named "fetch"])), w).

Definition scripted_initialize (entries : list (string * string))
  (s : @bridge unit string) : (thrown + bool) * bridge :=
  initialize scripted_connect scripted_tools (fun _ w => (inr tt, w))
    (fun _ w => w) (fun w => (inr tt, w)) entries s.

Definition unset : @bridge unit string := mkBridge tt ∅ None [] [].

Lemma initialize_routes_witness :
  let entries := [("primary", "files"); ("web", "web")] in
  let s' := (scripted_initialize entries unset).2 in
  exists new,
    log s' = log unset ++ new
             ++ [ToolsAssigned (tools s'); RegistryAssigned (inr tt)] /\
    length (listings new) = length entries /\
    tools s' = tools unset ++ map convertTool (concat (listings new)) /\
    forall i name client items tool,
      entries !! i = Some (name, client) ->
      listings new !! i = Some items ->
      In tool items ->
      key_of tool <> "__proto__" ->
      (forall j later, i < j -> listings new !! j = Some later ->
                       lists_key (key_of tool) later = false) ->
      toolToMcp s' !! key_of tool = Some client.
Proof.
  intros entries s'.
  apply (initialize_routes scripted_connect scripted_tools (fun _ w => (inr tt, w))
           (fun _ w => w) (fun w => (inr tt, w)) entries unset s').
  vm_compute. reflexivity.
Defined.

(** The two servers of the witness both list [search]: it is offered to the
    model twice and routed to [web]. *)
Example scripted_initialize_twice_listed :
  let s' := (scripted_initialize [("primary", "files"); ("web", "web")] unset).2 in
  tools s' = map convertTool [named "read_file"; named "search";
                              named "search"; named "fetch"] /\
  toolToMcp s' !! "read_file" = Some "files" /\
  toolToMcp s' !! "search" = Some "web" /\
  toolToMcp s' !! "fetch" = Some "web".
Proof. vm_compute. repeat split; reflexivity. Qed.

Lemma initialize_stops_at_failure_witness :
  let run := connectAll scripted_connect scripted_tools (fun _ w => (inr tt, w)) in
  let s1 := (run [("primary", "files")] unset).2 in
  let s2 := (run [("backup", "broken")] s1).2 in
  scripted_initialize
    [("primary", "files"); ("backup", "broken"); ("web", "web")] unset
    = (inr false, s2) /\
  tools s2 = tools s1 /\
  toolToMcp s2 = <["search" := "broken"]> (toolToMcp s1) /\
  toolToMcp s2 !! "read_file" = Some "files".
Proof.
  intros run s1 s2.
  destruct (initialize_stops_at_failure scripted_connect scripted_tools
              (fun _ w => (inr tt, w)) (fun _ w => w) (fun w => (inr tt, w))
              [("primary", "files")] "backup" "broken" [("web", "web")]
              (ErrorObject (cannot_read "null" "name")) unset s1 s2)
    as (_ & Hfalse & Htools & _).
  - vm_compute. reflexivity.
  - vm_compute. reflexivity.
  - split; [exact (Hfalse _ eq_refl)|]. split; [exact Htools|].
    split; vm_compute; reflexivity.
Defined.

(** A server that cannot be connected leaves [toolToMcp] as it was. *)
Example scripted_initialize_down :
  let s' := (scripted_initialize
               [("primary", "files"); ("backup", "down"); ("web", "web")] unset) in
  s'.1 = inr false /\
  tools s'.2 = map convertTool [named "read_file"; named "search"] /\
  toolToMcp s'.2 !! "search" = Some "files" /\
  toolToMcp s'.2 !! "fetch" = None.
Proof. vm_compute. repeat split; reflexivity. Qed.

(** What stays after the failure of the witness: the tools of [files], with
    [search] routed to [broken], and nothing of [web]; the model client was
    told nothing. *)
Example scripted_initialize_partial :
  let s' := (scripted_initialize
               [("primary", "files"); ("backup", "broken"); ("web", "web")] unset).2 in
  tools s' = map convertTool [named "read_file"; named "search"] /\
  toolToMcp s' !! "search" = Some "broken" /\
  toolToMcp s' !! "fetch" = None /\
  log s' = [Connected "primary" (inr tt);
            Listed "primary" (inr (JArr [named "read_file"; named "search"]));
            Registered (named "read_file") (inr tt);
            Registered (named "search") (inr tt);
            Connected "backup" (inr tt);
            Listed "backup" (inr (JArr [named "search"; JNull]));
            Registered (named "search") (inr tt);
            Registered JNull (inr tt)].
Proof. vm_compute. repeat split; reflexivity. Qed.

End Bridge.
